(** * sseuda: arena allocator and arena-backed skip list

    A shallow embedding of [internal/oldsepia/marena], [internal/oldsepia/splitmix64]
    and [internal/oldsepia/mskip], with the properties of the written
    specification stated and proved over it, followed by further properties
    that the code itself shows.

    Conventions.
    - Go's fixed-width integers are values of [Z]; every operation that can
      leave the range of its type is followed by the wrap-around of that type
      ([wrap_u64], [wrap_i64], [wrap_u32]).
    - [[]byte] is [option (list byte)]: [None] is the nil slice.
    - The arena buffer is a byte array.  The skip list overlays node records
      on it through unsafe pointers; the embedding keeps the bytes of keys
      and values as bytes ([cells]) and the node records as records keyed by
      their arena offset ([records]).  A node record only has the forward
      links its level pays for: reading a link past them, or a record at an
      offset where none was written, is [None].
    - Unbounded [for] loops that follow forward links are run for at most as
      many steps as the arena cursor counts bytes; [None] also marks a walk
      that does not finish within that bound.  The theorems show that neither
      happens on a list built by [NewSkipList] and [Insert]. *)

From Stdlib Require Import ZArith Lia Strings.Byte.
From stdpp Require Import gmap list sorting.

Local Open Scope Z_scope.

(** ** Fixed-width integers *)

Definition wrap_u64 (z : Z) : Z := z mod 2 ^ 64.
Definition wrap_u32 (z : Z) : Z := z mod 2 ^ 32.
Definition wrap_i64 (z : Z) : Z := (z + 2 ^ 63) mod 2 ^ 64 - 2 ^ 63.

Arguments wrap_u64 : simpl never.
Arguments wrap_u32 : simpl never.
Arguments wrap_i64 : simpl never.

Definition is_i64 (z : Z) : Prop := - 2 ^ 63 <= z < 2 ^ 63.
Definition is_u64 (z : Z) : Prop := 0 <= z < 2 ^ 64.

(** ** What lives in the arena buffer *)

(** [mskipNode] of mskip.go.  [nexts] holds the [level] links the record was
    allocated with. *)
Record mskipNode := MkNode {
  keyPtr : Z;
  valuePtr : Z;
  level : Z;
  nexts : list Z
}.

Record Buffer := MkBuffer {
  len : Z;
  cells : gmap Z byte;
  records : gmap Z mskipNode
}.

Fixpoint read_bytes (m : gmap Z byte) (off : Z) (n : nat) : list byte :=
  match n with
  | O => []
  | S n' => default x00 (m !! off) :: read_bytes m (off + 1) n'
  end.

Fixpoint write_bytes (m : gmap Z byte) (off : Z) (data : list byte) : gmap Z byte :=
  match data with
  | [] => m
  | b :: d => <[off := b]> (write_bytes m (off + 1) d)
  end.

(** ** marena *)

Module marena.

Definition ARENA_MAX_ALLOC_SIZE : Z := 2 ^ 31 - 1.
Definition ARENA_PAGESIZE : Z := 2 ^ 16.
Definition ARENA_INVALID_ADDRESS : Z := 0.
Definition ARENA_MIN_ADDRESS : Z := 128.

Record Arena := MkArena {
  buffer : Buffer;
  size : Z;
  cursor : Z
}.

(** [make([]byte, size)] panics on a negative length: [None]. *)
Definition make_buffer (n : Z) : option Buffer :=
  if n <? 0 then None else Some (MkBuffer n ∅ ∅).

Definition NewArena (size0 : Z) : option Arena :=
  let size1 :=
    wrap_i64 (Z.quot (wrap_i64 (size0 + (ARENA_PAGESIZE - 1))) ARENA_PAGESIZE
              * ARENA_PAGESIZE) in
  let size2 := if size1 >? ARENA_MAX_ALLOC_SIZE then 2 ^ 31 else size1 in
  match make_buffer size2 with
  | None => None
  | Some b => Some (MkArena b size2 ARENA_MIN_ADDRESS)
  end.

Definition align (n : Z) : Z :=
  wrap_i64 (Z.shiftl (Z.shiftr (wrap_i64 (n + 7)) 3) 3).

(** [uint64(indexStart)<<32 | uint64(size)] *)
Definition pack (indexStart sz : Z) : Z :=
  Z.lor (wrap_u64 (Z.shiftl (wrap_u64 indexStart) 32)) (wrap_u64 sz).

Definition set_cursor (g : Arena) (c : Z) : Arena :=
  MkArena (buffer g) (size g) c.

(** Single-threaded [Allocate]: the load and the add of the cursor are not
    interleaved with other callers. *)
Definition Allocate (g : Arena) (sz : Z) : Z * Arena :=
  if wrap_u64 sz >? ARENA_MAX_ALLOC_SIZE then (ARENA_INVALID_ADDRESS, g)
  else
    let sizeAligned := align (wrap_i64 sz) in
    if wrap_i64 (cursor g + sizeAligned) >? size g then (ARENA_INVALID_ADDRESS, g)
    else
      let indexEnd := wrap_i64 (cursor g + sizeAligned) in
      let g' := set_cursor g indexEnd in
      let indexStart := wrap_i64 (indexEnd - sizeAligned) in
      if indexEnd >? size g then (ARENA_INVALID_ADDRESS, g')
      else (pack indexStart sz, g').

(** First loop of [AllocateMultiple]: [None] is the early [return false]. *)
Fixpoint sum_sizes (slots : list Z) (totalSize : Z) : option Z :=
  match slots with
  | [] => Some totalSize
  | s :: rest =>
      if s >? ARENA_MAX_ALLOC_SIZE then None
      else sum_sizes rest (wrap_i64 (totalSize + align (wrap_i64 s)))
  end.

(** Second loop of [AllocateMultiple]. *)
Fixpoint assign (slots : list Z) (indexStart : Z) : list Z :=
  match slots with
  | [] => []
  | s :: rest =>
      let sz := wrap_i64 s in
      pack indexStart sz :: assign rest (wrap_i64 (indexStart + align sz))
  end.

(** The slots are distinct [uint64] cells, given in argument order. *)
Definition AllocateMultiple (g : Arena) (slots : list Z) : bool * list Z * Arena :=
  match sum_sizes slots 0 with
  | None => (false, slots, g)
  | Some totalSize =>
      if wrap_i64 (cursor g + totalSize) >? size g then (false, slots, g)
      else
        let indexEnd := wrap_i64 (cursor g + totalSize) in
        let g' := set_cursor g indexEnd in
        let indexStart := wrap_i64 (indexEnd - totalSize) in
        if indexEnd >? size g then (false, slots, g')
        else (true, assign slots indexStart, g')
  end.

Definition View (g : Arena) (address : Z) : option (list byte) :=
  let offset := Z.shiftr address 32 in
  let sz := Z.land address (2 ^ 32 - 1) in
  if (offset <? ARENA_MIN_ADDRESS) || (wrap_u64 (offset + sz) >? wrap_u64 (size g))
  then None
  else Some (read_bytes (cells (buffer g)) offset (Z.to_nat sz)).

Definition Reset (g : Arena) : Arena :=
  MkArena (MkBuffer (len (buffer g)) ∅ ∅) (size g) ARENA_MIN_ADDRESS.

Definition Remaining (g : Arena) : Z := wrap_i64 (size g - cursor g).

Definition Size (address : Z) : Z := wrap_u32 (Z.land address (2 ^ 32 - 1)).
Definition Offset (address : Z) : Z := wrap_u32 (Z.shiftr address 32).

(** [copy(g.View(address), src)]: the first [min (len view) (len src)] bytes
    of the view are overwritten; a nil view takes nothing. *)
Definition copy_to_view (g : Arena) (address : Z) (src : list byte) : Arena :=
  match View g address with
  | None => g
  | Some v =>
      let b := buffer g in
      MkArena (MkBuffer (len b)
                 (write_bytes (cells b) (Z.shiftr address 32) (take (length v) src))
                 (records b))
              (size g) (cursor g)
  end.

(** [&g.buffer[offset]]: the pointer is named by the offset it points at;
    indexing at or past the length of the buffer panics, [None]. *)
Definition Index (g : Arena) (offset : Z) : option Z :=
  if offset <? len (buffer g) then Some offset else None.

(** The arena with the bytes of its buffer replaced. *)
Definition with_cells (a : Arena) (c : gmap Z byte) : Arena :=
  MkArena (MkBuffer (len (buffer a)) c (records (buffer a))) (size a) (cursor a).

(** Arenas produced by the package's own operations. *)
Inductive reachable : Arena -> Prop :=
| reach_new c g : is_i64 c -> NewArena c = Some g -> reachable g
| reach_alloc g sz : reachable g -> is_i64 sz -> reachable (Allocate g sz).2
| reach_multi g slots :
    reachable g -> Forall is_u64 slots -> Z.of_nat (length slots) < 2 ^ 31 ->
    reachable (AllocateMultiple g slots).2
| reach_reset g : reachable g -> reachable (Reset g).

End marena.

(** ** splitmix64 *)

Module splitmix64.

Definition IncrementConstant : Z := 0x9e3779b97f4a7c15.

Definition next (x0 : Z) : Z :=
  let x1 := wrap_u64 (Z.lxor x0 (Z.shiftr x0 30) * 0xbf58476d1ce4e5b9) in
  let x2 := wrap_u64 (Z.lxor x1 (Z.shiftr x1 27) * 0x94d049bb133111eb) in
  Z.lxor x2 (Z.shiftr x2 31).

(** Returns the draw and the advanced state. *)
Definition Splitmix64 (state : Z) : Z * Z :=
  let state' := wrap_u64 (state + IncrementConstant) in
  (next state', state').

End splitmix64.

(** ** mskip *)

Module mskip.
Import marena.

Abbreviation slice := (option (list byte)).

(** A nil slice and an empty one hold the same bytes. *)
Definition slice_bytes (s : slice) : list byte := default [] s.

Definition MSKIP_MAX_LEVEL : Z := 24.

(** [unsafe.Sizeof(mskipNode{})]; mskip.go pins it to 120 at compile time,
    as it pins [nodeNextsOffset] to 20. *)
Definition nodeMaxSize : Z := 120.

Definition sizeNode (nodeLevel : Z) : Z :=
  wrap_u64 (nodeMaxSize - MSKIP_MAX_LEVEL * 4 + wrap_u64 nodeLevel * 4).

Record SkipList := MkSkipList {
  arena : Arena;
  seed : Z;
  head : Z;
  refCount : Z
}.

Definition set_arena (g : SkipList) (a : Arena) : SkipList :=
  MkSkipList a (seed g) (head g) (refCount g).

Definition set_seed (g : SkipList) (sd : Z) : SkipList :=
  MkSkipList (arena g) sd (head g) (refCount g).

Definition set_refCount (g : SkipList) (r : Z) : SkipList :=
  MkSkipList (arena g) (seed g) (head g) r.

(** [atomic.AddInt64(&g.refCount, 1)]: the new count, and the list holding it. *)
Definition IncRef (g : SkipList) : Z * SkipList :=
  let r := wrap_i64 (refCount g + 1) in (r, set_refCount g r).

Definition DecRef (g : SkipList) : Z * SkipList :=
  let r := wrap_i64 (refCount g - 1) in (r, set_refCount g r).

Definition RefCount (g : SkipList) : Z := refCount g.

Definition put_record (a : Arena) (ptr : Z) (nd : mskipNode) : Arena :=
  let b := buffer a in
  MkArena (MkBuffer (len b) (cells b) (<[ptr := nd]> (records b))) (size a) (cursor a).

Definition getNode (g : SkipList) (ptr : Z) : option mskipNode :=
  records (buffer (arena g)) !! ptr.

Definition putNode (g : SkipList) (ptr : Z) (nd : mskipNode) : SkipList :=
  set_arena g (put_record (arena g) ptr nd).

(** [g.getNode(ptr).valuePtr = v] *)
Definition set_valuePtr (g : SkipList) (ptr v : Z) : option SkipList :=
  nd ← getNode g ptr;
  Some (putNode g ptr (MkNode (keyPtr nd) v (level nd) (nexts nd))).

(** [g.getNode(ptr).nexts[i] = v] *)
Definition set_next (g : SkipList) (ptr : Z) (i : nat) (v : Z) : option SkipList :=
  nd ← getNode g ptr;
  if decide (i < length (nexts nd))%nat
  then Some (putNode g ptr (MkNode (keyPtr nd) (valuePtr nd) (level nd) (<[i := v]> (nexts nd))))
  else None.

(** [g.getNode(ptr).nexts[i]] *)
Definition next_at (g : SkipList) (i : nat) (ptr : Z) : option Z :=
  nd ← getNode g ptr; nexts nd !! i.

(** [g.arena.View(g.getNode(ptr).keyPtr)] *)
Definition nodeKey (g : SkipList) (ptr : Z) : option slice :=
  nd ← getNode g ptr; Some (View (arena g) (keyPtr nd)).

(** The bound on link-following loops. *)
Definition walk_bound (g : SkipList) : nat := Z.to_nat (cursor (arena g)).

Definition zero_log : list Z := replicate 24 0.

(** [NewSkipList]; [None] is [ErrAllocationFailed]. *)
Definition NewSkipList (a : Arena) (sd : Z) : option SkipList :=
  let headSize := sizeNode MSKIP_MAX_LEVEL in
  let '(headPtr, a') := Allocate a headSize in
  if headPtr =? ARENA_INVALID_ADDRESS then None
  else
    let h := Offset headPtr in
    Some (MkSkipList
            (put_record a' h
               (MkNode ARENA_INVALID_ADDRESS ARENA_INVALID_ADDRESS MSKIP_MAX_LEVEL
                       (replicate 24 ARENA_INVALID_ADDRESS)))
            sd h 1).

Fixpoint randLevel_loop (n : nat) (lvl sd : Z) : Z * Z :=
  match n with
  | O => (lvl, sd)
  | S n' =>
      if lvl <? MSKIP_MAX_LEVEL then
        let '(r, sd') := splitmix64.Splitmix64 sd in
        if r mod 2 =? 0 then randLevel_loop n' (lvl + 1) sd' else (lvl, sd')
      else (lvl, sd)
  end.

(** The loop of [randLevel] leaves after at most 23 increments. *)
Definition randLevel (g : SkipList) : Z * SkipList :=
  let '(lvl, sd) := randLevel_loop 24 1 (seed g) in (lvl, set_seed g sd).

(** [newNodeSize] and [newKeySize] of [insertNext], as handed to
    [AllocateMultiple]. *)
Definition newNodeRequest (lvl : Z) (key : list byte) : list Z :=
  [wrap_u64 (sizeNode lvl); wrap_u64 (Z.of_nat (length key))].

Section WithCompare.

Variable compare : list byte -> list byte -> Z.

(** Inner loop of [seeklt] at level [i]. *)
Fixpoint seeklt_walk (fuel : nat) (g : SkipList) (key : list byte) (i : nat) (ptr : Z)
  : option Z :=
  match fuel with
  | O => None
  | S fuel' =>
      next ← next_at g i ptr;
      if next =? ARENA_INVALID_ADDRESS then Some ptr
      else
        k ← nodeKey g next;
        if compare key (slice_bytes k) <=? 0 then Some ptr
        else seeklt_walk fuel' g key i next
  end.

(** Outer loop of [seeklt]: levels [n-1] down to 0. *)
Fixpoint seeklt_levels (fuel : nat) (g : SkipList) (key : list byte) (n : nat)
    (ptr : Z) (log : list Z) : option (Z * list Z) :=
  match n with
  | O => Some (ptr, log)
  | S i =>
      ptr' ← seeklt_walk fuel g key i ptr;
      seeklt_levels fuel g key i ptr' (<[i := ptr']> log)
  end.

(** [seeklt]: the returned offset and the log as it is left; a nil [log] is
    replaced by the dummy log. *)
Definition seeklt (g : SkipList) (key : list byte) (log : option (list Z))
  : option (Z * list Z) :=
  seeklt_levels (walk_bound g) g key 24 (head g) (default zero_log log).

(** Linking loop of [insertNext], levels [i], [i+1], ... ([n] of them). *)
Fixpoint link_loop (g : SkipList) (log : list Z) (node : Z) (n i : nat)
  : option SkipList :=
  match n with
  | O => Some g
  | S n' =>
      p ← log !! i;
      nx ← next_at g i p;
      g1 ← set_next g node i nx;
      g2 ← set_next g1 p i node;
      link_loop g2 log node n' (S i)
  end.

(** [insertNext], lines 177-187: the key is at [next], its value reference
    is swapped. *)
Definition insertNext_update (g : SkipList) (next : Z) (value : slice)
  : option (Z * SkipList) :=
  match value with
  | None =>
      g1 ← set_valuePtr g next ARENA_INVALID_ADDRESS;
      Some (next, g1)
  | Some v =>
      let '(newValueAddr, a1) := Allocate (arena g) (Z.of_nat (length v)) in
      if newValueAddr =? ARENA_INVALID_ADDRESS
      then Some (ARENA_INVALID_ADDRESS, set_arena g a1)
      else
        g2 ← set_valuePtr (set_arena g (copy_to_view a1 newValueAddr v)) next newValueAddr;
        Some (next, g2)
  end.

(** [insertNext], lines 190-224: a node is made for the key and linked
    after the logged predecessors. *)
Definition insertNext_create (g : SkipList) (log : list Z) (key : list byte)
    (value : slice) : option (Z * SkipList) :=
  let '(lvl, g1) := randLevel g in
  match AllocateMultiple (arena g1) (newNodeRequest lvl key) with
  | (true, [nodeAddr; keyAddr], a2) =>
      let node := Offset nodeAddr in
      let g2 := set_arena g1
                  (copy_to_view
                     (put_record a2 node
                        (MkNode keyAddr 0 lvl (replicate (Z.to_nat lvl) 0)))
                     keyAddr key) in
      match value with
      | None =>
          g3 ← set_valuePtr g2 node ARENA_INVALID_ADDRESS;
          g4 ← link_loop g3 log node (Z.to_nat lvl) 0;
          Some (node, g4)
      | Some v =>
          let '(newValueAddr, a3) := Allocate (arena g2) (Z.of_nat (length v)) in
          if newValueAddr =? ARENA_INVALID_ADDRESS
          then Some (ARENA_INVALID_ADDRESS, set_arena g2 a3)
          else
            g3 ← set_valuePtr (set_arena g2 (copy_to_view a3 newValueAddr v))
                   node newValueAddr;
            g4 ← link_loop g3 log node (Z.to_nat lvl) 0;
            Some (node, g4)
      end
  | (_, _, a2) => Some (ARENA_INVALID_ADDRESS, set_arena g1 a2)
  end.

Definition insertNext (g : SkipList) (log : list Z) (key : list byte) (value : slice)
  : option (Z * SkipList) :=
  p0 ← log !! 0%nat;
  next ← next_at g 0 p0;
  found ← (if next =? ARENA_INVALID_ADDRESS then Some false
           else k ← nodeKey g next; Some (compare key (slice_bytes k) =? 0));
  if (found : bool) then insertNext_update g next value
  else insertNext_create g log key value.

Definition Insert (g : SkipList) (key : list byte) (value : slice)
  : option (bool * SkipList) :=
  '(_, log) ← seeklt g key (Some zero_log);
  '(r, g') ← insertNext g log key value;
  Some (negb (r =? ARENA_INVALID_ADDRESS), g').

(** *** Iterator *)

Record SkipListIterator := MkIter {
  skl : SkipList;
  current : Z
}.

Definition set_current (it : SkipListIterator) (c : Z) : SkipListIterator :=
  MkIter (skl it) c.

Definition Iterator (g : SkipList) : SkipListIterator :=
  MkIter (MkSkipList (arena g) (seed g) (head g) (wrap_i64 (refCount g + 1)))
         ARENA_INVALID_ADDRESS.

Definition Valid (it : SkipListIterator) : bool :=
  negb (current it =? ARENA_INVALID_ADDRESS).

Definition Key (it : SkipListIterator) : option slice :=
  if negb (Valid it) then Some None
  else nodeKey (skl it) (current it).

Definition Value (it : SkipListIterator) : option slice :=
  if negb (Valid it) then Some None
  else
    node ← getNode (skl it) (current it);
    if valuePtr node =? ARENA_INVALID_ADDRESS then Some None
    else Some (View (arena (skl it)) (valuePtr node)).

Fixpoint Next_loop (fuel : nat) (it : SkipListIterator) : option SkipListIterator :=
  match fuel with
  | O => None
  | S fuel' =>
      nx ← next_at (skl it) 0 (current it);
      let it' := set_current it nx in
      if negb (Valid it') then Some it'
      else
        v ← Value it';
        if bool_decide (v ≠ None) then Some it' else Next_loop fuel' it'
  end.

Definition Next (it : SkipListIterator) : option (bool * SkipListIterator) :=
  if negb (Valid it) then Some (false, it)
  else it' ← Next_loop (walk_bound (skl it)) it; Some (Valid it', it').

Definition First (it : SkipListIterator) : option (bool * SkipListIterator) :=
  '(_, it') ← Next (set_current it (head (skl it)));
  Some (Valid it', it').

Definition seekle (it : SkipListIterator) (key : list byte) : option SkipListIterator :=
  '(prevNodePtr, _) ← seeklt (skl it) key (Some zero_log);
  if prevNodePtr =? head (skl it) then
    firstNodePtr ← next_at (skl it) 0 (head (skl it));
    if firstNodePtr =? ARENA_INVALID_ADDRESS
    then Some (set_current it ARENA_INVALID_ADDRESS)
    else
      k ← nodeKey (skl it) firstNodePtr;
      if compare key (slice_bytes k) =? 0
      then Some (set_current it firstNodePtr)
      else Some (set_current it ARENA_INVALID_ADDRESS)
  else
    nextNodePtr ← next_at (skl it) 0 prevNodePtr;
    if nextNodePtr =? ARENA_INVALID_ADDRESS
    then Some (set_current it prevNodePtr)
    else
      k ← nodeKey (skl it) nextNodePtr;
      if compare key (slice_bytes k) =? 0
      then Some (set_current it nextNodePtr)
      else Some (set_current it prevNodePtr).

Definition Seek (it : SkipListIterator) (key : list byte)
  : option (bool * SkipListIterator) :=
  it1 ← seekle it key;
  if Valid it1 then
    k ← Key it1;
    if compare (slice_bytes k) key <? 0
    then '(_, it2) ← Next it1; Some (Valid it2, it2)
    else Some (Valid it1, it1)
  else Some (Valid it1, it1).

(** The iterator's own [seeklt]: [g.current = g.skl.seeklt(key, &log)]. *)
Definition SkipListIterator_seeklt (it : SkipListIterator) (key : list byte)
  : option SkipListIterator :=
  '(ptr, _) ← seeklt (skl it) key (Some zero_log);
  Some (set_current it ptr).

Definition Prev (it : SkipListIterator) : option (bool * SkipListIterator) :=
  if negb (Valid it) then Some (false, it)
  else
    currentKeyBytes ← nodeKey (skl it) (current it);
    '(prevNodePtr, _) ← seeklt (skl it) (slice_bytes currentKeyBytes) None;
    if prevNodePtr =? head (skl it)
    then Some (false, set_current it ARENA_INVALID_ADDRESS)
    else Some (true, set_current it prevNodePtr).

(** [Close] on an iterator that is not nil: the list it held, with its
    count decremented.  The iterator itself is emptied and pooled; [Iterator]
    overwrites both fields of whatever the pool hands out. *)
Definition Close (it : SkipListIterator) : SkipList := (DecRef (skl it)).2.

(** The loop [for ok := it.First(); ok; ok = it.Next()] of the package's
    tests, collecting [(Key(), Value())]. *)
Fixpoint collect (fuel : nat) (it : SkipListIterator) : option (list (slice * slice)) :=
  match fuel with
  | O => None
  | S fuel' =>
      if Valid it then
        k ← Key it;
        v ← Value it;
        '(_, it') ← Next it;
        rest ← collect fuel' it';
        Some ((k, v) :: rest)
      else Some []
  end.

Definition forward (g : SkipList) : option (list (slice * slice)) :=
  '(_, it) ← First (Iterator g);
  collect (walk_bound g) it.

End WithCompare.

(** The offsets physically linked at level 0, in link order. *)
Fixpoint chain0 (fuel : nat) (g : SkipList) (ptr : Z) : option (list Z) :=
  match fuel with
  | O => None
  | S fuel' =>
      nx ← next_at g 0 ptr;
      if nx =? ARENA_INVALID_ADDRESS then Some []
      else rest ← chain0 fuel' g nx; Some (nx :: rest)
  end.

(** The offsets physically linked at level [i], in link order. *)
Fixpoint chain_from (fuel : nat) (g : SkipList) (i : nat) (ptr : Z) : option (list Z) :=
  match fuel with
  | O => None
  | S fuel' =>
      nx ← next_at g i ptr;
      if nx =? ARENA_INVALID_ADDRESS then Some []
      else rest ← chain_from fuel' g i nx; Some (nx :: rest)
  end.

Definition linked_at (g : SkipList) (i : nat) : option (list Z) :=
  chain_from (walk_bound g) g i (head g).

Definition linked (g : SkipList) : option (list Z) :=
  chain0 (walk_bound g) g (head g).

End mskip.

(** * Specification vocabulary *)

Module marena_spec.
Import marena.

(** What [reachable] arenas have in common. *)
Definition arena_inv (a : Arena) : Prop :=
  len (buffer a) = size a /\ 0 <= size a <= 2 ^ 31 /\
  ARENA_MIN_ADDRESS <= cursor a /\
  (cursor a <= size a \/ cursor a = ARENA_MIN_ADDRESS).

(** Sum of the 8-byte-aligned sizes of a request list. *)
Definition aligned_total (slots : list Z) : Z :=
  foldr (fun s acc => align s + acc) 0 slots.

(** [g'] comes from [g] by allocations only. *)
Inductive grows : Arena -> Arena -> Prop :=
| grows_refl g : grows g g
| grows_alloc g g' sz : grows g g' -> is_i64 sz -> grows g (Allocate g' sz).2
| grows_multi g g' slots :
    grows g g' -> Forall is_u64 slots -> Z.of_nat (length slots) < 2 ^ 31 ->
    grows g (AllocateMultiple g' slots).2.

(** One [Allocate] per size, in order. *)
Fixpoint Allocate_each (g : Arena) (sizes : list Z) : list Z * Arena :=
  match sizes with
  | [] => ([], g)
  | s :: rest =>
      let '(h, g1) := Allocate g s in
      let '(hs, g2) := Allocate_each g1 rest in
      (h :: hs, g2)
  end.

End marena_spec.

(** Vocabulary for the generator. *)
Module splitmix64_spec.
Import splitmix64.

(** The state after [n] calls of [Splitmix64]. *)
Fixpoint state_after (n : nat) (state : Z) : Z :=
  match n with
  | O => state
  | S n' => state_after n' (Splitmix64 state).2
  end.

End splitmix64_spec.

Module mskip_spec.
Import marena mskip.

(** One physically linked node, as the list is meant to hold it: where its
    record is, its key, its height and its value (nil for a tombstone). *)
Record entry := MkEntry {
  e_off : Z;
  e_key : list byte;
  e_lvl : nat;
  e_val : slice
}.

Definition offs (L : list entry) : list Z := e_off <$> L.

(** The offsets a search meets at level [i]: the nodes higher than [i]. *)
Definition chain_at (i : nat) (L : list entry) : list Z :=
  offs (filter (fun e => (i < e_lvl e)%nat) L).

(** Last offset of [l], or [h] when [l] is empty. *)
Definition last_or (h : Z) (l : list Z) : Z := default h (last l).

(** Each element of [l] but the last has the next one as its level-[i] link. *)
Fixpoint links (g : SkipList) (i : nat) (l : list Z) : Prop :=
  match l with
  | [] => True
  | x :: t =>
      match t with
      | [] => True
      | y :: _ => next_at g i x = Some y /\ links g i t
      end
  end.

(** Handle [h] views [data], and its block lies below the cursor. *)
Definition block_at (a : Arena) (h : Z) (data : list byte) : Prop :=
  View a h = Some data /\ Z.shiftr h 32 + Z.land h (2 ^ 32 - 1) <= cursor a.

Definition value_at (a : Arena) (h : Z) (v : slice) : Prop :=
  match v with
  | None => h = ARENA_INVALID_ADDRESS
  | Some d => h <> ARENA_INVALID_ADDRESS /\ block_at a h d
  end.

Definition node_ok (g : SkipList) (e : entry) : Prop :=
  exists nd, getNode g (e_off e) = Some nd /\
    level nd = Z.of_nat (e_lvl e) /\ length (nexts nd) = e_lvl e /\
    (1 <= e_lvl e <= 24)%nat /\
    ARENA_MIN_ADDRESS <= e_off e < cursor (arena g) /\
    block_at (arena g) (keyPtr nd) (e_key e) /\
    value_at (arena g) (valuePtr nd) (e_val e).

Definition head_ok (g : SkipList) : Prop :=
  ARENA_MIN_ADDRESS <= head g < cursor (arena g) /\
  exists nd, getNode g (head g) = Some nd /\ length (nexts nd) = 24%nat /\
             keyPtr nd = ARENA_INVALID_ADDRESS.

(** Every record lies below the cursor. *)
Definition records_below (g : SkipList) : Prop :=
  forall q nd, getNode g q = Some nd -> q < cursor (arena g).

(** [a'] has the size of [a] and the bytes of [a] below offset [c]. *)
Definition agree_below (c : Z) (a a' : Arena) : Prop :=
  size a' = size a /\
  forall off n, off + Z.of_nat n <= c ->
    read_bytes (cells (buffer a')) off n = read_bytes (cells (buffer a)) off n.

(** The fields of a record other than the contents of its links. *)
Definition shape (nd : mskipNode) : Z * Z * Z * nat :=
  (keyPtr nd, valuePtr nd, level nd, length (nexts nd)).

(** [g'] differs from [g] in the contents of links only. *)
Definition same_frame (g g' : SkipList) : Prop :=
  head g' = head g /\
  cells (buffer (arena g')) = cells (buffer (arena g)) /\
  size (arena g') = size (arena g) /\
  cursor (arena g') = cursor (arena g) /\
  forall q, shape <$> getNode g' q = shape <$> getNode g q.

(** The size a call hands to [Allocate] for a value; a nil value needs none. *)
Definition value_request (value : slice) : list Z :=
  match value with
  | Some v => [Z.of_nat (length v)]
  | None => []
  end.

(** The arena cannot serve the requests [req]. *)
Definition alloc_fails (a : Arena) (req : list Z) : Prop :=
  Exists (fun s => s > ARENA_MAX_ALLOC_SIZE) req \/
  marena_spec.aligned_total req > Remaining a.

(** Some physically linked node has the key [key]. *)
Definition holds_key (g : SkipList) (key : list byte) : Prop :=
  exists chain p, linked g = Some chain /\ p ∈ chain /\ nodeKey g p = Some (Some key).

(** The record at [p] holds no value. *)
Definition tombstone (g : SkipList) (p : Z) : Prop :=
  exists nd, getNode g p = Some nd /\ valuePtr nd = ARENA_INVALID_ADDRESS.

(** The record at [p] holds a value. *)
Definition live_node (g : SkipList) (p : Z) : Prop :=
  exists nd, getNode g p = Some nd /\ valuePtr nd <> ARENA_INVALID_ADDRESS.

(** The fields of a list that neither allocation nor linking touches. *)
Definition fixed_fields (g : SkipList) : Z * Z * Z * Z :=
  (head g, refCount g, size (arena g), len (buffer (arena g))).

(** A Go slice has fewer than [2^63] elements. *)
Definition len_ok (s : list byte) : Prop := Z.of_nat (length s) < 2 ^ 63.

(** What the iterator yields for the entries [L]: the live ones. *)
Definition live (L : list entry) : list (slice * slice) :=
  omap (fun e => match e_val e with
                 | Some v => Some (Some (e_key e), Some v)
                 | None => None
                 end) L.

(** Where [Next] stops when the nodes ahead hold [L]: the first live entry,
    or the invalid offset. *)
Fixpoint first_live (L : list entry) : Z :=
  match L with
  | [] => ARENA_INVALID_ADDRESS
  | e :: rest =>
      match e_val e with
      | Some _ => e_off e
      | None => first_live rest
      end
  end.

Section Order.

Variable compare : list byte -> list byte -> Z.

(** The comparator contract of the interface: a total order. *)
Record total_order : Prop := MkTotalOrder {
  compare_eq : forall a b, compare a b = 0 <-> a = b;
  compare_anti : forall a b, compare a b < 0 <-> compare b a > 0;
  compare_trans : forall a b c, compare a b < 0 -> compare b c < 0 -> compare a c < 0
}.

Definition key_lt (a b : entry) : Prop := compare (e_key a) (e_key b) < 0.

(** The arena of [g] holds the skip list with entries [L]. *)
Definition Rep (g : SkipList) (L : list entry) : Prop :=
  cursor (arena g) <= size (arena g) <= 2 ^ 31 /\
  head_ok g /\
  NoDup (head g :: offs L) /\
  Forall (node_ok g) L /\
  StronglySorted key_lt L /\
  records_below g /\
  forall i, (i < 24)%nat -> links g i (head g :: chain_at i L ++ [0]).

(** What a successful [Insert] of [(key, value)] does to the entries: the
    entry of [key] takes the value, or a new entry is put in key order. *)
Inductive upsert (key : list byte) (value : slice) : list entry -> list entry -> Prop :=
| upsert_found A e B :
    e_key e = key ->
    upsert key value (A ++ e :: B) (A ++ MkEntry (e_off e) (e_key e) (e_lvl e) value :: B)
| upsert_new A e B :
    Forall (fun x => compare key (e_key x) > 0) A ->
    Forall (fun x => compare key (e_key x) < 0) B ->
    e_key e = key -> e_val e = value ->
    upsert key value (A ++ B) (A ++ e :: B).

(** Skip lists built by [NewSkipList] on an arena of the package and grown
    by [Insert], successful or not. *)
Inductive reachable : SkipList -> Prop :=
| reach_new a sd g :
    marena.reachable a -> NewSkipList a sd = Some g -> reachable g
| reach_insert g key value r g' :
    reachable g -> len_ok key -> len_ok (slice_bytes value) ->
    Insert compare g key value = Some (r, g') -> reachable g'.

End Order.

(** [bytes.Compare], the comparator of the package's tests. *)
Fixpoint bytes_compare (a b : list byte) : Z :=
  match a, b with
  | [], [] => 0
  | [], _ :: _ => -1
  | _ :: _, [] => 1
  | x :: a', y :: b' =>
      match N.compare (Byte.to_N x) (Byte.to_N y) with
      | Lt => -1
      | Gt => 1
      | Eq => bytes_compare a' b'
      end
  end.

End mskip_spec.

(** Small lists over a one-page arena, seed 42, [bytes.Compare]. *)
Module examples.
Import marena mskip mskip_spec.

Definition demo_arena : Arena :=
  default (MkArena (MkBuffer 0 ∅ ∅) 0 0) (NewArena 65536).

Definition demo_empty : SkipList :=
  default (MkSkipList demo_arena 0 0 0) (NewSkipList demo_arena 42).

Definition demo_insert (g : SkipList) (key : list byte) (value : slice) : SkipList :=
  default g (snd <$> Insert bytes_compare g key value).

Definition key_a : list byte := [x61].
Definition key_b : list byte := [x62].
Definition key_c : list byte := [x63].
Definition val_1 : list byte := [x31].
Definition val_2 : list byte := [x32].
Definition val_3 : list byte := [x33].

(** More bytes than the arena has. *)
Definition val_huge : list byte := replicate (Z.to_nat 70000) x00.

(** [{b: 1}] *)
Definition demo_b : SkipList := demo_insert demo_empty key_b (Some val_1).

(** [{b: 1, c: 2}] *)
Definition demo_bc : SkipList := demo_insert demo_b key_c (Some val_2).

(** [{b: tombstone, c: 2}] *)
Definition demo_tomb : SkipList := demo_insert demo_bc key_b None.

End examples.

(** * Properties *)

(** ** Integer and handle arithmetic *)

Lemma wrap_i64_id z : is_i64 z -> wrap_i64 z = z.
Proof.
  unfold is_i64, wrap_i64. intros H.
  rewrite Z.mod_small by lia. lia.
Qed.

Lemma wrap_u64_id z : is_u64 z -> wrap_u64 z = z.
Proof. unfold is_u64, wrap_u64. intros H. apply Z.mod_small. lia. Qed.

Lemma wrap_u32_id z : 0 <= z < 2 ^ 32 -> wrap_u32 z = z.
Proof. unfold wrap_u32. intros H. apply Z.mod_small. lia. Qed.

Lemma wrap_u64_neg z : - 2 ^ 63 <= z < 0 -> wrap_u64 z = z + 2 ^ 64.
Proof.
  intros H. unfold wrap_u64.
  symmetry. apply (Z.mod_unique_pos _ _ (-1)); lia.
Qed.

Module marena_facts.
Import marena.

Lemma align_eq n : 0 <= n < 2 ^ 62 -> align n = 8 * ((n + 7) / 8).
Proof.
  intros H. unfold align.
  rewrite (wrap_i64_id (n + 7)) by (unfold is_i64; lia).
  rewrite Z.shiftr_div_pow2, Z.shiftl_mul_pow2 by lia.
  change (2 ^ 3) with 8.
  pose proof (Z.div_mod (n + 7) 8 ltac:(lia)).
  pose proof (Z.mod_pos_bound (n + 7) 8 ltac:(lia)).
  rewrite wrap_i64_id by (unfold is_i64; lia). lia.
Qed.

Lemma align_bounds n : 0 <= n < 2 ^ 62 -> n <= align n <= n + 7.
Proof.
  intros H. rewrite align_eq by done.
  pose proof (Z.div_mod (n + 7) 8 ltac:(lia)).
  pose proof (Z.mod_pos_bound (n + 7) 8 ltac:(lia)). lia.
Qed.

Lemma align_0 : align 0 = 0.
Proof. reflexivity. Qed.

Lemma align_pos n : 0 < n < 2 ^ 62 -> 0 < align n.
Proof. intros H. pose proof (align_bounds n). lia. Qed.

Lemma pack_eq off sz :
  0 <= off < 2 ^ 32 -> 0 <= sz < 2 ^ 32 -> pack off sz = off * 2 ^ 32 + sz.
Proof.
  intros Ho Hs. unfold pack.
  rewrite (wrap_u64_id off), (wrap_u64_id sz) by (unfold is_u64; lia).
  rewrite Z.shiftl_mul_pow2 by lia.
  rewrite wrap_u64_id by (unfold is_u64; lia).
  rewrite <- Z.lxor_lor, <- Z.add_nocarry_lxor; try done.
  all: rewrite <- Z.shiftl_mul_pow2 by lia;
    apply Z.bits_inj'; intros k Hk;
    rewrite Z.land_spec, Z.bits_0;
    destruct (decide (k < 32)) as [Hlt|Hge];
    [ rewrite Z.shiftl_spec_low by lia; done
    | rewrite (Z.bits_above_log2 sz k), andb_false_r; [done | lia |];
      destruct (decide (sz = 0)) as [->|]; [simpl; lia|];
      apply Z.log2_lt_pow2; [lia|];
      apply Z.lt_le_trans with (2 ^ 32); [lia | apply Z.pow_le_mono_r; lia] ].
Qed.

Lemma shiftr_pack off sz :
  0 <= off < 2 ^ 32 -> 0 <= sz < 2 ^ 32 -> Z.shiftr (pack off sz) 32 = off.
Proof.
  intros Ho Hs. rewrite pack_eq by done.
  rewrite Z.shiftr_div_pow2 by lia.
  rewrite Z.div_add_l by lia. rewrite Z.div_small by lia. lia.
Qed.

Lemma land_pack off sz :
  0 <= off < 2 ^ 32 -> 0 <= sz < 2 ^ 32 -> Z.land (pack off sz) (2 ^ 32 - 1) = sz.
Proof.
  intros Ho Hs. rewrite pack_eq by done.
  change (2 ^ 32 - 1) with (Z.ones 32).
  rewrite Z.land_ones by lia.
  rewrite Z.add_comm, Z.mod_add by lia. apply Z.mod_small; lia.
Qed.

Lemma Offset_pack off sz :
  0 <= off < 2 ^ 32 -> 0 <= sz < 2 ^ 32 -> Offset (pack off sz) = off.
Proof.
  intros Ho Hs. unfold Offset. rewrite shiftr_pack by done.
  by apply wrap_u32_id.
Qed.

Lemma Size_pack off sz :
  0 <= off < 2 ^ 32 -> 0 <= sz < 2 ^ 32 -> Size (pack off sz) = sz.
Proof.
  intros Ho Hs. unfold Size. rewrite land_pack by done.
  by apply wrap_u32_id.
Qed.

Lemma pack_nonzero off sz :
  0 < off < 2 ^ 32 -> 0 <= sz < 2 ^ 32 -> pack off sz <> 0.
Proof. intros Ho Hs. rewrite pack_eq by lia. lia. Qed.

End marena_facts.

(** ** The arena *)

Module marena_proofs.
Import marena marena_spec marena_facts.

Ltac case_gtb :=
  match goal with
  | |- context [?a >? ?b] => destruct (Z.gtb_spec a b)
  end.

Lemma NewArena_spec c :
  0 <= c < 2 ^ 62 ->
  exists a, NewArena c = Some a /\
    size a = Z.min (ARENA_PAGESIZE * ((c + (ARENA_PAGESIZE - 1)) / ARENA_PAGESIZE)) (2 ^ 31) /\
    len (buffer a) = size a /\ cursor a = ARENA_MIN_ADDRESS.
Proof.
  intros Hc. unfold NewArena, ARENA_PAGESIZE, ARENA_MAX_ALLOC_SIZE, make_buffer.
  change (2 ^ 16 - 1) with 65535. change (2 ^ 16) with 65536.
  rewrite (wrap_i64_id (c + 65535)) by (unfold is_i64; lia).
  rewrite Z.quot_div_nonneg by lia.
  pose proof (Z.div_mod (c + 65535) 65536 ltac:(lia)).
  pose proof (Z.mod_pos_bound (c + 65535) 65536 ltac:(lia)).
  rewrite wrap_i64_id by (unfold is_i64; lia).
  case_gtb.
  - eexists; split; [reflexivity|]. simpl. lia.
  - destruct (Z.ltb_spec ((c + 65535) / 65536 * 65536) 0); [lia|].
    eexists; split; [reflexivity|]. simpl. lia.
Qed.

Lemma NewArena_inv c a : is_i64 c -> NewArena c = Some a -> arena_inv a.
Proof.
  unfold NewArena, make_buffer, arena_inv, ARENA_MAX_ALLOC_SIZE, ARENA_MIN_ADDRESS.
  intros Hc. case_gtb.
  - simpl. intros [= <-]. simpl. lia.
  - destruct (Z.ltb_spec
      (wrap_i64 (wrap_i64 (c + (ARENA_PAGESIZE - 1)) ÷ ARENA_PAGESIZE * ARENA_PAGESIZE)) 0);
      [done|].
    intros [= <-]. simpl. lia.
Qed.

Lemma Allocate_cases_bounds g sz :
  0 <= size g <= 2 ^ 31 -> 0 <= cursor g <= 2 ^ 31 -> is_i64 sz ->
  ((wrap_u64 sz > ARENA_MAX_ALLOC_SIZE \/ cursor g + align sz > size g) /\
   Allocate g sz = (ARENA_INVALID_ADDRESS, g))
  \/ (0 <= sz <= ARENA_MAX_ALLOC_SIZE /\ cursor g + align sz <= size g /\
      Allocate g sz = (pack (cursor g) sz, set_cursor g (cursor g + align sz))).
Proof.
  intros Hsz Hc Hi. unfold Allocate, ARENA_MAX_ALLOC_SIZE in *.
  unfold is_i64 in *.
  case_gtb; [left; split; [left; lia | done]|].
  assert (0 <= sz <= 2 ^ 31 - 1) as Hs.
  { destruct (decide (sz < 0)); [|unfold wrap_u64 in *; rewrite Z.mod_small in *; lia].
    rewrite wrap_u64_neg in * by lia. lia. }
  rewrite (wrap_i64_id sz) by (unfold is_i64; lia).
  pose proof (align_bounds sz ltac:(lia)).
  rewrite (wrap_i64_id (cursor g + align sz)) by (unfold is_i64; lia).
  case_gtb; [left; split; [right; lia | done]|].
  right. split; [lia|]. split; [lia|].
  rewrite wrap_i64_id by (unfold is_i64; lia).
  by replace (cursor g + align sz - align sz) with (cursor g) by lia.
Qed.

Lemma arena_inv_bounds g :
  arena_inv g -> 0 <= size g <= 2 ^ 31 /\ 0 <= cursor g <= 2 ^ 31.
Proof. intros (Hlen & Hsz & Hc & Hcs). unfold ARENA_MIN_ADDRESS in *. lia. Qed.

Lemma Allocate_cases g sz :
  arena_inv g -> is_i64 sz ->
  ((wrap_u64 sz > ARENA_MAX_ALLOC_SIZE \/ cursor g + align sz > size g) /\
   Allocate g sz = (ARENA_INVALID_ADDRESS, g))
  \/ (0 <= sz <= ARENA_MAX_ALLOC_SIZE /\ cursor g + align sz <= size g /\
      Allocate g sz = (pack (cursor g) sz, set_cursor g (cursor g + align sz))).
Proof.
  intros [Hsz Hc]%arena_inv_bounds. by apply Allocate_cases_bounds.
Qed.

Lemma Allocate_inv g sz : arena_inv g -> is_i64 sz -> arena_inv (Allocate g sz).2.
Proof.
  intros Hg Hi. destruct (Allocate_cases g sz Hg Hi) as [[_ ->]|(Hs & Hfit & ->)]; [done|].
  destruct Hg as (Hlen & Hsz & Hc & Hcs).
  unfold arena_inv, ARENA_MAX_ALLOC_SIZE, ARENA_MIN_ADDRESS in *. simpl.
  pose proof (align_bounds sz ltac:(lia)). lia.
Qed.

Lemma sum_sizes_None slots t :
  sum_sizes slots t = None <-> Exists (fun s => s > ARENA_MAX_ALLOC_SIZE) slots.
Proof.
  revert t. induction slots as [|s rest IH]; intros t; simpl.
  - split; [done | by intros ?%Exists_nil].
  - rewrite Exists_cons. case_gtb.
    + split; [left; lia | done].
    + rewrite IH. split; [by right | intros [?|?]; [lia | done]].
Qed.

Lemma aligned_total_cons s rest :
  aligned_total (s :: rest) = align s + aligned_total rest.
Proof. reflexivity. Qed.

Lemma align_max s : 0 <= s <= ARENA_MAX_ALLOC_SIZE -> s <= align s <= 2 ^ 31.
Proof.
  unfold ARENA_MAX_ALLOC_SIZE. intros Hs.
  pose proof (align_bounds s ltac:(lia)).
  rewrite align_eq in * by lia.
  pose proof (Z.div_mod (s + 7) 8 ltac:(lia)).
  pose proof (Z.mod_pos_bound (s + 7) 8 ltac:(lia)). lia.
Qed.

Lemma aligned_total_bounds slots :
  Forall (fun s => 0 <= s <= ARENA_MAX_ALLOC_SIZE) slots ->
  0 <= aligned_total slots <= 2 ^ 31 * Z.of_nat (length slots).
Proof.
  induction 1 as [|s rest Hs _ IH]; [simpl; lia|].
  rewrite aligned_total_cons, length_cons, Nat2Z.inj_succ.
  pose proof (align_max s Hs). lia.
Qed.

Lemma sum_sizes_Some slots t r :
  Forall is_u64 slots -> 0 <= t ->
  t + 2 ^ 31 * Z.of_nat (length slots) < 2 ^ 62 ->
  sum_sizes slots t = Some r ->
  Forall (fun s => 0 <= s <= ARENA_MAX_ALLOC_SIZE) slots /\ r = t + aligned_total slots.
Proof.
  intros Hu. revert t. induction Hu as [|s rest Hs _ IH]; intros t Ht Hb; cbn [sum_sizes].
  - intros [= <-]. split; [done | simpl; lia].
  - rewrite length_cons, Nat2Z.inj_succ in Hb. case_gtb; [done|].
    assert (0 <= s <= ARENA_MAX_ALLOC_SIZE) as Hs' by (unfold is_u64 in Hs; lia).
    pose proof (align_max s Hs'). unfold ARENA_MAX_ALLOC_SIZE in *.
    rewrite (wrap_i64_id s) by (unfold is_i64; lia).
    rewrite wrap_i64_id by (unfold is_i64; lia).
    intros Hr. apply IH in Hr as [Hall ->]; [|lia..].
    rewrite aligned_total_cons.
    split; [constructor; [lia | done] | lia].
Qed.

Lemma length_assign slots start : length (assign slots start) = length slots.
Proof. revert start. induction slots; intros; simpl; [done | by f_equal]. Qed.

Lemma assign_lookup slots start i s :
  Forall (fun s => 0 <= s <= ARENA_MAX_ALLOC_SIZE) slots ->
  0 <= start -> start + aligned_total slots <= 2 ^ 31 ->
  slots !! i = Some s ->
  assign slots start !! i = Some (pack (start + aligned_total (take i slots)) s).
Proof.
  intros Hall. revert start i.
  induction Hall as [|s0 rest Hs Hrest IH]; intros start i H0 Hb Hi; [done|].
  rewrite aligned_total_cons in Hb.
  pose proof (align_max s0 Hs).
  pose proof (aligned_total_bounds rest Hrest).
  unfold ARENA_MAX_ALLOC_SIZE in *.
  destruct i as [|i]; simpl in Hi |- *.
  - injection Hi as ->. rewrite wrap_i64_id by (unfold is_i64; lia).
    do 2 f_equal. lia.
  - rewrite (wrap_i64_id s0) by (unfold is_i64; lia).
    rewrite wrap_i64_id by (unfold is_i64; lia).
    rewrite (IH _ i) by (done || lia). do 2 f_equal.
    change (foldr _ 0 (take i rest)) with (aligned_total (take i rest)). lia.
Qed.

Lemma AllocateMultiple_cases_bounds g slots :
  0 <= size g <= 2 ^ 31 -> 0 <= cursor g <= 2 ^ 31 ->
  Forall is_u64 slots -> Z.of_nat (length slots) < 2 ^ 31 ->
  ((Exists (fun s => s > ARENA_MAX_ALLOC_SIZE) slots \/
    cursor g + aligned_total slots > size g) /\
   AllocateMultiple g slots = (false, slots, g))
  \/ (Forall (fun s => 0 <= s <= ARENA_MAX_ALLOC_SIZE) slots /\
      cursor g + aligned_total slots <= size g /\
      AllocateMultiple g slots =
        (true, assign slots (cursor g), set_cursor g (cursor g + aligned_total slots))).
Proof.
  intros Hsz Hc Hu Hn. unfold AllocateMultiple.
  destruct (sum_sizes slots 0) as [total|] eqn:Hsum.
  - apply sum_sizes_Some in Hsum as [Hall ->]; [|done|lia..].
    pose proof (aligned_total_bounds slots Hall). rewrite Z.add_0_l.
    rewrite (wrap_i64_id (cursor g + _)) by (unfold is_i64; lia).
    case_gtb; [left; split; [right; lia | done]|].
    right. split; [done|]. split; [lia|].
    rewrite wrap_i64_id by (unfold is_i64; lia).
    by replace (cursor g + aligned_total slots - aligned_total slots)
      with (cursor g) by lia.
  - left. split; [left; by apply (sum_sizes_None slots 0) | done].
Qed.

Lemma AllocateMultiple_cases g slots :
  arena_inv g -> Forall is_u64 slots -> Z.of_nat (length slots) < 2 ^ 31 ->
  ((Exists (fun s => s > ARENA_MAX_ALLOC_SIZE) slots \/
    cursor g + aligned_total slots > size g) /\
   AllocateMultiple g slots = (false, slots, g))
  \/ (Forall (fun s => 0 <= s <= ARENA_MAX_ALLOC_SIZE) slots /\
      cursor g + aligned_total slots <= size g /\
      AllocateMultiple g slots =
        (true, assign slots (cursor g), set_cursor g (cursor g + aligned_total slots))).
Proof.
  intros [Hsz Hc]%arena_inv_bounds. by apply AllocateMultiple_cases_bounds.
Qed.

Lemma AllocateMultiple_inv g slots :
  arena_inv g -> Forall is_u64 slots -> Z.of_nat (length slots) < 2 ^ 31 ->
  arena_inv (AllocateMultiple g slots).2.
Proof.
  intros Hg Hu Hn.
  destruct (AllocateMultiple_cases g slots Hg Hu Hn) as [[_ ->]|(Hall & Hfit & ->)]; [done|].
  pose proof (aligned_total_bounds slots Hall).
  destruct Hg as (Hlen & Hsz & Hc & Hcs).
  unfold arena_inv, ARENA_MIN_ADDRESS in *. simpl. lia.
Qed.

Lemma reachable_inv g : reachable g -> arena_inv g.
Proof.
  induction 1 as [c g Hc Hg|g sz _ IH Hs|g slots _ IH Hu Hn|g _ IH].
  - by eapply NewArena_inv.
  - by apply Allocate_inv.
  - by apply AllocateMultiple_inv.
  - destruct IH as (Hlen & Hsz & Hc & Hcs).
    unfold arena_inv, Reset, ARENA_MIN_ADDRESS in *. simpl. lia.
Qed.

Lemma Remaining_eq g : arena_inv g -> Remaining g = size g - cursor g.
Proof.
  intros (Hlen & Hsz & Hc & Hcs). unfold Remaining, ARENA_MIN_ADDRESS in *.
  apply wrap_i64_id. unfold is_i64. lia.
Qed.

Lemma aligned_total_app l1 l2 :
  aligned_total (l1 ++ l2) = aligned_total l1 + aligned_total l2.
Proof.
  induction l1 as [|s l1 IH]; [done|].
  rewrite <- app_comm_cons, !aligned_total_cons, IH. lia.
Qed.

Lemma aligned_total_take_S slots i s :
  slots !! i = Some s ->
  aligned_total (take (S i) slots) = aligned_total (take i slots) + align s.
Proof.
  intros Hi. rewrite (take_S_r _ _ _ Hi), aligned_total_app.
  rewrite aligned_total_cons. simpl. lia.
Qed.

Lemma aligned_total_take_le slots i :
  Forall (fun s => 0 <= s <= ARENA_MAX_ALLOC_SIZE) slots ->
  0 <= aligned_total (take i slots) <= aligned_total slots.
Proof.
  intros Hall. rewrite <- (take_drop i slots) at 3.
  rewrite aligned_total_app.
  pose proof (aligned_total_bounds (take i slots) (Forall_take _ _ _ Hall)).
  pose proof (aligned_total_bounds (drop i slots) (Forall_drop _ _ _ Hall)).
  lia.
Qed.

End marena_proofs.

Module marena_claims.
Import marena marena_spec marena_facts marena_proofs.

(** C5.  A handle returned by a successful [Allocate] of a size [s] with
    [0 < s <= 2^31 - 1], on an arena reached through any sequence of the
    package's operations, decodes to size [s] and to an offset that is at
    least 128 and leaves the block inside the buffer. *)
Theorem Allocate_handle_decoding g s h g' :
  reachable g -> 0 < s <= ARENA_MAX_ALLOC_SIZE ->
  Allocate g s = (h, g') -> h <> ARENA_INVALID_ADDRESS ->
  Size h = s /\ ARENA_MIN_ADDRESS <= Offset h /\ Offset h + Size h <= len (buffer g').
Proof.
  intros Hr Hs Ha Hh. pose proof (reachable_inv g Hr) as Hg.
  unfold ARENA_MAX_ALLOC_SIZE in Hs.
  destruct (Allocate_cases g s Hg) as [[_ Hf]|(_ & Hfit & Hok)];
    [unfold is_i64; lia | congruence |].
  rewrite Hok in Ha. injection Ha as <- <-.
  destruct Hg as (Hlen & Hsz & Hc & Hcs). unfold ARENA_MIN_ADDRESS in *.
  pose proof (align_bounds s ltac:(lia)).
  rewrite Size_pack, Offset_pack by lia. simpl. lia.
Qed.

(** C9.  Single-threaded [Allocate] returns the invalid handle exactly when
    the size, read as an unsigned 64-bit integer, exceeds [2^31 - 1] (every
    negative size does) or the aligned size exceeds [Remaining]; a request
    of 0 bytes that fits returns a valid handle of size 0 at the cursor and
    moves neither the cursor nor [Remaining]. *)
Theorem Allocate_invalid_iff g sz :
  reachable g -> is_i64 sz ->
  ((Allocate g sz).1 = ARENA_INVALID_ADDRESS <->
     wrap_u64 sz > ARENA_MAX_ALLOC_SIZE \/ align sz > Remaining g) /\
  (sz < 0 -> (Allocate g sz).1 = ARENA_INVALID_ADDRESS) /\
  (0 <= Remaining g ->
     (Allocate g 0).1 <> ARENA_INVALID_ADDRESS /\
     Size (Allocate g 0).1 = 0 /\ Offset (Allocate g 0).1 = cursor g /\
     cursor (Allocate g 0).2 = cursor g /\
     Remaining (Allocate g 0).2 = Remaining g).
Proof.
  intros Hr Hi. pose proof (reachable_inv g Hr) as Hg.
  rewrite (Remaining_eq g Hg).
  pose proof Hg as (Hlen & Hsz & Hc & Hcs). unfold ARENA_MIN_ADDRESS in *.
  split; [|split].
  - destruct (Allocate_cases g sz Hg Hi) as [[Hwhy ->]|(Hs & Hfit & ->)]; simpl.
    + split; [intros _; lia | done].
    + unfold ARENA_MAX_ALLOC_SIZE in *.
      rewrite (wrap_u64_id sz) by (unfold is_u64; lia).
      split; [|lia]. intros Hz. exfalso. revert Hz.
      pose proof (align_bounds sz ltac:(lia)).
      apply pack_nonzero; lia.
  - intros Hneg. unfold is_i64 in Hi.
    destruct (Allocate_cases g sz Hg Hi) as [[_ ->]|(Hs & _)]; [done | lia].
  - intros Hrem.
    destruct (Allocate_cases g 0 Hg) as [[Hwhy _]|(_ & _ & ->)]; [unfold is_i64; lia | |].
    + exfalso. rewrite align_0 in Hwhy. unfold ARENA_MAX_ALLOC_SIZE in Hwhy.
      rewrite (wrap_u64_id 0) in Hwhy by (unfold is_u64; lia). lia.
    + simpl. rewrite Size_pack, Offset_pack by lia.
      split; [apply pack_nonzero; lia|].
      rewrite align_0. unfold Remaining. simpl.
      rewrite Z.add_0_r. repeat split; try done.
      apply wrap_i64_id. unfold is_i64. lia.
Qed.

(** C6, as the code has it.  [AllocateMultiple] fails exactly when some size
    exceeds [2^31 - 1] or the sum of the aligned sizes exceeds [Remaining],
    and then leaves the slots as they were.  When it succeeds, slot [i]
    holds a handle of the requested size whose offset is the cursor plus the
    aligned sizes of the slots before it: consecutive offsets differ by the
    aligned size of the earlier slot, so they never decrease, and increase
    strictly after a slot of positive size. *)
Theorem AllocateMultiple_slots g slots :
  reachable g -> Forall is_u64 slots -> Z.of_nat (length slots) < 2 ^ 31 ->
  ((AllocateMultiple g slots).1.1 = false <->
     Exists (fun s => s > ARENA_MAX_ALLOC_SIZE) slots \/
     aligned_total slots > Remaining g) /\
  ((AllocateMultiple g slots).1.1 = false -> (AllocateMultiple g slots).1.2 = slots) /\
  ((AllocateMultiple g slots).1.1 = true ->
     length (AllocateMultiple g slots).1.2 = length slots /\
     (forall i s, slots !! i = Some s ->
        exists h, (AllocateMultiple g slots).1.2 !! i = Some h /\ Size h = s /\
                  Offset h = cursor g + aligned_total (take i slots)) /\
     (forall i s h h', slots !! i = Some s ->
        (AllocateMultiple g slots).1.2 !! i = Some h ->
        (AllocateMultiple g slots).1.2 !! S i = Some h' ->
        Offset h' = Offset h + align s /\ Offset h <= Offset h' /\
        (0 < s -> Offset h < Offset h'))).
Proof.
  intros Hr Hu Hn. pose proof (reachable_inv g Hr) as Hg.
  rewrite (Remaining_eq g Hg).
  pose proof Hg as (Hlen & Hsz & Hc & Hcs). unfold ARENA_MIN_ADDRESS in *.
  destruct (AllocateMultiple_cases g slots Hg Hu Hn) as [[Hwhy ->]|(Hall & Hfit & ->)];
    simpl.
  - split; [split; [intros _; destruct Hwhy; [by left | right; lia] | done]|].
    split; done.
  - assert (forall i s, slots !! i = Some s ->
        exists h, assign slots (cursor g) !! i = Some h /\ Size h = s /\
                  Offset h = cursor g + aligned_total (take i slots)) as Hslot.
    { intros i s Hi. eexists. split; [apply assign_lookup; try done; lia|].
      pose proof (aligned_total_take_le slots i Hall).
      assert (0 <= s <= ARENA_MAX_ALLOC_SIZE) as Hs.
      { eapply (Forall_lookup_1 _ _ _ _ Hall Hi). }
      unfold ARENA_MAX_ALLOC_SIZE in Hs.
      rewrite Size_pack, Offset_pack by lia. done. }
    split; [|split; [done|]].
    + split; [done|]. intros [Hex|Hover]; [|lia].
      exfalso. apply Exists_exists in Hex as (s & Hin & Hs).
      rewrite Forall_forall in Hall. apply Hall in Hin. lia.
    + intros _. split; [apply length_assign|]. split; [done|].
      intros i s h h' Hi Hh Hh'.
      destruct (Hslot i s Hi) as (h0 & Hh0 & _ & Ho).
      rewrite Hh in Hh0. injection Hh0 as <-.
      assert (is_Some (slots !! S i)) as [s' Hi'].
      { apply lookup_lt_is_Some. rewrite <- (length_assign slots (cursor g)).
        apply lookup_lt_is_Some. eauto. }
      destruct (Hslot (S i) s' Hi') as (h1 & Hh1 & _ & Ho').
      rewrite Hh' in Hh1. injection Hh1 as <-.
      rewrite Ho, Ho', (aligned_total_take_S _ _ _ Hi).
      assert (0 <= s <= ARENA_MAX_ALLOC_SIZE) as Hs.
      { eapply (Forall_lookup_1 _ _ _ _ Hall Hi). }
      pose proof (align_max s Hs). split; [lia|]. split; [lia|].
      intros Hpos. unfold ARENA_MAX_ALLOC_SIZE in Hs.
      pose proof (align_pos s ltac:(lia)). lia.
Qed.

(** C6, refuted as stated: after a slot of size 0 the next offset is equal,
    not greater. *)
Lemma AllocateMultiple_zero_size_same_offset :
  exists g h0 h1 g',
    NewArena 65536 = Some g /\
    AllocateMultiple g [0; 8] = (true, [h0; h1], g') /\
    ~ (Offset h0 < Offset h1).
Proof.
  do 4 eexists. split; [reflexivity|]. split; [vm_compute; reflexivity|].
  vm_compute. discriminate.
Qed.

(** C8.  A request of [2^31 - 1] bytes, the largest size the cap is meant
    to allow, yields a buffer of [2^31] bytes, one more than
    [ARENA_MAX_ALLOC_SIZE]. *)
Theorem NewArena_cap_exceeds_max :
  exists a, NewArena ARENA_MAX_ALLOC_SIZE = Some a /\
            len (buffer a) = 2 ^ 31 /\ len (buffer a) > ARENA_MAX_ALLOC_SIZE /\
            cursor a = ARENA_MIN_ADDRESS.
Proof. eexists. split; [vm_compute; reflexivity|]. simpl. done. Qed.

End marena_claims.

(** ** Bytes and views *)

Module memory_facts.
Import marena marena_spec marena_facts mskip.

Lemma length_read_bytes m off n : length (read_bytes m off n) = n.
Proof. revert off. induction n as [|n IH]; intros off; simpl; [done | by rewrite IH]. Qed.

Lemma read_bytes_insert_out (m : gmap Z byte) k b off n :
  k < off \/ off + Z.of_nat n <= k ->
  read_bytes (<[k := b]> m) off n = read_bytes m off n.
Proof.
  revert off. induction n as [|n IH]; intros off Hk; simpl; [done|].
  rewrite lookup_insert_ne by lia. f_equal. apply IH. lia.
Qed.

Lemma read_write_same m off d :
  read_bytes (write_bytes m off d) off (length d) = d.
Proof.
  revert off. induction d as [|b d IH]; intros off; simpl; [done|].
  rewrite lookup_insert_eq. simpl. f_equal.
  rewrite read_bytes_insert_out by lia. apply IH.
Qed.

Lemma read_write_disjoint m off d off' n :
  off' + Z.of_nat n <= off \/ off + Z.of_nat (length d) <= off' ->
  read_bytes (write_bytes m off d) off' n = read_bytes m off' n.
Proof.
  revert off. induction d as [|b d IH]; intros off Hd; simpl; [done|].
  simpl in Hd. rewrite read_bytes_insert_out by lia. apply IH. lia.
Qed.

Lemma View_Some a h data :
  View a h = Some data ->
  ARENA_MIN_ADDRESS <= Z.shiftr h 32 /\
  data = read_bytes (cells (buffer a)) (Z.shiftr h 32) (Z.to_nat (Z.land h (2 ^ 32 - 1))).
Proof.
  unfold View. destruct (Z.ltb_spec (Z.shiftr h 32) ARENA_MIN_ADDRESS); [done|].
  rewrite orb_false_l. destruct (_ >? _); [done|]. by intros [= <-].
Qed.

(** A view only depends on the size of the arena and on the bytes it spans. *)
Lemma View_frame a a' h data :
  size a' = size a ->
  (forall n, read_bytes (cells (buffer a')) (Z.shiftr h 32) n
             = read_bytes (cells (buffer a)) (Z.shiftr h 32) n) ->
  View a h = Some data -> View a' h = Some data.
Proof.
  intros Hsz Hrd. unfold View. rewrite Hsz, Hrd. done.
Qed.

Lemma View_pack a off sz :
  ARENA_MIN_ADDRESS <= off -> 0 <= sz -> off + sz <= size a -> size a <= 2 ^ 31 ->
  View a (pack off sz) = Some (read_bytes (cells (buffer a)) off (Z.to_nat sz)).
Proof.
  unfold ARENA_MIN_ADDRESS. intros Ho Hs Hfit Hsz. unfold View, ARENA_MIN_ADDRESS.
  rewrite shiftr_pack, land_pack by lia.
  destruct (Z.ltb_spec off 128); [lia|]. rewrite orb_false_l.
  rewrite !wrap_u64_id by (unfold is_u64; lia).
  destruct (Z.gtb_spec (off + sz) (size a)); [lia | done].
Qed.

(** Copying [d] into the view of a block of [length d] bytes at [off]. *)
Lemma copy_to_view_pack a off d :
  ARENA_MIN_ADDRESS <= off -> off + Z.of_nat (length d) <= size a -> size a <= 2 ^ 31 ->
  copy_to_view a (pack off (Z.of_nat (length d))) d
  = with_cells a (write_bytes (cells (buffer a)) off d).
Proof.
  intros Ho Hfit Hsz. unfold copy_to_view.
  rewrite View_pack by (done || lia).
  unfold ARENA_MIN_ADDRESS in Ho. rewrite shiftr_pack by lia.
  rewrite length_read_bytes, Nat2Z.id, firstn_all. done.
Qed.

Lemma View_written a off d :
  ARENA_MIN_ADDRESS <= off -> off + Z.of_nat (length d) <= size a -> size a <= 2 ^ 31 ->
  View (with_cells a (write_bytes (cells (buffer a)) off d)) (pack off (Z.of_nat (length d)))
  = Some d.
Proof.
  intros Ho Hfit Hsz. rewrite View_pack by (done || simpl; lia).
  simpl. by rewrite Nat2Z.id, read_write_same.
Qed.

End memory_facts.

(** ** Links, chains and the search *)

Module chain_facts.
Import marena mskip mskip_spec.

Lemma last_or_nil h : last_or h [] = h.
Proof. done. Qed.

Lemma last_or_snoc h l x : last_or h (l ++ [x]) = x.
Proof. unfold last_or. by rewrite last_snoc. Qed.

Lemma last_or_app h l1 l2 : last_or h (l1 ++ l2) = last_or (last_or h l1) l2.
Proof. unfold last_or. rewrite last_app. by destruct (last l2). Qed.

Lemma last_or_split h l : exists P, h :: l = P ++ [last_or h l].
Proof.
  apply last_Some. unfold last_or. rewrite last_cons. by destruct (last l).
Qed.

Lemma last_or_elem h l : last_or h l = h \/ last_or h l ∈ l.
Proof.
  unfold last_or. destruct (last l) as [x|] eqn:Hl; [right | by left].
  apply last_Some in Hl as [l' ->]. simpl. set_solver.
Qed.

Lemma links_app_mid g i l1 x l2 :
  links g i (l1 ++ x :: l2) <-> links g i (l1 ++ [x]) /\ links g i (x :: l2).
Proof.
  induction l1 as [|a l1 IH]; [simpl; tauto|].
  destruct l1 as [|b l1]; [simpl; destruct l2; tauto|].
  change (next_at g i a = Some b /\ links g i ((b :: l1) ++ x :: l2) <->
          (next_at g i a = Some b /\ links g i ((b :: l1) ++ [x])) /\ links g i (x :: l2)).
  rewrite IH. tauto.
Qed.

Lemma links_frame g g' i l x :
  (forall y, y ∈ l -> next_at g' i y = next_at g i y) ->
  links g i (l ++ [x]) -> links g' i (l ++ [x]).
Proof.
  induction l as [|a l IH]; intros Hsame; [done|].
  destruct l as [|b l].
  - simpl. rewrite Hsame by set_solver. done.
  - change (next_at g i a = Some b /\ links g i ((b :: l) ++ [x]) ->
            next_at g' i a = Some b /\ links g' i ((b :: l) ++ [x])).
    intros [Ha Hl]. rewrite Hsame by set_solver.
    split; [done|]. apply IH; [|done]. intros y Hy. apply Hsame. set_solver.
Qed.

Lemma links_head g i x l q :
  links g i (x :: l ++ [q]) -> next_at g i x = Some (hd q l).
Proof. destruct l; simpl; tauto. Qed.

Lemma links_tail g i x l : links g i (x :: l) -> links g i l.
Proof. destruct l; simpl; tauto. Qed.

Lemma chain_at_app i A B : chain_at i (A ++ B) = chain_at i A ++ chain_at i B.
Proof. unfold chain_at, offs. by rewrite filter_app, fmap_app. Qed.

Lemma chain_at_cons i e A :
  chain_at i (e :: A) = (if decide (i < e_lvl e)%nat then [e_off e] else []) ++ chain_at i A.
Proof.
  unfold chain_at, offs. rewrite filter_cons. by destruct (decide _).
Qed.

Lemma elem_of_chain_at i L x :
  x ∈ chain_at i L <-> exists e, e ∈ L /\ e_off e = x /\ (i < e_lvl e)%nat.
Proof.
  unfold chain_at, offs. rewrite list_elem_of_fmap.
  setoid_rewrite list_elem_of_filter. naive_solver.
Qed.

Lemma chain_at_subseteq i L x : x ∈ chain_at i L -> x ∈ offs L.
Proof.
  rewrite elem_of_chain_at. intros (e & He & <- & _).
  by apply list_elem_of_fmap_2.
Qed.

Lemma chain_at_high n L :
  Forall (fun e => (e_lvl e <= n)%nat) L -> chain_at n L = [].
Proof.
  induction 1 as [|e L He _ IH]; [done|].
  rewrite chain_at_cons, IH. destruct (decide _); [lia | done].
Qed.

Lemma chain_at_0 L :
  Forall (fun e => (1 <= e_lvl e)%nat) L -> chain_at 0 L = offs L.
Proof.
  induction 1 as [|e L He _ IH]; [done|].
  rewrite chain_at_cons, IH. destruct (decide _); [done | lia].
Qed.

Lemma length_chain_at i L : (length (chain_at i L) <= length L)%nat.
Proof. unfold chain_at, offs. rewrite length_fmap. apply length_filter. Qed.

Lemma NoDup_chain_at i L : NoDup (offs L) -> NoDup (chain_at i L).
Proof.
  intros Hnd. eapply sublist_NoDup; [exact Hnd|]. unfold chain_at, offs.
  apply fmap_sublist, sublist_filter.
Qed.

(** The chain one level down extends the part of it that ends at the last
    node of the level above. *)
Lemma chain_split h i A :
  exists X Y, chain_at i A = X ++ Y /\ last_or h X = last_or h (chain_at (S i) A) /\
              (forall y, y ∈ Y -> y ∈ chain_at i A).
Proof.
  induction A as [|e A IH] using rev_ind.
  - exists [], []. done.
  - destruct IH as (X & Y & HXY & Hlast & HY).
    rewrite !chain_at_app, !chain_at_cons. unfold chain_at at 2 4. simpl.
    rewrite !app_nil_r.
    destruct (decide (S i < e_lvl e)%nat) as [Hhi|Hlo].
    + destruct (decide (i < e_lvl e)%nat); [|lia].
      exists (chain_at i A ++ [e_off e]), []. rewrite app_nil_r, !last_or_snoc.
      split; [done|]. split; [done|]. intros y Hy. by apply elem_of_nil in Hy.
    + rewrite app_nil_r. destruct (decide (i < e_lvl e)%nat).
      * exists X, (Y ++ [e_off e]). rewrite HXY, <- app_assoc. split; [done|].
        split; [done|]. intros y. rewrite !elem_of_app. set_solver.
      * rewrite app_nil_r. by exists X, Y.
Qed.

End chain_facts.

Module search_proofs.
Import marena marena_spec mskip mskip_spec chain_facts.

Lemma NoDup_range_length (l : list Z) a b :
  NoDup l -> Forall (fun x => a <= x < b) l -> (length l <= Z.to_nat (b - a))%nat.
Proof.
  intros Hnd Hall. rewrite <- (length_seqZ a (b - a)).
  apply submseteq_length, NoDup_submseteq; [done|].
  intros x Hx. rewrite Forall_forall in Hall. apply Hall in Hx.
  apply elem_of_seqZ. lia.
Qed.

Section WithOrder.

Context (compare : list byte -> list byte -> Z).
Context (Hord : total_order compare).

Lemma compare_refl a : compare a a = 0.
Proof. by apply (compare_eq _ Hord). Qed.

Lemma compare_gt_lt a b : compare a b > 0 <-> compare b a < 0.
Proof. by rewrite (compare_anti _ Hord). Qed.

Lemma Rep_entry g L e :
  Rep compare g L -> e ∈ L -> node_ok g e.
Proof. intros (_ & _ & _ & Hall & _) He. rewrite Forall_forall in Hall. auto. Qed.

Lemma node_ok_key g e :
  node_ok g e -> e_off e <> 0 /\ nodeKey g (e_off e) = Some (Some (e_key e)).
Proof.
  intros (nd & Hnd & _ & _ & _ & Hoff & [Hk _] & _). unfold ARENA_MIN_ADDRESS in *.
  split; [lia|]. unfold nodeKey. rewrite Hnd. simpl. by rewrite Hk.
Qed.

Lemma Rep_length g L :
  Rep compare g L -> (S (length L) < walk_bound g)%nat.
Proof.
  intros (Hc & [Hh _] & Hnd & Hall & _).
  assert (Forall (fun x => ARENA_MIN_ADDRESS <= x < cursor (arena g)) (head g :: offs L)) as Hr.
  { constructor; [done|]. unfold offs. apply Forall_fmap.
    eapply Forall_impl; [exact Hall|]. intros e (nd & _ & _ & _ & _ & Hoff & _). done. }
  pose proof (NoDup_range_length _ _ _ Hnd Hr) as Hlen.
  simpl in Hlen. unfold offs in Hlen. rewrite length_fmap in Hlen.
  unfold walk_bound, ARENA_MIN_ADDRESS in *. lia.
Qed.

(** The inner loop of [seeklt] stops on the last node below the key. *)
Lemma seeklt_walk_spec fuel g key i p rest tail :
  links g i (p :: rest ++ tail ++ [0]) ->
  Forall (fun x => x <> 0 /\ exists k, nodeKey g x = Some (Some k) /\ compare key k > 0) rest ->
  Forall (fun x => x <> 0 /\ exists k, nodeKey g x = Some (Some k) /\ compare key k <= 0) tail ->
  (length rest < fuel)%nat ->
  seeklt_walk compare fuel g key i p = Some (last_or p rest).
Proof.
  revert p fuel. induction rest as [|x r IH]; intros p fuel Hl Hrest Htail Hfuel.
  - destruct fuel as [|fuel]; [simpl in Hfuel; lia|].
    simpl in Hl. apply links_head in Hl. simpl. rewrite Hl. simpl.
    destruct tail as [|b t]; [done|]. simpl.
    apply Forall_cons in Htail as [(Hb & k & Hk & Hcmp) _].
    destruct (Z.eqb_spec b ARENA_INVALID_ADDRESS); [done|].
    rewrite Hk. simpl. destruct (Z.leb_spec (compare key k) 0); [done | lia].
  - destruct fuel as [|fuel]; [simpl in Hfuel; lia|].
    change (links g i (p :: x :: r ++ tail ++ [0])) in Hl. destruct Hl as [Hp Hl].
    apply Forall_cons in Hrest as [(Hx & k & Hk & Hcmp) Hrest].
    simpl. rewrite Hp. simpl.
    destruct (Z.eqb_spec x ARENA_INVALID_ADDRESS); [done|].
    rewrite Hk. simpl. destruct (Z.leb_spec (compare key k) 0); [lia|].
    rewrite (IH x fuel Hl Hrest Htail) by (simpl in Hfuel; lia).
    f_equal. unfold last_or. rewrite last_cons. by destruct (last r).
Qed.

(** A sorted list splits at any key. *)
Lemma sorted_split key L :
  StronglySorted (key_lt compare) L ->
  exists A B, L = A ++ B /\
    Forall (fun e => compare key (e_key e) > 0) A /\
    Forall (fun e => compare key (e_key e) <= 0) B.
Proof.
  induction 1 as [|e L Hs IH He].
  - exists [], []. done.
  - destruct (decide (compare key (e_key e) > 0)) as [Hgt|Hle].
    + destruct IH as (A & B & -> & HA & HB).
      exists (e :: A), B. split; [done|]. split; [by constructor | done].
    + exists [], (e :: L). split; [done|]. split; [done|].
      constructor; [lia|]. eapply Forall_impl; [exact He|].
      intros e' Hlt. unfold key_lt in Hlt.
      destruct (decide (compare key (e_key e') > 0)) as [Hgt|]; [|lia].
      exfalso. apply Hle. apply compare_gt_lt.
      apply (compare_trans _ Hord _ (e_key e')); [done|]. by apply compare_gt_lt.
Qed.

Section Split.

Context (g : SkipList) (key : list byte) (A B : list entry).
Context (Hrep : Rep compare g (A ++ B)).
Context (HA : Forall (fun e => compare key (e_key e) > 0) A).
Context (HB : Forall (fun e => compare key (e_key e) <= 0) B).

Lemma chain_keys_below i x :
  x ∈ chain_at i A ->
  x <> 0 /\ exists k, nodeKey g x = Some (Some k) /\ compare key k > 0.
Proof.
  intros (e & He & <- & _)%elem_of_chain_at.
  assert (node_ok g e) as Hok by (eapply Rep_entry; [done | set_solver]).
  destruct (node_ok_key g e Hok) as [? ?]. split; [done|].
  exists (e_key e). split; [done|]. rewrite Forall_forall in HA. auto.
Qed.

Lemma chain_keys_above i x :
  x ∈ chain_at i B ->
  x <> 0 /\ exists k, nodeKey g x = Some (Some k) /\ compare key k <= 0.
Proof.
  intros (e & He & <- & _)%elem_of_chain_at.
  assert (node_ok g e) as Hok by (eapply Rep_entry; [done | set_solver]).
  destruct (node_ok_key g e Hok) as [? ?]. split; [done|].
  exists (e_key e). split; [done|]. rewrite Forall_forall in HB. auto.
Qed.

(** The predecessor of [key] at level [i]. *)
Lemma links_from_pred i :
  (i < 24)%nat ->
  links g i (last_or (head g) (chain_at i A) :: chain_at i B ++ [0]).
Proof.
  intros Hi. destruct Hrep as (_ & _ & _ & _ & _ & _ & Hlinks).
  specialize (Hlinks i Hi). rewrite chain_at_app, <- app_assoc in Hlinks.
  destruct (last_or_split (head g) (chain_at i A)) as [P HP].
  rewrite app_comm_cons, HP, <- app_assoc in Hlinks. simpl in Hlinks.
  by apply links_app_mid in Hlinks as [_ ?].
Qed.

Lemma seeklt_step fuel i :
  (i < 24)%nat -> (length A < fuel)%nat ->
  seeklt_walk compare fuel g key i (last_or (head g) (chain_at (S i) A))
  = Some (last_or (head g) (chain_at i A)).
Proof.
  intros Hi Hfuel.
  destruct (chain_split (head g) i A) as (X & Y & HXY & Hlast & HY).
  rewrite <- Hlast, HXY, last_or_app.
  apply seeklt_walk_spec with (tail := chain_at i B).
  - destruct Hrep as (_ & _ & _ & _ & _ & _ & Hlinks).
    specialize (Hlinks i Hi). rewrite chain_at_app, HXY, <- !app_assoc in Hlinks.
    destruct (last_or_split (head g) X) as [P HP].
    rewrite app_comm_cons, HP, <- app_assoc in Hlinks. simpl in Hlinks.
    by apply links_app_mid in Hlinks as [_ ?].
  - apply Forall_forall. intros x Hx. apply (chain_keys_below i). auto.
  - apply Forall_forall. intros x Hx. by apply (chain_keys_above i).
  - pose proof (length_chain_at i A) as Hlen. rewrite HXY, length_app in Hlen. lia.
Qed.

Lemma seeklt_levels_spec fuel n log :
  (n <= 24)%nat -> (length A < fuel)%nat -> length log = 24%nat ->
  exists log',
    seeklt_levels compare fuel g key n (last_or (head g) (chain_at n A)) log
    = Some (last_or (head g) (chain_at 0 A), log') /\
    length log' = 24%nat /\
    (forall i, (i < n)%nat -> log' !! i = Some (last_or (head g) (chain_at i A))) /\
    (forall i, (n <= i)%nat -> log' !! i = log !! i).
Proof.
  intros Hn Hfuel. revert log. induction n as [|i IH]; intros log Hlog.
  - exists log. simpl. split; [done|]. split; [done|]. split; [intros; lia | done].
  - simpl. rewrite seeklt_step by lia. simpl.
    destruct (IH ltac:(lia) (<[i := last_or (head g) (chain_at i A)]> log)) as
      (log' & Hrun & Hlen & Hlow & Hhigh); [by rewrite length_insert|].
    exists log'. split; [done|]. split; [done|]. split.
    + intros j Hj. destruct (decide (j = i)) as [->|].
      * rewrite Hhigh by lia. apply list_lookup_insert_eq. lia.
      * apply Hlow. lia.
    + intros j Hj. rewrite Hhigh by lia. apply list_lookup_insert_ne. lia.
Qed.

Lemma levels_le_24 : Forall (fun e => (e_lvl e <= 24)%nat) A.
Proof.
  destruct Hrep as (_ & _ & _ & Hall & _). apply Forall_app in Hall as [Hall _].
  eapply Forall_impl; [exact Hall|]. intros e (nd & _ & _ & _ & ? & _). lia.
Qed.

(** [seeklt] returns the last node below the key, and logs the last node
    below the key of every level. *)
Lemma seeklt_spec log :
  length (default zero_log log) = 24%nat ->
  exists log',
    seeklt compare g key log = Some (last_or (head g) (offs A), log') /\
    length log' = 24%nat /\
    forall i, (i < 24)%nat -> log' !! i = Some (last_or (head g) (chain_at i A)).
Proof.
  intros Hlog. unfold seeklt.
  pose proof (Rep_length _ _ Hrep) as Hlen. rewrite length_app in Hlen.
  destruct (seeklt_levels_spec (walk_bound g) 24 (default zero_log log))
    as (log' & Hrun & Hlen' & Hlow & _); [lia | lia | done |].
  rewrite (chain_at_high 24 A levels_le_24) in Hrun.
  change (last_or (head g) []) with (head g) in Hrun.
  exists log'. rewrite Hrun. split; [|done]. do 2 f_equal.
  f_equal. apply chain_at_0.
  destruct Hrep as (_ & _ & _ & Hall & _). apply Forall_app in Hall as [Hall _].
  eapply Forall_impl; [exact Hall|]. intros e (nd & _ & _ & _ & ? & _). lia.
Qed.

End Split.

End WithOrder.

End search_proofs.

(** ** Frames: what an update leaves alone *)

Module frame_facts.
Import marena marena_spec marena_facts marena_proofs memory_facts.
Import mskip mskip_spec chain_facts.

Lemma set_arena_id g : set_arena g (arena g) = g.
Proof. by destruct g. Qed.

Lemma getNode_putNode g p nd q :
  getNode (putNode g p nd) q = if decide (p = q) then Some nd else getNode g q.
Proof. unfold getNode, putNode. simpl. apply lookup_insert. Qed.

Lemma links_same g g' i l :
  (forall q, q ∈ l -> next_at g' i q = next_at g i q) ->
  links g i l -> links g' i l.
Proof.
  induction l as [|a l IH]; intros Hsame; [done|].
  destruct l as [|b l]; [done|].
  change (next_at g i a = Some b /\ links g i (b :: l) ->
          next_at g' i a = Some b /\ links g' i (b :: l)).
  intros [Ha Hl]. rewrite Hsame by set_solver. split; [done|].
  apply IH; [|done]. intros q Hq. apply Hsame. set_solver.
Qed.

Lemma agree_below_refl c a : agree_below c a a.
Proof. by split. Qed.

Lemma agree_below_trans c a1 a2 a3 :
  agree_below c a1 a2 -> agree_below c a2 a3 -> agree_below c a1 a3.
Proof.
  intros [Hs1 Hr1] [Hs2 Hr2]. split; [congruence|].
  intros off n Hle. rewrite Hr2, Hr1; done.
Qed.

Lemma agree_below_le c c' a a' : c' <= c -> agree_below c a a' -> agree_below c' a a'.
Proof. intros Hle [Hs Hr]. split; [done|]. intros off n Hn. apply Hr. lia. Qed.

Lemma agree_below_set_cursor c a k : agree_below c a (set_cursor a k).
Proof. by split. Qed.

Lemma agree_below_put_record c a p nd : agree_below c a (put_record a p nd).
Proof. by split. Qed.

Lemma agree_below_write c a off d :
  c <= off -> agree_below c a (with_cells a (write_bytes (cells (buffer a)) off d)).
Proof.
  intros Hle. split; [done|]. intros off' n Hn. simpl.
  apply read_write_disjoint. lia.
Qed.

Lemma block_at_frame a a' h d :
  agree_below (cursor a) a a' -> cursor a <= cursor a' ->
  block_at a h d -> block_at a' h d.
Proof.
  intros [Hsz Hrd] Hc [Hv Hb]. split; [|lia].
  revert Hv. unfold View. rewrite Hsz.
  destruct (_ || _); [done|]. intros [= <-]. f_equal. apply Hrd.
  assert (0 <= Z.land h (2 ^ 32 - 1)) by (apply Z.land_nonneg; right; lia).
  rewrite Z2Nat.id by done. lia.
Qed.

Lemma value_at_frame a a' h v :
  agree_below (cursor a) a a' -> cursor a <= cursor a' ->
  value_at a h v -> value_at a' h v.
Proof.
  intros Ha Hc. destruct v as [d|]; simpl; [|done].
  intros [? ?]. split; [done|]. by eapply block_at_frame.
Qed.

Lemma node_ok_frame g g' e :
  getNode g' (e_off e) = getNode g (e_off e) ->
  agree_below (cursor (arena g)) (arena g) (arena g') ->
  cursor (arena g) <= cursor (arena g') ->
  node_ok g e -> node_ok g' e.
Proof.
  intros Hn Ha Hc (nd & Hnd & Hl & Hlen & Hrange & Hoff & Hk & Hv).
  exists nd. rewrite Hn. repeat split; try done; try lia.
  - by eapply block_at_frame.
  - by eapply block_at_frame.
  - by eapply value_at_frame.
Qed.

Lemma block_at_pack a off d :
  ARENA_MIN_ADDRESS <= off -> off + Z.of_nat (length d) <= cursor a ->
  cursor a <= size a -> size a <= 2 ^ 31 ->
  read_bytes (cells (buffer a)) off (length d) = d ->
  block_at a (pack off (Z.of_nat (length d))) d.
Proof.
  intros Ho Hfit Hc Hsz Hrd. unfold ARENA_MIN_ADDRESS in *. split.
  - rewrite View_pack by (unfold ARENA_MIN_ADDRESS; lia). by rewrite Nat2Z.id, Hrd.
  - rewrite shiftr_pack, land_pack by lia. lia.
Qed.

(** *** [randLevel] *)

Lemma randLevel_loop_range n lvl sd :
  1 <= lvl <= 24 -> lvl <= (randLevel_loop n lvl sd).1 <= 24.
Proof.
  revert lvl sd. induction n as [|n IH]; intros lvl sd Hl; simpl; [lia|].
  unfold MSKIP_MAX_LEVEL. destruct (Z.ltb_spec lvl 24); [|simpl; lia].
  destruct (_ =? 0); [|simpl; lia].
  specialize (IH (lvl + 1) (splitmix64.Splitmix64 sd).2 ltac:(lia)). simpl in IH. lia.
Qed.

(** The bound of 24 rounds is never what ends the loop. *)
Lemma randLevel_loop_fuel n m lvl sd :
  (Z.to_nat (24 - lvl) < n)%nat -> (Z.to_nat (24 - lvl) < m)%nat -> 1 <= lvl ->
  randLevel_loop n lvl sd = randLevel_loop m lvl sd.
Proof.
  revert m lvl sd. induction n as [|n IH]; intros m lvl sd Hn Hm Hl; [lia|].
  destruct m as [|m]; [lia|]. simpl.
  unfold MSKIP_MAX_LEVEL. destruct (Z.ltb_spec lvl 24); [|done].
  destruct (_ =? 0); [|done]. apply IH; lia.
Qed.

Lemma randLevel_range g : 1 <= (randLevel g).1 <= 24.
Proof.
  unfold randLevel. pose proof (randLevel_loop_range 24 1 (seed g) ltac:(lia)).
  destruct (randLevel_loop 24 1 (seed g)). simpl in *. lia.
Qed.

Lemma randLevel_arena g : arena (randLevel g).2 = arena g /\ head (randLevel g).2 = head g.
Proof. unfold randLevel. by destruct (randLevel_loop 24 1 (seed g)). Qed.

Lemma sizeNode_eq lvl : 1 <= lvl <= 24 -> sizeNode lvl = 24 + 4 * lvl.
Proof.
  intros Hl. unfold sizeNode, nodeMaxSize, MSKIP_MAX_LEVEL.
  rewrite (wrap_u64_id lvl) by (unfold is_u64; lia).
  rewrite wrap_u64_id by (unfold is_u64; lia). lia.
Qed.

(** *** [NewSkipList] *)

Lemma reachable_records_empty a : marena.reachable a -> records (buffer a) = ∅.
Proof.
  induction 1 as [c g Hc Hg|g sz _ IH Hs|g slots _ IH Hu Hn|g _ IH].
  - unfold NewArena, make_buffer in Hg. destruct (_ <? 0); [done|].
    by injection Hg as <-.
  - unfold Allocate. repeat (destruct (_ >? _)); done.
  - unfold AllocateMultiple. destruct (sum_sizes slots 0); [|done].
    repeat (destruct (_ >? _)); done.
  - done.
Qed.

Section WithOrder.

Context (compare : list byte -> list byte -> Z).

Lemma NewSkipList_Rep a sd g :
  marena.reachable a -> NewSkipList a sd = Some g -> Rep compare g [].
Proof.
  intros Hr. pose proof (reachable_inv a Hr) as Hinv.
  pose proof (reachable_records_empty a Hr) as Hrec.
  unfold NewSkipList. change (sizeNode MSKIP_MAX_LEVEL) with 120.
  destruct (Allocate_cases a 120 Hinv) as [[_ ->]|(_ & Hfit & ->)];
    [by unfold is_i64 | done |].
  destruct Hinv as (Hlen & Hsz & Hc & Hcs). unfold ARENA_MIN_ADDRESS in *.
  change (align 120) with 120 in *.
  destruct (Z.eqb_spec (pack (cursor a) 120) ARENA_INVALID_ADDRESS) as [Hz|_].
  { exfalso. revert Hz. apply pack_nonzero; lia. }
  intros [= <-]. rewrite Offset_pack by lia.
  unfold Rep, head_ok, getNode, records_below, getNode, ARENA_MIN_ADDRESS. simpl.
  split; [lia|]. split.
  { split; [lia|]. eexists. rewrite lookup_insert_eq. done. }
  split; [apply NoDup_singleton|]. split; [done|]. split; [constructor|]. split.
  - intros q nd. rewrite Hrec, lookup_insert. destruct (decide _); [|done].
    intros _. lia.
  - intros i Hi. split; [|done]. unfold next_at, getNode. simpl.
    rewrite lookup_insert_eq. simpl.
    apply (lookup_replicate_2 24 ARENA_INVALID_ADDRESS i Hi).
Qed.

End WithOrder.

End frame_facts.

(** ** Updating records *)

Module update_facts.
Import marena marena_spec marena_facts marena_proofs memory_facts.
Import mskip mskip_spec chain_facts frame_facts search_proofs.

Lemma set_valuePtr_Some g p v nd :
  getNode g p = Some nd ->
  set_valuePtr g p v = Some (putNode g p (MkNode (keyPtr nd) v (level nd) (nexts nd))).
Proof. unfold set_valuePtr. by intros ->. Qed.

Lemma set_next_Some g p i v nd :
  getNode g p = Some nd -> (i < length (nexts nd))%nat ->
  set_next g p i v
  = Some (putNode g p (MkNode (keyPtr nd) (valuePtr nd) (level nd) (<[i := v]> (nexts nd)))).
Proof. unfold set_next. intros -> Hi. simpl. by rewrite decide_True. Qed.

Lemma next_at_set_link g p nd i v j q :
  getNode g p = Some nd -> (i < length (nexts nd))%nat ->
  next_at (putNode g p (MkNode (keyPtr nd) (valuePtr nd) (level nd) (<[i := v]> (nexts nd)))) j q
  = if decide (q = p /\ j = i) then Some v else next_at g j q.
Proof.
  intros Hnd Hi. unfold next_at. rewrite getNode_putNode.
  destruct (decide (p = q)) as [<-|Hne].
  - rewrite Hnd. simpl. destruct (decide (j = i)) as [->|Hj].
    + rewrite decide_True by done. by apply list_lookup_insert_eq.
    + rewrite decide_False by tauto. by apply list_lookup_insert_ne.
  - rewrite decide_False by (intros [-> _]; done). done.
Qed.

Lemma same_frame_refl g : same_frame g g.
Proof. by repeat split. Qed.

Lemma same_frame_trans g1 g2 g3 :
  same_frame g1 g2 -> same_frame g2 g3 -> same_frame g1 g3.
Proof.
  intros (H1 & H2 & H3 & H4 & H5) (K1 & K2 & K3 & K4 & K5).
  split; [congruence|]. split; [congruence|]. split; [congruence|].
  split; [congruence|]. intros q. by rewrite K5, H5.
Qed.

Lemma same_frame_set_link g p nd i v :
  getNode g p = Some nd ->
  same_frame g (putNode g p (MkNode (keyPtr nd) (valuePtr nd) (level nd) (<[i := v]> (nexts nd)))).
Proof.
  intros Hnd. repeat split; try done. intros q. rewrite getNode_putNode.
  destruct (decide (p = q)) as [<-|]; [|done]. rewrite Hnd. simpl.
  unfold shape. simpl. by rewrite length_insert.
Qed.

Lemma View_ext a a' h :
  cells (buffer a') = cells (buffer a) -> size a' = size a -> View a' h = View a h.
Proof. intros Hc Hs. unfold View. by rewrite Hc, Hs. Qed.

Lemma same_frame_node g g' q nd :
  same_frame g g' -> getNode g q = Some nd ->
  exists nd', getNode g' q = Some nd' /\ shape nd' = shape nd.
Proof.
  intros (_ & _ & _ & _ & Hsh) Hnd. specialize (Hsh q). rewrite Hnd in Hsh.
  destruct (getNode g' q) as [nd'|]; [|done]. exists nd'. split; [done|].
  simpl in Hsh. congruence.
Qed.

Lemma block_at_same_frame g g' h d :
  same_frame g g' -> block_at (arena g) h d -> block_at (arena g') h d.
Proof.
  intros (_ & Hc & Hs & Hcur & _) [Hv Hb]. split; [|lia].
  by rewrite (View_ext (arena g)).
Qed.

Lemma node_ok_same_frame g g' e : same_frame g g' -> node_ok g e -> node_ok g' e.
Proof.
  intros Hsf (nd & Hnd & Hl & Hlen & Hrange & Hoff & Hk & Hv).
  destruct (same_frame_node _ _ _ _ Hsf Hnd) as (nd' & Hnd' & Hsh).
  pose proof Hsf as (_ & _ & _ & Hcur & _).
  unfold shape in Hsh. injection Hsh as Hk' Hv' Hl' Hn'.
  exists nd'. rewrite Hk', Hv', Hl', Hn', Hcur.
  do 5 (split; [done|]). split; [by eapply block_at_same_frame|].
  destruct (e_val e); simpl in *; [|done]. destruct Hv. split; [done|].
  by eapply block_at_same_frame.
Qed.

Lemma head_ok_same_frame g g' : same_frame g g' -> head_ok g -> head_ok g'.
Proof.
  intros Hsf [Hr (nd & Hnd & Hlen & Hkp)].
  pose proof Hsf as (Hh & _ & _ & Hcur & _). rewrite <- Hh in Hnd.
  destruct (same_frame_node _ _ _ _ Hsf Hnd) as (nd' & Hnd' & Hsh).
  split; [rewrite Hh, Hcur; done|]. exists nd'. split; [done|].
  unfold shape in Hsh. injection Hsh as Hk _ _ Hn. split; [lia | congruence].
Qed.

Lemma records_below_same_frame g g' :
  same_frame g g' -> records_below g -> records_below g'.
Proof.
  intros (_ & _ & _ & Hcur & Hsh) Hb q nd' Hnd'. specialize (Hsh q).
  rewrite Hnd' in Hsh. destruct (getNode g q) as [nd|] eqn:Hnd; [|done].
  rewrite Hcur. by eapply Hb.
Qed.

Section WithOrder.

Context (compare : list byte -> list byte -> Z).

Lemma Rep_offsets g L q :
  Rep compare g L -> q ∈ head g :: offs L ++ [0] -> q < cursor (arena g).
Proof.
  intros (Hc & [Hh _] & _ & Hall & _). unfold ARENA_MIN_ADDRESS in *.
  rewrite elem_of_cons, elem_of_app, list_elem_of_singleton.
  intros [->|[Hq| ->]]; [lia | | lia].
  apply list_elem_of_fmap in Hq as (e & -> & He).
  rewrite Forall_forall in Hall. destruct (Hall e He) as (nd & _ & _ & _ & _ & ? & _).
  lia.
Qed.

(** Growing the arena past the cursor keeps the list. *)
Lemma Rep_extend g g' L :
  Rep compare g L ->
  head g' = head g ->
  agree_below (cursor (arena g)) (arena g) (arena g') ->
  cursor (arena g) <= cursor (arena g') <= size (arena g') ->
  (forall q, q < cursor (arena g) -> getNode g' q = getNode g q) ->
  records_below g' ->
  Rep compare g' L.
Proof.
  intros Hrep Hh Hag Hcur Hsame Hbelow.
  pose proof (fun q => Rep_offsets g L q Hrep) as Hoff.
  destruct Hrep as (Hc & [Hhr (hd & Hhd & Hhl)] & Hnd & Hall & Hs & Hb & Hl).
  pose proof Hag as [Hsz _].
  split; [lia|]. split.
  { split; [rewrite Hh; lia|]. exists hd. rewrite Hh, Hsame by lia. done. }
  split; [by rewrite Hh|]. split.
  { apply Forall_forall. intros e He. rewrite Forall_forall in Hall.
    apply (node_ok_frame g); [|done|lia|by apply Hall].
    apply Hsame. apply Hoff. rewrite elem_of_cons, elem_of_app. right. left.
    by apply list_elem_of_fmap_2. }
  split; [done|]. split; [done|].
  intros i Hi. rewrite Hh. apply (links_same g); [|by apply Hl].
  intros q Hq. unfold next_at. rewrite Hsame; [done|]. apply Hoff.
  rewrite app_comm_cons, elem_of_app in Hq. rewrite elem_of_cons, elem_of_app.
  destruct Hq as [Hq|Hq]; [|by right; right].
  apply elem_of_cons in Hq as [->|Hq]; [by left|]. right. left.
  by eapply chain_at_subseteq.
Qed.

Lemma Rep_set_seed g sd L : Rep compare g L -> Rep compare (set_seed g sd) L.
Proof.
  intros Hrep. apply (Rep_extend g).
  - done.
  - done.
  - apply agree_below_refl.
  - destruct Hrep as (Hc & _). simpl. lia.
  - done.
  - by destruct Hrep as (_ & _ & _ & _ & _ & Hb & _).
Qed.

Lemma sorted_replace A e e' B :
  e_key e' = e_key e ->
  StronglySorted (key_lt compare) (A ++ e :: B) ->
  StronglySorted (key_lt compare) (A ++ e' :: B).
Proof.
  intros Hk. rewrite !StronglySorted_app, !StronglySorted_cons.
  intros (Hab & HA & HeB & HB). split; [|split; [done|split; [|done]]].
  - intros x1 x2 Hx1 [->|Hx2]%elem_of_cons.
    + unfold key_lt. rewrite Hk. apply (Hab x1 e); [done | by left].
    + apply Hab; [done | by right].
  - eapply Forall_impl; [exact HeB|]. intros x. unfold key_lt. by rewrite Hk.
Qed.

Lemma chain_at_replace i A e e' B :
  e_off e' = e_off e -> e_lvl e' = e_lvl e ->
  chain_at i (A ++ e' :: B) = chain_at i (A ++ e :: B).
Proof.
  intros Ho Hl. by rewrite !chain_at_app, !chain_at_cons, Ho, Hl.
Qed.

(** Swapping the value reference of a linked node. *)
Lemma Rep_set_value g a0 A e B nd vptr value :
  Rep compare g (A ++ e :: B) ->
  getNode g (e_off e) = Some nd ->
  agree_below (cursor (arena g)) (arena g) a0 ->
  cursor (arena g) <= cursor a0 <= size a0 ->
  records (buffer a0) = records (buffer (arena g)) ->
  value_at a0 vptr value ->
  Rep compare
    (putNode (set_arena g a0) (e_off e) (MkNode (keyPtr nd) vptr (level nd) (nexts nd)))
    (A ++ MkEntry (e_off e) (e_key e) (e_lvl e) value :: B).
Proof.
  intros Hrep Hnd Hag Hcur Hrec Hval.
  set (g' := putNode (set_arena g a0) (e_off e) _).
  assert (forall q, q <> e_off e -> getNode g' q = getNode g q) as Hother.
  { intros q Hq. unfold g'. rewrite getNode_putNode, decide_False by done.
    unfold getNode. simpl. by rewrite Hrec. }
  assert (getNode g' (e_off e) = Some (MkNode (keyPtr nd) vptr (level nd) (nexts nd)))
    as Hself.
  { unfold g'. by rewrite getNode_putNode, decide_True. }
  assert (forall i q, next_at g' i q = next_at g i q) as Hnext.
  { intros i q. unfold next_at. destruct (decide (q = e_off e)) as [->|Hq].
    - by rewrite Hself, Hnd.
    - by rewrite Hother. }
  assert (agree_below (cursor (arena g)) (arena g) (arena g')) as Hag'.
  { eapply agree_below_trans; [exact Hag|]. apply agree_below_put_record. }
  destruct Hrep as (Hc & [Hhr (hd & Hhd & Hhl)] & Hndp & Hall & Hs & Hb & Hl).
  pose proof Hag as [Hsz _].
  assert (offs (A ++ MkEntry (e_off e) (e_key e) (e_lvl e) value :: B)
          = offs (A ++ e :: B)) as Hoffs.
  { unfold offs. by rewrite !fmap_app, !fmap_cons. }
  assert (head g ≠ e_off e) as Hhead.
  { apply NoDup_cons in Hndp as [Hnin _]. intros Heq. apply Hnin. rewrite Heq.
    unfold offs. rewrite fmap_app, fmap_cons. set_solver. }
  apply Forall_app in Hall as [HallA HallB].
  apply Forall_cons in HallB as [Hoke HallB].
  assert (forall x, x ∈ A ++ B -> e_off x <> e_off e) as Hdiff.
  { intros x Hx Heq. apply NoDup_cons in Hndp as [_ Hndp].
    unfold offs in Hndp. rewrite fmap_app, fmap_cons in Hndp.
    apply NoDup_app in Hndp as (_ & Hdisj & Hnd2).
    apply NoDup_cons in Hnd2 as [Hnin _].
    apply elem_of_app in Hx as [Hx|Hx].
    - apply (Hdisj (e_off x)); [by apply list_elem_of_fmap_2|]. rewrite Heq. by left.
    - apply Hnin. rewrite <- Heq. by apply list_elem_of_fmap_2. }
  split; [simpl; lia|]. split.
  { split; [simpl; lia|]. exists hd. change (head g') with (head g).
    by rewrite Hother. }
  split; [by rewrite Hoffs|]. split.
  { apply Forall_app. split; [|constructor].
    - apply Forall_forall. intros x Hx. rewrite Forall_forall in HallA.
      apply (node_ok_frame g); [|done|simpl; lia|by apply HallA].
      apply Hother, Hdiff. set_solver.
    - destruct Hoke as (nd0 & Hnd0 & Hlv & Hlen & Hrange & Hoff & Hk & _).
      rewrite Hnd in Hnd0. injection Hnd0 as <-.
      eexists. split; [exact Hself|]. simpl.
      do 3 (split; [done|]). split; [simpl; lia|]. split; [|done].
      eapply block_at_frame; [exact Hag'|simpl; lia|]. done.
    - apply Forall_forall. intros x Hx. rewrite Forall_forall in HallB.
      apply (node_ok_frame g); [|done|simpl; lia|by apply HallB].
      apply Hother, Hdiff. set_solver. }
  split; [by apply (sorted_replace A e)|]. split.
  { intros q nd' Hq. simpl. destruct (decide (q = e_off e)) as [->|Hne].
    - destruct Hoke as (_ & _ & _ & _ & _ & Hoff & _). lia.
    - rewrite Hother in Hq by done. apply Hb in Hq. lia. }
  intros i Hi. rewrite (chain_at_replace i A e) by done.
  apply (links_same g); [|by apply Hl]. intros q _. apply Hnext.
Qed.

End WithOrder.

End update_facts.

(** ** Linking a new node *)

Module link_proofs.
Import marena marena_spec marena_facts marena_proofs memory_facts.
Import mskip mskip_spec chain_facts frame_facts search_proofs update_facts.

Lemma links_cons2 g i x y t :
  links g i (x :: y :: t) <-> next_at g i x = Some y /\ links g i (y :: t).
Proof. done. Qed.

Section WithOrder.

Context (compare : list byte -> list byte -> Z).

Section Link.

Context (g0 : SkipList) (A B : list entry) (node : Z) (lvl : nat) (log : list Z).
Context (Hrep : Rep compare g0 (A ++ B)).
Context (Hfresh : node ∉ head g0 :: offs (A ++ B) ++ [0]).
Context (Hnode : exists nd, getNode g0 node = Some nd /\ length (nexts nd) = lvl).
Context (Hlvl : (lvl <= 24)%nat).
Context (Hlog : forall i, (i < 24)%nat ->
                  log !! i = Some (last_or (head g0) (chain_at i A))).

Lemma offsets_nonzero q : q ∈ head g0 :: offs (A ++ B) -> q <> 0.
Proof.
  destruct Hrep as (_ & [Hh _] & _ & Hall & _). unfold ARENA_MIN_ADDRESS in *.
  intros [->|Hq]%elem_of_cons; [lia|].
  apply list_elem_of_fmap in Hq as (e & -> & He).
  rewrite Forall_forall in Hall. destruct (Hall e He) as (nd & _ & _ & _ & _ & ? & _).
  unfold ARENA_MIN_ADDRESS in *. lia.
Qed.

Lemma NoDup_split :
  NoDup (head g0 :: offs A) /\ (forall q, q ∈ head g0 :: offs A -> q ∉ offs B).
Proof.
  destruct Hrep as (_ & _ & Hnd & _). unfold offs in *. rewrite fmap_app in Hnd.
  rewrite app_comm_cons in Hnd. apply NoDup_app in Hnd as (H1 & H2 & _). done.
Qed.

Lemma pred_elem i : last_or (head g0) (chain_at i A) ∈ head g0 :: offs A.
Proof.
  destruct (last_or_elem (head g0) (chain_at i A)) as [->|Hin]; [by left|].
  right. by eapply chain_at_subseteq.
Qed.

Lemma pred_node i :
  (i < 24)%nat ->
  exists nd, getNode g0 (last_or (head g0) (chain_at i A)) = Some nd /\
             (i < length (nexts nd))%nat.
Proof.
  intros Hi. destruct Hrep as (_ & [_ (hd & Hhd & Hhl & _)] & _ & Hall & _).
  destruct (last_or_elem (head g0) (chain_at i A)) as [->|Hin].
  - exists hd. split; [done | lia].
  - apply elem_of_chain_at in Hin as (e & He & <- & Hlv).
    rewrite Forall_forall in Hall.
    destruct (Hall e ltac:(set_solver)) as (nd & Hnd & _ & Hlen & _).
    exists nd. split; [done | lia].
Qed.

Lemma pred_prefix i :
  exists P, head g0 :: chain_at i A = P ++ [last_or (head g0) (chain_at i A)] /\
    forall q, q ∈ P -> q <> last_or (head g0) (chain_at i A) /\ q <> node.
Proof.
  destruct (last_or_split (head g0) (chain_at i A)) as [P HP].
  exists P. split; [done|]. intros q Hq.
  assert (NoDup (head g0 :: chain_at i A)) as Hnd.
  { destruct NoDup_split as [Hnd _]. apply NoDup_cons in Hnd as [Hh Hnd].
    apply NoDup_cons. split; [|by apply NoDup_chain_at].
    intros Hin. apply Hh. by eapply chain_at_subseteq. }
  rewrite HP in Hnd. apply NoDup_app in Hnd as (_ & Hdisj & _).
  split.
  - intros ->. apply (Hdisj _ Hq). by left.
  - intros ->. apply Hfresh.
    assert (node ∈ head g0 :: chain_at i A) as Hin by (rewrite HP; set_solver).
    apply elem_of_cons in Hin as [->|Hin]; [by left|]. right.
    apply elem_of_app. left. apply chain_at_subseteq in Hin.
    unfold offs. rewrite fmap_app. set_solver.
Qed.

Lemma suffix_distinct i q :
  q ∈ chain_at i B ++ [0] ->
  q <> last_or (head g0) (chain_at i A) /\ q <> node.
Proof.
  intros Hq. split.
  - intros ->. apply elem_of_app in Hq as [Hq|Hq].
    + destruct NoDup_split as [_ Hdisj]. apply (Hdisj _ (pred_elem i)).
      by eapply chain_at_subseteq.
    + apply list_elem_of_singleton in Hq. apply (offsets_nonzero _) in Hq; [done|].
      pose proof (pred_elem i) as Hin. unfold offs. rewrite fmap_app.
      set_solver.
  - intros ->. apply Hfresh. right. apply elem_of_app in Hq as [Hq|Hq].
    + apply elem_of_app. left. apply chain_at_subseteq in Hq.
      unfold offs. rewrite fmap_app. set_solver.
    + set_solver.
Qed.

Lemma link_loop_spec n i g :
  (i + n = lvl)%nat ->
  same_frame g0 g ->
  (forall j, (j < i)%nat ->
     links g j (head g0 :: chain_at j A ++ node :: chain_at j B ++ [0])) ->
  (forall j, (i <= j < 24)%nat -> links g j (head g0 :: chain_at j (A ++ B) ++ [0])) ->
  exists g',
    link_loop g log node n i = Some g' /\ same_frame g0 g' /\
    (forall j, (j < lvl)%nat ->
       links g' j (head g0 :: chain_at j A ++ node :: chain_at j B ++ [0])) /\
    (forall j, (lvl <= j < 24)%nat ->
       links g' j (head g0 :: chain_at j (A ++ B) ++ [0])).
Proof.
  revert i g. induction n as [|n IH]; intros i g Hin Hsf Hnew Hold.
  - exists g. simpl. split; [done|]. split; [done|].
    split; intros j Hj; [apply Hnew | apply Hold]; lia.
  - assert (i < 24)%nat as Hi by lia.
    set (p := last_or (head g0) (chain_at i A)).
    (* the links of level [i] before the step *)
    pose proof (Hold i ltac:(lia)) as Hli.
    rewrite chain_at_app, <- app_assoc in Hli.
    destruct (pred_prefix i) as (P & HP & HPd). fold p in HP, HPd.
    rewrite app_comm_cons, HP, <- app_assoc in Hli. simpl in Hli.
    apply links_app_mid in Hli as [HlP Hlp].
    destruct (chain_at i B ++ [0]) as [|y t] eqn:Hsuf.
    { by destruct (chain_at i B). }
    apply links_cons2 in Hlp as [Hpy Hlt].
    (* the two records *)
    destruct Hnode as (ndN0 & HndN0 & HlenN).
    destruct (same_frame_node _ _ _ _ Hsf HndN0) as (ndN & HndN & HshN).
    assert (i < length (nexts ndN))%nat as HiN.
    { unfold shape in HshN. injection HshN as _ _ _ ->. lia. }
    destruct (pred_node i Hi) as (ndp0 & Hndp0 & Hlenp0). fold p in Hndp0.
    destruct (same_frame_node _ _ _ _ Hsf Hndp0) as (ndp & Hndp & Hshp).
    assert (i < length (nexts ndp))%nat as Hip.
    { unfold shape in Hshp. injection Hshp as _ _ _ ->. lia. }
    assert (p <> node) as Hpn.
    { intros Heq. apply Hfresh. rewrite <- Heq.
      pose proof (pred_elem i) as Hpe. fold p in Hpe.
      unfold offs. rewrite fmap_app. set_solver. }
    (* run the step *)
    simpl. rewrite (Hlog i Hi). simpl. fold p. rewrite Hpy. simpl.
    rewrite (set_next_Some g node i y ndN HndN HiN). simpl.
    set (g1 := putNode g node _).
    assert (getNode g1 p = Some ndp) as Hndp1.
    { unfold g1. rewrite getNode_putNode, decide_False by done. done. }
    rewrite (set_next_Some g1 p i node ndp Hndp1 Hip). simpl.
    set (g2 := putNode g1 p _).
    assert (forall j q, next_at g2 j q =
              if decide (q = p /\ j = i) then Some node
              else if decide (q = node /\ j = i) then Some y
              else next_at g j q) as Hnext.
    { intros j q. unfold g2. rewrite next_at_set_link by done.
      destruct (decide (q = p /\ j = i)); [done|].
      unfold g1. by rewrite next_at_set_link. }
    assert (same_frame g0 g2) as Hsf2.
    { eapply same_frame_trans; [exact Hsf|].
      apply (same_frame_trans _ g1); [by apply same_frame_set_link|].
      by apply same_frame_set_link. }
    apply (IH (S i) g2); [lia | done | |].
    + intros j Hj. destruct (decide (j = i)) as [->|Hji].
      * rewrite app_comm_cons, HP, <- app_assoc. simpl.
        apply links_app_mid. split.
        -- apply (links_frame g); [|done]. intros q Hq.
           destruct (HPd q Hq) as [Hq1 Hq2].
           rewrite Hnext, !decide_False by tauto. done.
        -- apply links_cons2. split.
           { rewrite Hnext, decide_True by done. done. }
           rewrite Hsuf. apply links_cons2. split.
           { rewrite Hnext. rewrite decide_False by (intros [? _]; congruence).
             rewrite decide_True by done. done. }
           apply (links_same g); [|done]. intros q Hq.
           destruct (suffix_distinct i q) as [Hq1 Hq2]; [by rewrite Hsuf|].
           fold p in Hq1. rewrite Hnext, !decide_False by tauto. done.
      * apply (links_same g); [|apply Hnew; lia]. intros q _.
        rewrite Hnext, !decide_False by tauto. done.
    + intros j Hj. apply (links_same g); [|apply Hold; lia]. intros q _.
      rewrite Hnext, !decide_False by (intros [_ ?]; lia). done.
Qed.

End Link.

End WithOrder.

End link_proofs.

(** ** [insertNext] and [Insert] *)

Module insert_proofs.
Import marena marena_spec marena_facts marena_proofs memory_facts.
Import mskip mskip_spec chain_facts frame_facts search_proofs update_facts link_proofs.

Lemma Remaining_bounds a :
  0 <= cursor a <= size a -> size a <= 2 ^ 31 -> Remaining a = size a - cursor a.
Proof. intros Hc Hs. unfold Remaining. apply wrap_i64_id. unfold is_i64. lia. Qed.

Lemma len_is_i64 (s : list byte) : len_ok s -> is_i64 (Z.of_nat (length s)).
Proof. unfold len_ok, is_i64. lia. Qed.

Lemma alloc_fails_nil a :
  0 <= cursor a <= size a -> size a <= 2 ^ 31 -> ~ alloc_fails a [].
Proof.
  intros Hc Hs [Hex|Hgt]; [by apply Exists_nil in Hex|].
  rewrite Remaining_bounds in Hgt by done. simpl in Hgt. lia.
Qed.

Lemma sizes_small_or_big (r : list Z) :
  Forall (fun s => s <= ARENA_MAX_ALLOC_SIZE) r \/
  Exists (fun s => s > ARENA_MAX_ALLOC_SIZE) r.
Proof.
  induction r as [|s r [IH|IH]]; [by left | |].
  - destruct (decide (s <= ARENA_MAX_ALLOC_SIZE)).
    + left. by constructor.
    + right. apply Exists_cons. left. lia.
  - right. apply Exists_cons. by right.
Qed.

Lemma alloc_fails_app_l a r1 r2 :
  0 <= cursor a <= size a -> size a <= 2 ^ 31 ->
  Forall (fun s => 0 <= s) r2 ->
  alloc_fails a r1 -> alloc_fails a (r1 ++ r2).
Proof.
  intros Hc Hs Hpos [Hex|Hgt]; [left; apply Exists_app; by left|].
  destruct (sizes_small_or_big r2) as [Hle|Hbig].
  - right. rewrite aligned_total_app.
    assert (Forall (fun s => 0 <= s <= ARENA_MAX_ALLOC_SIZE) r2) as Hall.
    { rewrite Forall_forall in *. intros s Hin. split; auto. }
    pose proof (aligned_total_bounds r2 Hall). lia.
  - left. apply Exists_app. by right.
Qed.

Lemma assign_two n k c :
  0 <= n <= ARENA_MAX_ALLOC_SIZE -> 0 <= k <= ARENA_MAX_ALLOC_SIZE -> 0 <= c <= 2 ^ 31 ->
  assign [n; k] c = [pack c n; pack (c + align n) k].
Proof.
  intros Hn Hk Hc. pose proof (align_max n Hn). unfold ARENA_MAX_ALLOC_SIZE in *.
  cbn [assign]. rewrite (wrap_i64_id n), (wrap_i64_id k) by (unfold is_i64; lia).
  rewrite wrap_i64_id by (unfold is_i64; lia). done.
Qed.

Lemma newNodeRequest_eq lvl key :
  1 <= lvl <= 24 -> len_ok key ->
  newNodeRequest lvl key = [24 + 4 * lvl; Z.of_nat (length key)].
Proof.
  intros Hl Hk. unfold newNodeRequest, len_ok in *. rewrite sizeNode_eq by done.
  rewrite !wrap_u64_id by (unfold is_u64; lia). done.
Qed.

Section WithOrder.

Context (compare : list byte -> list byte -> Z).
Context (Hord : total_order compare).

Lemma Rep_bounds g L :
  Rep compare g L ->
  ARENA_MIN_ADDRESS <= cursor (arena g) <= size (arena g) /\ size (arena g) <= 2 ^ 31.
Proof. intros (Hc & [Hh _] & _). lia. Qed.

Lemma insertNext_update_spec g A e B value :
  Rep compare g (A ++ e :: B) -> len_ok (slice_bytes value) ->
  exists r g', insertNext_update g (e_off e) value = Some (r, g') /\
    ((r = ARENA_INVALID_ADDRESS /\ g' = g /\ alloc_fails (arena g) (value_request value))
     \/ (r = e_off e /\ ~ alloc_fails (arena g) (value_request value) /\
         Rep compare g' (A ++ MkEntry (e_off e) (e_key e) (e_lvl e) value :: B))).
Proof.
  intros Hrep Hlen. pose proof (Rep_bounds g _ Hrep) as [Hc Hs].
  unfold ARENA_MIN_ADDRESS in Hc.
  assert (node_ok g e) as (nd & Hnd & _) by (eapply Rep_entry; [done | set_solver]).
  unfold insertNext_update. destruct value as [v|].
  - simpl in Hlen. apply len_is_i64 in Hlen.
    destruct (Allocate_cases_bounds (arena g) (Z.of_nat (length v)))
      as [[Hwhy ->]|(Hv & Hfit & ->)]; [lia | lia | done | |].
    + cbv beta iota zeta. change (ARENA_INVALID_ADDRESS =? ARENA_INVALID_ADDRESS) with true.
      cbv iota. rewrite set_arena_id. eexists _, _. split; [done|]. left.
      split; [done|]. split; [done|]. unfold alloc_fails, value_request.
      rewrite Remaining_bounds by lia.
      unfold is_i64 in Hlen. rewrite wrap_u64_id in Hwhy by (unfold is_u64; lia).
      destruct Hwhy; [left; apply Exists_cons; by left | right].
      rewrite aligned_total_cons. simpl. lia.
    + cbv beta iota zeta. unfold ARENA_MAX_ALLOC_SIZE in Hv.
      pose proof (align_bounds (Z.of_nat (length v)) ltac:(lia)) as Hal.
      destruct (Z.eqb_spec (pack (cursor (arena g)) (Z.of_nat (length v)))
                  ARENA_INVALID_ADDRESS) as [Hz|_].
      { exfalso. revert Hz. apply pack_nonzero; lia. }
      rewrite copy_to_view_pack by (unfold ARENA_MIN_ADDRESS; simpl; lia).
      set (a1 := with_cells _ _).
      rewrite (set_valuePtr_Some _ _ _ nd) by exact Hnd. simpl.
      eexists _, _. split; [done|]. right. split; [done|]. split.
      { unfold alloc_fails, value_request. rewrite Remaining_bounds by lia.
        intros [Hex|Hgt].
        - apply Exists_cons in Hex as [Hex|Hex]; [unfold ARENA_MAX_ALLOC_SIZE in Hex; lia|].
          by apply Exists_nil in Hex.
        - rewrite aligned_total_cons in Hgt. simpl in Hgt. lia. }
      apply Rep_set_value; [done | done | | | done |].
      * eapply agree_below_trans; [apply agree_below_set_cursor|].
        apply agree_below_write. simpl. lia.
      * simpl. lia.
      * split; [apply pack_nonzero; lia|].
        apply block_at_pack; simpl; unfold ARENA_MIN_ADDRESS; try lia.
        apply read_write_same.
  - rewrite (set_valuePtr_Some _ _ _ nd) by exact Hnd. simpl.
    eexists _, _. split; [done|]. right. split; [done|].
    split; [apply alloc_fails_nil; lia|].
    pose proof (Rep_set_value compare g (arena g) A e B nd ARENA_INVALID_ADDRESS None)
      as Hset.
    rewrite set_arena_id in Hset.
    apply Hset; [done | done | apply agree_below_refl | lia | done | done].
Qed.

Lemma sorted_insert key A eN B :
  e_key eN = key ->
  Forall (fun e => compare key (e_key e) > 0) A ->
  Forall (fun e => compare key (e_key e) < 0) B ->
  StronglySorted (key_lt compare) (A ++ B) ->
  StronglySorted (key_lt compare) (A ++ eN :: B).
Proof.
  intros Hk HA HB. rewrite !StronglySorted_app, StronglySorted_cons.
  intros (Hab & HsA & HsB). rewrite Forall_forall in HA, HB.
  split; [|split; [done|split; [|done]]].
  - intros x1 x2 Hx1 [->|Hx2]%elem_of_cons; [|by apply Hab].
    unfold key_lt. rewrite Hk. apply (compare_gt_lt compare Hord). by apply HA.
  - apply Forall_forall. intros y Hy. unfold key_lt. rewrite Hk. by apply HB.
Qed.

Lemma NoDup_insert_mid (h c : Z) X Y :
  NoDup (h :: X ++ Y) -> c ∉ h :: X ++ Y -> NoDup (h :: X ++ c :: Y).
Proof.
  intros Hnd Hc. apply NoDup_cons in Hnd as [Hh HXY].
  apply NoDup_app in HXY as (HX & Hdisj & HY).
  rewrite not_elem_of_cons, not_elem_of_app in Hc. destruct Hc as (Hch & HcX & HcY).
  rewrite not_elem_of_app in Hh. destruct Hh as [HhX HhY].
  apply NoDup_cons. split.
  - rewrite not_elem_of_app, not_elem_of_cons. split; [done|]. split; [congruence | done].
  - apply NoDup_app. split; [done|]. split.
    + intros x Hx. rewrite not_elem_of_cons. split; [by intros -> | by apply Hdisj].
    + by apply NoDup_cons.
Qed.

(** Linking a fresh, initialised record at the cursor of [g] puts its entry
    in key order. *)
Lemma link_new_node g g3 A B log key value lvl ndN :
  Rep compare g (A ++ B) ->
  Forall (fun e => compare key (e_key e) > 0) A ->
  Forall (fun e => compare key (e_key e) < 0) B ->
  (forall i, (i < 24)%nat -> log !! i = Some (last_or (head g) (chain_at i A))) ->
  1 <= lvl <= 24 ->
  head g3 = head g ->
  agree_below (cursor (arena g)) (arena g) (arena g3) ->
  cursor (arena g) < cursor (arena g3) <= size (arena g3) ->
  (forall q, getNode g3 q
             = if decide (q = cursor (arena g)) then Some ndN else getNode g q) ->
  level ndN = lvl -> length (nexts ndN) = Z.to_nat lvl ->
  block_at (arena g3) (keyPtr ndN) key ->
  value_at (arena g3) (valuePtr ndN) value ->
  exists g4,
    link_loop g3 log (cursor (arena g)) (Z.to_nat lvl) 0 = Some g4 /\
    Rep compare g4 (A ++ MkEntry (cursor (arena g)) key (Z.to_nat lvl) value :: B).
Proof.
  intros Hrep HA HB Hlog Hlvl Hh Hag Hcur Hget Hlv Hlen Hkey Hval.
  set (c := cursor (arena g)) in *.
  pose proof (Rep_bounds g _ Hrep) as [Hc Hs]. fold c in Hc.
  pose proof (fun q => Rep_offsets compare g _ q Hrep) as Hoff. fold c in Hoff.
  assert (Rep compare g3 (A ++ B)) as Hrep3.
  { apply (Rep_extend compare g); [done | done | done | fold c; lia | |].
    - intros q Hq. fold c in Hq. rewrite Hget, decide_False by lia. done.
    - intros q nd. rewrite Hget. destruct (decide (q = c)) as [->|]; [intros _; lia|].
      intros Hq. destruct Hrep as (_ & _ & _ & _ & _ & Hb & _). apply Hb in Hq.
      fold c in Hq. lia. }
  assert (c ∉ head g3 :: offs (A ++ B) ++ [0]) as Hfresh.
  { rewrite Hh. intros Hin. apply Hoff in Hin. lia. }
  destruct (link_loop_spec compare g3 A B c (Z.to_nat lvl) log Hrep3 Hfresh)
    with (n := Z.to_nat lvl) (i := 0%nat) (g := g3)
    as (g4 & Hrun & Hsf & Hnew & Hold).
  { exists ndN. by rewrite Hget, decide_True. }
  { lia. }
  { intros i Hi. rewrite Hh. by apply Hlog. }
  { lia. }
  { apply same_frame_refl. }
  { intros j Hj. lia. }
  { intros j Hj. destruct Hrep3 as (_ & _ & _ & _ & _ & _ & Hl). apply Hl. lia. }
  exists g4. split; [done|].
  pose proof Hsf as (Hh4 & Hcells4 & Hsz4 & Hcur4 & _).
  pose proof Hag as [Hsz3 _].
  pose proof Hrep3 as (Hc3 & Hhead3 & Hnd3 & Hall3 & Hs3 & Hb3 & _).
  split; [lia|]. split; [by eapply head_ok_same_frame|]. split.
  { rewrite Hh4. unfold offs. rewrite fmap_app, fmap_cons. simpl.
    apply NoDup_insert_mid.
    - unfold offs in Hnd3. by rewrite fmap_app in Hnd3.
    - intros Hin. apply Hfresh. unfold offs. rewrite fmap_app.
      apply elem_of_cons in Hin as [->|Hin]; [by left|]. right.
      apply elem_of_app. by left. }
  split.
  { apply Forall_app in Hall3 as [HallA HallB].
    apply Forall_app. split; [|constructor].
    - eapply Forall_impl; [exact HallA|]. intros e. by apply node_ok_same_frame.
    - apply (node_ok_same_frame g3); [done|].
      exists ndN. simpl. rewrite Hget, decide_True by done.
      split; [done|]. split; [lia|]. split; [done|]. split; [lia|].
      split; [fold c; lia|]. done.
    - eapply Forall_impl; [exact HallB|]. intros e. by apply node_ok_same_frame. }
  split; [by apply (sorted_insert key)|].
  split; [by eapply records_below_same_frame|].
  intros j Hj. rewrite Hh4, chain_at_app, chain_at_cons, <- app_assoc. simpl e_lvl.
  simpl e_off. destruct (decide (j < Z.to_nat lvl)%nat) as [Hlt|Hge].
  - simpl. apply Hnew. done.
  - simpl. rewrite app_assoc, <- chain_at_app. apply Hold. lia.
Qed.

Lemma insertNext_create_spec g A B log key value :
  Rep compare g (A ++ B) ->
  Forall (fun e => compare key (e_key e) > 0) A ->
  Forall (fun e => compare key (e_key e) < 0) B ->
  (forall i, (i < 24)%nat -> log !! i = Some (last_or (head g) (chain_at i A))) ->
  len_ok key -> len_ok (slice_bytes value) ->
  exists r g', insertNext_create g log key value = Some (r, g') /\
    ((r = ARENA_INVALID_ADDRESS /\
      alloc_fails (arena g) (newNodeRequest (randLevel g).1 key ++ value_request value) /\
      Rep compare g' (A ++ B) /\
      (forall q nd, getNode g q = Some nd -> getNode g' q = Some nd))
     \/ (r = cursor (arena g) /\
         ~ alloc_fails (arena g) (newNodeRequest (randLevel g).1 key ++ value_request value) /\
         Rep compare g'
           (A ++ MkEntry (cursor (arena g)) key (Z.to_nat (randLevel g).1) value :: B))).
Proof.
  intros Hrep HA HB Hlog Hk Hv.
  pose proof (Rep_bounds g _ Hrep) as [Hc Hs]. unfold ARENA_MIN_ADDRESS in Hc.
  pose proof (randLevel_range g) as Hlvl.
  unfold insertNext_create. unfold randLevel in *.
  destruct (randLevel_loop 24 1 (seed g)) as [lvl sd]. simpl fst in *.
  change (arena (set_seed g sd)) with (arena g).
  rewrite (newNodeRequest_eq lvl key) by done.
  assert (0 <= Z.of_nat (length key) < 2 ^ 63) as Hklen by (unfold len_ok in Hk; lia).
  assert (Forall (fun s => 0 <= s) (value_request value)) as Hvpos.
  { destruct value; simpl; repeat constructor. lia. }
  set (c := cursor (arena g)) in *.
  destruct (AllocateMultiple_cases_bounds (arena g) [24 + 4 * lvl; Z.of_nat (length key)])
    as [[Hwhy Heq]|(Hall & Hfit & Heq)]; [lia | lia | | simpl; lia | |].
  { repeat constructor; unfold is_u64; lia. }
  - (* the node and its key do not fit *)
    rewrite Heq. cbv beta iota zeta. eexists _, _. split; [reflexivity|]. left.
    split; [done|]. split.
    { apply alloc_fails_app_l; [lia | lia | done |].
      unfold alloc_fails. rewrite Remaining_bounds by lia.
      destruct Hwhy; [by left | right; fold c; lia]. }
    split; [exact (Rep_set_seed compare g sd _ Hrep) | done].
  - apply Forall_cons in Hall as [Hn Hall]. apply Forall_cons in Hall as [Hkk _].
    pose proof (align_max _ Hn) as Han. pose proof (align_max _ Hkk) as Hak.
    rewrite !aligned_total_cons in Hfit. change (aligned_total []) with 0 in Hfit.
    rewrite Heq, assign_two by (done || lia). cbv beta iota zeta.
    rewrite !aligned_total_cons. change (aligned_total []) with 0.
    unfold ARENA_MAX_ALLOC_SIZE in Hn, Hkk. fold c.
    rewrite Offset_pack by lia.
    set (kc := c + align (24 + 4 * lvl)) in *.
    set (c1 := c + (align (24 + 4 * lvl) + (align (Z.of_nat (length key)) + 0))) in *.
    set (nd0 := MkNode (pack kc (Z.of_nat (length key))) 0 lvl (replicate (Z.to_nat lvl) 0)).
    rewrite copy_to_view_pack by (unfold ARENA_MIN_ADDRESS; simpl; lia).
    set (g2 := set_arena (set_seed g sd) _).
    assert (head g2 = head g) as Hh2 by done.
    assert (cursor (arena g2) = c1) as Hcur2 by done.
    assert (size (arena g2) = size (arena g)) as Hsz2 by done.
    assert (forall q, getNode g2 q = if decide (q = c) then Some nd0 else getNode g q)
      as Hget2.
    { intros q. unfold getNode, g2. simpl. rewrite lookup_insert.
      destruct (decide (c = q)), (decide (q = c)); congruence. }
    assert (agree_below c (arena g) (arena g2)) as Hag2.
    { split; [done|]. intros off n Hn'. unfold g2. simpl.
      apply read_write_disjoint. lia. }
    assert (block_at (arena g2) (pack kc (Z.of_nat (length key))) key) as Hkey2.
    { apply block_at_pack; unfold ARENA_MIN_ADDRESS; try lia.
      unfold g2. simpl. apply read_write_same. }
    assert (Rep compare g2 (A ++ B)) as Hrep2.
    { apply (Rep_extend compare g); [done | done | done | fold c; lia | |].
      - intros q Hq. fold c in Hq. rewrite Hget2, decide_False by lia. done.
      - intros q nd. rewrite Hget2, Hcur2.
        destruct (decide (q = c)) as [->|]; [intros _; lia|].
        intros Hq. destruct Hrep as (_ & _ & _ & _ & _ & Hb & _). apply Hb in Hq.
        fold c in Hq. lia. }
    assert (forall q nd, getNode g q = Some nd -> getNode g2 q = Some nd) as Hkeep2.
    { intros q nd Hq. rewrite Hget2, decide_False; [done|].
      destruct Hrep as (_ & _ & _ & _ & _ & Hb & _). apply Hb in Hq. fold c in Hq. lia. }
    destruct value as [v|].
    + (* a value block is needed as well *)
      simpl in Hv. apply len_is_i64 in Hv.
      destruct (Allocate_cases_bounds (arena g2) (Z.of_nat (length v)))
        as [[Hwhy Heqv]|(Hvv & Hfitv & Heqv)]; [lia | lia | done | |].
      * rewrite Heqv. cbv beta iota zeta.
        change (ARENA_INVALID_ADDRESS =? ARENA_INVALID_ADDRESS) with true. cbv iota.
        rewrite set_arena_id. eexists _, _. split; [reflexivity|]. left.
        split; [done|]. split; [|done].
        unfold alloc_fails, value_request. rewrite Remaining_bounds by lia.
        rewrite aligned_total_app, !aligned_total_cons. change (aligned_total []) with 0.
        unfold is_i64 in Hv. rewrite wrap_u64_id in Hwhy by (unfold is_u64; lia).
        destruct Hwhy; [left; apply Exists_app; right; apply Exists_cons; by left|].
        right. fold c. lia.
      * rewrite Heqv. cbv beta iota zeta. unfold ARENA_MAX_ALLOC_SIZE in Hvv.
        pose proof (align_bounds (Z.of_nat (length v)) ltac:(lia)) as Hal.
        destruct (Z.eqb_spec (pack (cursor (arena g2)) (Z.of_nat (length v)))
                    ARENA_INVALID_ADDRESS) as [Hz|_].
        { exfalso. revert Hz. apply pack_nonzero; lia. }
        rewrite copy_to_view_pack by (unfold ARENA_MIN_ADDRESS; simpl; lia).
        set (a3 := with_cells _ _).
        rewrite (set_valuePtr_Some _ _ _ nd0)
          by (unfold getNode; simpl; apply lookup_insert_eq).
        cbn [mbind option_bind]. simpl keyPtr. simpl level. simpl nexts.
        set (ndN := MkNode _ _ lvl _). set (g3 := putNode _ c ndN).
        assert (agree_below (cursor (arena g)) (arena g) (arena g3)) as Hag3.
        { eapply agree_below_trans; [exact Hag2|].
          apply (agree_below_le (cursor (arena g2))); [lia|].
          split; [done|]. intros off n Hn'. unfold g3, a3. simpl.
          apply read_write_disjoint. simpl in Hn'. lia. }
        assert (cursor (arena g) < cursor (arena g3) <= size (arena g3)) as Hcur3.
        { unfold g3, a3. simpl. fold c. lia. }
        assert (forall q, getNode g3 q
                  = if decide (q = cursor (arena g)) then Some ndN else getNode g q)
          as Hget3.
        { intros q. unfold g3. rewrite getNode_putNode. fold c.
          destruct (decide (c = q)) as [<-|Hne]; [by rewrite decide_True|].
          assert (q <> c) as Hne' by (intros Hqc; by apply Hne).
          rewrite decide_False by exact Hne'.
          change (getNode (set_arena g2 a3) q) with (getNode g2 q).
          rewrite Hget2, decide_False by exact Hne'. done. }
        assert (length (nexts ndN) = Z.to_nat lvl) as Hlen3.
        { unfold ndN. simpl. by rewrite length_replicate. }
        assert (block_at (arena g3) (keyPtr ndN) key) as Hkey3.
        { eapply block_at_frame; [| |exact Hkey2].
          - split; [done|]. intros off n Hn'. unfold g3, a3. simpl.
            apply read_write_disjoint. simpl in Hn'. lia.
          - unfold g3, a3. simpl. lia. }
        assert (value_at (arena g3) (valuePtr ndN) (Some v)) as Hval3.
        { split; [apply pack_nonzero; lia|].
          apply block_at_pack; unfold ARENA_MIN_ADDRESS; try (simpl; lia).
          unfold g3, a3. simpl. apply read_write_same. }
        destruct (link_new_node g g3 A B log key (Some v) lvl ndN
                    Hrep HA HB Hlog Hlvl eq_refl Hag3 Hcur3 Hget3 eq_refl Hlen3 Hkey3 Hval3)
          as (g4 & Hrun & Hrep4).
        fold c in Hrun, Hrep4. eexists _, _. split; [rewrite Hrun; reflexivity|]. right.
        split; [done|]. split; [|done].
        unfold alloc_fails, value_request. rewrite Remaining_bounds by lia.
        rewrite aligned_total_app, !aligned_total_cons.
        change (aligned_total []) with 0. fold c.
        intros [Hex|Hgt]; [|simpl in *; lia].
        apply Exists_app in Hex as [Hex|Hex].
        -- apply Exists_cons in Hex as [?|Hex]; [unfold ARENA_MAX_ALLOC_SIZE in *; lia|].
           apply Exists_cons in Hex as [?|Hex]; [unfold ARENA_MAX_ALLOC_SIZE in *; lia|].
           by apply Exists_nil in Hex.
        -- apply Exists_cons in Hex as [?|Hex]; [unfold ARENA_MAX_ALLOC_SIZE in *; lia|].
           by apply Exists_nil in Hex.
    + (* a tombstone: no value block *)
      rewrite (set_valuePtr_Some _ _ _ nd0) by (rewrite Hget2, decide_True; done).
      cbn [mbind option_bind]. simpl keyPtr. simpl level. simpl nexts.
      set (ndN := MkNode _ _ lvl _). set (g3 := putNode g2 c ndN).
      assert (agree_below (cursor (arena g)) (arena g) (arena g3)) as Hag3.
      { eapply agree_below_trans; [exact Hag2|]. apply agree_below_put_record. }
      assert (cursor (arena g) < cursor (arena g3) <= size (arena g3)) as Hcur3.
      { unfold g3. simpl. fold c. lia. }
      assert (forall q, getNode g3 q
                = if decide (q = cursor (arena g)) then Some ndN else getNode g q)
        as Hget3.
      { intros q. unfold g3. rewrite getNode_putNode, Hget2. fold c.
        destruct (decide (c = q)) as [<-|Hne]; [by rewrite decide_True|].
        assert (q <> c) as Hne' by (intros Hqc; by apply Hne).
        rewrite !decide_False by exact Hne'. done. }
      assert (length (nexts ndN) = Z.to_nat lvl) as Hlen3.
      { unfold ndN. simpl. by rewrite length_replicate. }
      assert (block_at (arena g3) (keyPtr ndN) key) as Hkey3.
      { eapply block_at_frame; [| |exact Hkey2].
        - apply agree_below_put_record.
        - unfold g3. simpl. lia. }
      destruct (link_new_node g g3 A B log key None lvl ndN
                  Hrep HA HB Hlog Hlvl eq_refl Hag3 Hcur3 Hget3 eq_refl Hlen3 Hkey3 eq_refl)
        as (g4 & Hrun & Hrep4).
      fold c in Hrun, Hrep4. eexists _, _. split; [rewrite Hrun; reflexivity|]. right.
      split; [done|]. split; [|done].
      unfold alloc_fails, value_request. rewrite Remaining_bounds by lia.
      rewrite app_nil_r, !aligned_total_cons. change (aligned_total []) with 0. fold c.
      intros [Hex|Hgt]; [|lia].
      apply Exists_cons in Hex as [?|Hex]; [unfold ARENA_MAX_ALLOC_SIZE in *; lia|].
      apply Exists_cons in Hex as [?|Hex]; [unfold ARENA_MAX_ALLOC_SIZE in *; lia|].
      by apply Exists_nil in Hex.
Qed.

(** What [Insert] does to a list that holds the entries [L]. *)
Lemma Insert_spec g L key value :
  Rep compare g L -> len_ok key -> len_ok (slice_bytes value) ->
  exists r g' L',
    Insert compare g key value = Some (r, g') /\ Rep compare g' L' /\
    ((exists A e B, L = A ++ e :: B /\ e_key e = key /\
        ((r = false /\ g' = g /\ L' = L /\
          alloc_fails (arena g) (value_request value)) \/
         (r = true /\ ~ alloc_fails (arena g) (value_request value) /\
          L' = A ++ MkEntry (e_off e) (e_key e) (e_lvl e) value :: B)))
     \/ (Forall (fun e => e_key e <> key) L /\
         exists A B, L = A ++ B /\
           Forall (fun e => compare key (e_key e) > 0) A /\
           Forall (fun e => compare key (e_key e) < 0) B /\
           ((r = false /\ L' = L /\
             alloc_fails (arena g)
               (newNodeRequest (randLevel g).1 key ++ value_request value) /\
             (forall q nd, getNode g q = Some nd -> getNode g' q = Some nd)) \/
            (r = true /\
             ~ alloc_fails (arena g)
                 (newNodeRequest (randLevel g).1 key ++ value_request value) /\
             L' = A ++ MkEntry (cursor (arena g)) key
                        (Z.to_nat (randLevel g).1) value :: B)))).
Proof.
  intros Hrep Hk Hv.
  pose proof (Rep_bounds g _ Hrep) as [Hc Hs]. unfold ARENA_MIN_ADDRESS in Hc.
  pose proof Hrep as (_ & _ & _ & _ & Hsorted & _).
  destruct (sorted_split compare Hord key L Hsorted) as (A & B & -> & HA & HB).
  destruct (seeklt_spec compare Hord g key A B Hrep HA HB (Some zero_log) eq_refl)
    as (log & Hrun & Hloglen & Hlog).
  unfold Insert. rewrite Hrun. cbn [mbind option_bind]. cbv beta iota.
  unfold insertNext. rewrite (Hlog 0%nat) by lia. cbn [mbind option_bind].
  pose proof (links_from_pred compare g A B Hrep 0 ltac:(lia)) as Hl0.
  apply links_head in Hl0. rewrite Hl0. cbn [mbind option_bind].
  assert (forall (Bs : list entry),
            Forall (fun e => compare key (e_key e) < 0) Bs ->
            Forall (fun e => e_key e <> key) (A ++ Bs)) as Hfresh.
  { intros Bs HBs. apply Forall_app. split.
    - eapply Forall_impl; [exact HA|]. simpl. intros x Hx Heq.
      rewrite Heq, (compare_refl compare Hord) in Hx. lia.
    - eapply Forall_impl; [exact HBs|]. simpl. intros x Hx Heq.
      rewrite Heq, (compare_refl compare Hord) in Hx. lia. }
  assert (forall Bs, Rep compare g (A ++ Bs) ->
            Forall (fun e => compare key (e_key e) < 0) Bs ->
            exists r g' L',
              (insertNext_create g log key value
                 ≫= λ '(r, g'), Some (negb (r =? ARENA_INVALID_ADDRESS), g'))
              = Some (r, g') /\ Rep compare g' L' /\
              Forall (fun e => e_key e <> key) (A ++ Bs) /\
              exists A0 B0, A ++ Bs = A0 ++ B0 /\
                Forall (fun e => compare key (e_key e) > 0) A0 /\
                Forall (fun e => compare key (e_key e) < 0) B0 /\
                ((r = false /\ L' = A ++ Bs /\
                  alloc_fails (arena g)
                    (newNodeRequest (randLevel g).1 key ++ value_request value) /\
                  (forall q nd, getNode g q = Some nd -> getNode g' q = Some nd)) \/
                 (r = true /\
                  ~ alloc_fails (arena g)
                      (newNodeRequest (randLevel g).1 key ++ value_request value) /\
                  L' = A0 ++ MkEntry (cursor (arena g)) key
                              (Z.to_nat (randLevel g).1) value :: B0))) as Hcreate.
  { intros Bs HrepBs HBs.
    destruct (insertNext_create_spec g A Bs log key value HrepBs HA HBs Hlog Hk Hv)
      as (r & g' & Hins & [(-> & Hfail & Hrep' & Hkeep)|(-> & Hok & Hrep')]);
      rewrite Hins; cbn [mbind option_bind]; cbv beta iota.
    - eexists _, _, _. split; [reflexivity|]. split; [exact Hrep'|].
      split; [by apply Hfresh|]. exists A, Bs. split; [done|]. split; [done|].
      split; [done|]. left. done.
    - eexists _, _, _. split; [reflexivity|]. split; [exact Hrep'|].
      split; [by apply Hfresh|]. exists A, Bs. split; [done|]. split; [done|].
      split; [done|]. right. split; [|done].
      destruct (Z.eqb_spec (cursor (arena g)) ARENA_INVALID_ADDRESS) as [Hz|]; [|done].
      unfold ARENA_INVALID_ADDRESS in Hz. lia. }
  destruct B as [|e B].
  - (* no key at or above [key] *)
    simpl. destruct (Hcreate [] Hrep ltac:(constructor))
      as (r & g' & L' & Hins & Hrep' & Hnone & Hcase).
    exists r, g', L'. split; [exact Hins|]. split; [done|]. right. done.
  - assert (node_ok g e) as Hoke by (eapply Rep_entry; [done | set_solver]).
    destruct (node_ok_key g e Hoke) as [Hnz Hkey].
    pose proof Hoke as (_ & _ & _ & _ & Hlv & _).
    rewrite chain_at_cons, decide_True by lia. simpl hd.
    destruct (Z.eqb_spec (e_off e) ARENA_INVALID_ADDRESS) as [|_]; [done|].
    rewrite Hkey. cbn [mbind option_bind]. simpl slice_bytes.
    apply Forall_cons in HB as [He HB].
    destruct (Z.eqb_spec (compare key (e_key e)) 0) as [Hz|Hnz'].
    + (* the key is there *)
      apply (compare_eq compare Hord) in Hz.
      destruct (insertNext_update_spec g A e B value Hrep Hv)
        as (r & g' & Hins & [(-> & -> & Hfail)|(-> & Hok & Hrep')]);
        rewrite Hins; cbn [mbind option_bind]; cbv beta iota.
      * eexists _, _, _. split; [reflexivity|]. split; [exact Hrep|]. left.
        exists A, e, B. split; [done|]. split; [done|]. left. done.
      * eexists _, _, _. split; [reflexivity|]. split; [exact Hrep'|]. left.
        exists A, e, B. split; [done|]. split; [done|]. right.
        split; [|done].
        destruct (Z.eqb_spec (e_off e) ARENA_INVALID_ADDRESS); done.
    + (* the next key is above *)
      assert (Forall (fun x => compare key (e_key x) < 0) (e :: B)) as HB'.
      { constructor; [lia|].
        apply StronglySorted_app_1_r in Hsorted.
        apply StronglySorted_cons in Hsorted as [Hlt _].
        eapply Forall_impl; [exact Hlt|]. unfold key_lt. intros x Hx.
        apply (compare_trans compare Hord _ (e_key e)); [lia | done]. }
      destruct (Hcreate (e :: B) Hrep HB')
        as (r & g' & L' & Hins & Hrep' & Hnone & Hcase).
      exists r, g', L'. split; [exact Hins|]. split; [done|]. right. done.
Qed.

(** Every list built by [NewSkipList] and [Insert] holds some entries. *)
Lemma reachable_Rep g : reachable compare g -> exists L, Rep compare g L.
Proof.
  induction 1 as [a sd g Ha Hg|g key value r g' _ [L IH] Hk Hv Hins].
  - exists []. by eapply NewSkipList_Rep.
  - destruct (Insert_spec g L key value IH Hk Hv) as (r0 & g0 & L' & Hins0 & Hrep' & _).
    rewrite Hins in Hins0. injection Hins0 as <- <-. by exists L'.
Qed.

End WithOrder.

End insert_proofs.

(** ** Walking the list: [linked], the iterator *)

Module iterator_proofs.
Import marena marena_spec marena_facts marena_proofs memory_facts.
Import mskip mskip_spec chain_facts frame_facts search_proofs update_facts link_proofs.
Import insert_proofs.

Lemma chain0_spec fuel g p l :
  links g 0 (p :: l ++ [0]) -> Forall (fun x => x <> 0) l -> (length l < fuel)%nat ->
  chain0 fuel g p = Some l.
Proof.
  revert p fuel. induction l as [|x l IH]; intros p fuel Hl Hnz Hfuel.
  - destruct fuel as [|fuel]; [simpl in Hfuel; lia|].
    simpl in Hl. destruct Hl as [Hp _]. simpl. rewrite Hp. done.
  - destruct fuel as [|fuel]; [simpl in Hfuel; lia|].
    change (links g 0 (p :: x :: l ++ [0])) in Hl. destruct Hl as [Hp Hl].
    apply Forall_cons in Hnz as [Hx Hnz].
    simpl. rewrite Hp. simpl.
    destruct (Z.eqb_spec x ARENA_INVALID_ADDRESS); [done|].
    rewrite (IH x fuel Hl Hnz) by (simpl in Hfuel; lia). done.
Qed.

Lemma first_live_app_tomb T L :
  Forall (fun e => e_val e = None) T -> first_live (T ++ L) = first_live L.
Proof. induction 1 as [|e T He _ IH]; [done|]. simpl. by rewrite He. Qed.

Lemma live_cons e L :
  live (e :: L) = match e_val e with
                  | Some v => (Some (e_key e), Some v) :: live L
                  | None => live L
                  end.
Proof. unfold live. simpl. by destruct (e_val e). Qed.

Lemma Value_at g e :
  node_ok g e -> Value (MkIter g (e_off e)) = Some (e_val e).
Proof.
  intros (nd & Hnd & _ & _ & _ & Hoff & _ & Hv). unfold ARENA_MIN_ADDRESS in Hoff.
  unfold Value, Valid. simpl.
  destruct (Z.eqb_spec (e_off e) ARENA_INVALID_ADDRESS) as [Hz|_];
    [unfold ARENA_INVALID_ADDRESS in Hz; lia|].
  simpl. rewrite Hnd. simpl. destruct (e_val e) as [v|]; simpl in Hv.
  - destruct Hv as [Hnz [Hview _]].
    destruct (Z.eqb_spec (valuePtr nd) ARENA_INVALID_ADDRESS); [done|]. by rewrite Hview.
  - rewrite Hv. done.
Qed.

Lemma Key_at g e :
  node_ok g e -> Key (MkIter g (e_off e)) = Some (Some (e_key e)).
Proof.
  intros Hok. destruct (node_ok_key g e Hok) as [Hnz Hk].
  unfold Key, Valid. simpl.
  destruct (Z.eqb_spec (e_off e) ARENA_INVALID_ADDRESS); [done|]. done.
Qed.

(** [Next] skips the tombstones ahead. *)
Lemma Next_loop_spec fuel g p L :
  links g 0 (p :: offs L ++ [0]) -> Forall (node_ok g) L -> (length L < fuel)%nat ->
  Next_loop fuel (MkIter g p) = Some (MkIter g (first_live L)).
Proof.
  revert p fuel. induction L as [|e L IH]; intros p fuel Hl Hall Hfuel.
  - destruct fuel as [|fuel]; [simpl in Hfuel; lia|].
    simpl in Hl. destruct Hl as [Hp _]. simpl. rewrite Hp. done.
  - destruct fuel as [|fuel]; [simpl in Hfuel; lia|].
    change (links g 0 (p :: e_off e :: offs L ++ [0])) in Hl. destruct Hl as [Hp Hl].
    apply Forall_cons in Hall as [He Hall].
    destruct (node_ok_key g e He) as [Hnz _].
    cbn [Next_loop skl current]. rewrite Hp. cbn [mbind option_bind].
    unfold set_current. cbn [skl current]. unfold Valid at 1. cbn [current].
    destruct (Z.eqb_spec (e_off e) ARENA_INVALID_ADDRESS); [done|]. cbn [negb].
    rewrite (Value_at g e He). cbn [mbind option_bind]. cbn [first_live].
    destruct (e_val e) as [v|].
    + rewrite bool_decide_true by done. done.
    + rewrite bool_decide_false by (intros Hne; by apply Hne).
      apply IH; [done | done | simpl in Hfuel; lia].
Qed.

Section WithOrder.

Context (compare : list byte -> list byte -> Z).
Context (Hord : total_order compare).

Lemma Rep_levels g L : Rep compare g L -> Forall (fun e => (1 <= e_lvl e)%nat) L.
Proof.
  intros (_ & _ & _ & Hall & _). eapply Forall_impl; [exact Hall|].
  intros e (nd & _ & _ & _ & ? & _). lia.
Qed.

Lemma Rep_links0 g L : Rep compare g L -> links g 0 (head g :: offs L ++ [0]).
Proof.
  intros Hrep. pose proof (Rep_levels g L Hrep) as Hlv.
  destruct Hrep as (_ & _ & _ & _ & _ & _ & Hl).
  specialize (Hl 0%nat ltac:(lia)). by rewrite chain_at_0 in Hl.
Qed.

Lemma Rep_offs_nonzero g L : Rep compare g L -> Forall (fun x => x <> 0) (offs L).
Proof.
  intros (_ & _ & _ & Hall & _). unfold offs. apply Forall_fmap.
  eapply Forall_impl; [exact Hall|]. intros e He. by destruct (node_ok_key g e He).
Qed.

Lemma linked_spec g L : Rep compare g L -> linked g = Some (offs L).
Proof.
  intros Hrep. unfold linked. apply chain0_spec.
  - by apply Rep_links0.
  - by eapply Rep_offs_nonzero.
  - pose proof (Rep_length compare g L Hrep). unfold offs. rewrite length_fmap. lia.
Qed.

Lemma Rep_Iterator g L : Rep compare g L -> Rep compare (skl (Iterator g)) L.
Proof.
  intros Hrep. apply (Rep_extend compare g).
  - done.
  - done.
  - apply agree_below_refl.
  - destruct Hrep as (Hc & _). simpl. lia.
  - done.
  - by destruct Hrep as (_ & _ & _ & _ & _ & Hb & _).
Qed.

Lemma Next_at g L p rest :
  Rep compare g L -> p <> 0 -> links g 0 (p :: offs rest ++ [0]) ->
  Forall (node_ok g) rest -> (length rest <= length L)%nat ->
  Next (MkIter g p) = Some (Valid (MkIter g (first_live rest)), MkIter g (first_live rest)).
Proof.
  intros Hrep Hp Hl Hall Hlen. unfold Next. unfold Valid at 1. cbn [current].
  destruct (Z.eqb_spec p ARENA_INVALID_ADDRESS); [done|]. cbn [negb skl].
  rewrite (Next_loop_spec _ g p rest Hl Hall); [done|].
  pose proof (Rep_length compare g L Hrep). lia.
Qed.

Lemma collect_spec fuel g L rest :
  Rep compare g L -> links g 0 (offs rest ++ [0]) ->
  Forall (node_ok g) rest -> (length rest <= length L)%nat -> (length rest < fuel)%nat ->
  collect fuel (MkIter g (first_live rest)) = Some (live rest).
Proof.
  intros Hrep. revert fuel. induction rest as [|e rest IH]; intros fuel Hl Hall Hlen Hfuel.
  - destruct fuel as [|fuel]; [simpl in Hfuel; lia|]. done.
  - apply Forall_cons in Hall as [He Hall].
    pose proof (links_tail _ _ _ _ Hl) as Hl'. simpl in Hlen.
    rewrite live_cons. cbn [first_live].
    destruct (e_val e) as [v|] eqn:Hval.
    + destruct fuel as [|fuel]; [simpl in Hfuel; lia|].
      destruct (node_ok_key g e He) as [Hnz _].
      cbn [collect]. unfold Valid at 1. cbn [current].
      destruct (Z.eqb_spec (e_off e) ARENA_INVALID_ADDRESS); [done|]. cbn [negb].
      rewrite (Key_at g e He), (Value_at g e He), Hval. cbn [mbind option_bind].
      rewrite (Next_at g L (e_off e) rest Hrep Hnz Hl Hall) by lia.
      cbn [mbind option_bind]. cbv beta iota.
      rewrite IH; [done | done | done | lia | simpl in Hfuel; lia].
    + apply IH; [done | done | lia | simpl in Hfuel; lia].
Qed.

(** Forward iteration yields the live entries, in key order. *)
Lemma forward_spec g L : Rep compare g L -> forward g = Some (live L).
Proof.
  intros Hrep0. pose proof (Rep_Iterator g L Hrep0) as Hrep.
  unfold forward, First. change (Iterator g) with (MkIter (skl (Iterator g)) 0).
  set (g1 := skl (Iterator g)) in *.
  unfold set_current. cbn [skl].
  pose proof Hrep as (_ & [Hh _] & _ & Hall & _). unfold ARENA_MIN_ADDRESS in Hh.
  rewrite (Next_at g1 L (head g1) L Hrep) by (lia || done || by apply Rep_links0).
  cbn [mbind option_bind]. cbv beta iota.
  change (walk_bound g) with (walk_bound g1).
  apply (collect_spec _ g1 L L Hrep); [|done|lia|].
  - eapply links_tail. by apply Rep_links0.
  - pose proof (Rep_length compare g1 L Hrep). lia.
Qed.

(** [Seek] at a key that is in the list stops on its node. *)
Lemma Seek_found g A e B :
  Rep compare g (A ++ e :: B) ->
  Seek compare (Iterator g) (e_key e)
  = Some (true, MkIter (skl (Iterator g)) (e_off e)).
Proof.
  intros Hrep0. pose proof (Rep_Iterator g _ Hrep0) as Hrep.
  set (it := Iterator g). set (g1 := skl it) in *.
  pose proof Hrep as (_ & _ & Hnd & _ & Hsorted & _).
  assert (Forall (fun x => compare (e_key e) (e_key x) > 0) A) as HA.
  { apply StronglySorted_app in Hsorted as (Hab & _ & _).
    apply Forall_forall. intros x Hx. apply (compare_gt_lt compare Hord).
    apply (Hab x e); [done | by left]. }
  assert (Forall (fun x => compare (e_key e) (e_key x) <= 0) (e :: B)) as HB.
  { apply StronglySorted_app_1_r in Hsorted.
    apply StronglySorted_cons in Hsorted as [Hlt _].
    constructor; [by rewrite (compare_refl compare Hord)|].
    eapply Forall_impl; [exact Hlt|]. unfold key_lt. intros x Hx. lia. }
  destruct (seeklt_spec compare Hord g1 (e_key e) A (e :: B) Hrep HA HB
              (Some zero_log) eq_refl) as (log & Hrun & _ & _).
  assert (node_ok g1 e) as Hoke by (eapply Rep_entry; [done | set_solver]).
  destruct (node_ok_key g1 e Hoke) as [Hnz Hkey].
  pose proof Hoke as (_ & _ & _ & _ & Hlv & _).
  pose proof (links_from_pred compare g1 A (e :: B) Hrep 0 ltac:(lia)) as Hl0.
  apply links_head in Hl0.
  rewrite chain_at_cons, decide_True in Hl0 by lia. simpl hd in Hl0.
  rewrite chain_at_0 in Hl0.
  2:{ pose proof (Rep_levels g1 _ Hrep) as Hl. by apply Forall_app in Hl as [? _]. }
  assert (seekle compare it (e_key e) = Some (MkIter g1 (e_off e))) as Hle.
  { unfold seekle. fold g1. rewrite Hrun. cbn [mbind option_bind]. cbv beta iota.
    destruct (Z.eqb_spec (last_or (head g1) (offs A)) (head g1)) as [Heq|Hne].
    - rewrite Heq in Hl0. rewrite Hl0. cbn [mbind option_bind].
      destruct (Z.eqb_spec (e_off e) ARENA_INVALID_ADDRESS); [done|].
      rewrite Hkey. cbn [mbind option_bind]. simpl slice_bytes.
      rewrite (compare_refl compare Hord). done.
    - rewrite Hl0. cbn [mbind option_bind].
      destruct (Z.eqb_spec (e_off e) ARENA_INVALID_ADDRESS); [done|].
      rewrite Hkey. cbn [mbind option_bind]. simpl slice_bytes.
      rewrite (compare_refl compare Hord). done. }
  unfold Seek. rewrite Hle. cbn [mbind option_bind].
  unfold Valid. cbn [current].
  destruct (Z.eqb_spec (e_off e) ARENA_INVALID_ADDRESS); [done|]. cbn [negb].
  rewrite (Key_at g1 e Hoke). cbn [mbind option_bind]. simpl slice_bytes.
  rewrite (compare_refl compare Hord). done.
Qed.

(** Keys are unique along the list. *)
Lemma sorted_key_inj L x y :
  StronglySorted (key_lt compare) L -> x ∈ L -> y ∈ L -> e_key x = e_key y -> x = y.
Proof.
  induction 1 as [|e L Hs IH He]; intros Hx Hy Hk; [by apply elem_of_nil in Hx|].
  rewrite Forall_forall in He.
  apply elem_of_cons in Hx as [->|Hx]; apply elem_of_cons in Hy as [->|Hy]; try done.
  - exfalso. specialize (He y Hy). unfold key_lt in He.
    rewrite Hk, (compare_refl compare Hord) in He. lia.
  - exfalso. specialize (He x Hx). unfold key_lt in He.
    rewrite <- Hk, (compare_refl compare Hord) in He. lia.
  - by apply IH.
Qed.

End WithOrder.

End iterator_proofs.

(** ** [bytes.Compare] is a total order *)

Module bytes_order.
Import mskip_spec.

Lemma to_N_inj x y : Byte.to_N x = Byte.to_N y -> x = y.
Proof.
  intros H. pose proof (Byte.of_to_N x) as Hx. rewrite H, Byte.of_to_N in Hx.
  by injection Hx.
Qed.

Lemma bytes_compare_refl a : bytes_compare a a = 0.
Proof. induction a as [|x a IH]; simpl; [done|]. by rewrite N.compare_refl. Qed.

Lemma bytes_compare_eq a b : bytes_compare a b = 0 -> a = b.
Proof.
  revert b. induction a as [|x a IH]; intros [|y b]; simpl; try done.
  destruct (N.compare_spec (Byte.to_N x) (Byte.to_N y)) as [Heq|Hlt|Hgt]; try done.
  intros Hab. f_equal; [by apply to_N_inj | by apply IH].
Qed.

Lemma bytes_compare_anti a b : bytes_compare a b < 0 <-> bytes_compare b a > 0.
Proof.
  revert b. induction a as [|x a IH]; intros [|y b]; simpl; try lia.
  rewrite (N.compare_antisym (Byte.to_N x) (Byte.to_N y)).
  destruct (N.compare (Byte.to_N x) (Byte.to_N y)); simpl; [apply IH | lia | lia].
Qed.

Lemma bytes_compare_trans a b c :
  bytes_compare a b < 0 -> bytes_compare b c < 0 -> bytes_compare a c < 0.
Proof.
  revert b c. induction a as [|x a IH]; intros [|y b] [|z c]; simpl; try lia.
  destruct (N.compare_spec (Byte.to_N x) (Byte.to_N y)) as [Hxy|Hxy|Hxy];
    destruct (N.compare_spec (Byte.to_N y) (Byte.to_N z)) as [Hyz|Hyz|Hyz];
    destruct (N.compare_spec (Byte.to_N x) (Byte.to_N z)) as [Hxz|Hxz|Hxz];
    try lia.
  apply IH.
Qed.

Lemma bytes_compare_total : total_order bytes_compare.
Proof.
  split.
  - intros a b. split; [apply bytes_compare_eq | intros ->; apply bytes_compare_refl].
  - apply bytes_compare_anti.
  - apply bytes_compare_trans.
Qed.

End bytes_order.

(** ** The skip list *)

Module mskip_claims.
Import marena marena_spec marena_facts marena_proofs memory_facts.
Import mskip mskip_spec chain_facts frame_facts search_proofs update_facts link_proofs.
Import insert_proofs iterator_proofs.

Section WithOrder.

Context (compare : list byte -> list byte -> Z).
Context (Hord : total_order compare).

Lemma Rep_key_of g L p k :
  Rep compare g L -> p ∈ offs L -> nodeKey g p = Some (Some k) ->
  exists e, e ∈ L /\ e_off e = p /\ e_key e = k.
Proof.
  intros Hrep Hp Hk. apply list_elem_of_fmap in Hp as (e & -> & He).
  exists e. split; [done|]. split; [done|].
  destruct (node_ok_key g e (Rep_entry compare g L e Hrep He)) as [_ Hk'].
  congruence.
Qed.

Lemma Rep_head_key g L : Rep compare g L -> nodeKey g (head g) = Some None.
Proof.
  intros (_ & [_ (hd & Hhd & _ & Hkp)] & _). unfold nodeKey. rewrite Hhd. simpl.
  by rewrite Hkp.
Qed.

Lemma holds_key_iff g L key :
  Rep compare g L -> holds_key g key <-> exists e, e ∈ L /\ e_key e = key.
Proof.
  intros Hrep. unfold holds_key. rewrite (linked_spec compare g L Hrep). split.
  - intros (chain & p & [= <-] & Hp & Hk).
    destruct (Rep_key_of g L p key Hrep Hp Hk) as (e & He & _ & Hke). eauto.
  - intros (e & He & Hke). exists (offs L), (e_off e). split; [done|].
    split; [by apply list_elem_of_fmap_2|].
    destruct (node_ok_key g e (Rep_entry compare g L e Hrep He)) as [_ Hk'].
    by rewrite Hk', Hke.
Qed.

(** C1.  On a list built by inserts, [seeklt] returns the head when no
    linked key is below the sought key, and otherwise a linked node whose
    key is below the sought key and not below any other linked key that is
    below it; the key of the returned node never equals the sought key. *)
Theorem seeklt_greatest_below g key log :
  reachable compare g -> length (default zero_log log) = 24%nat ->
  exists ptr log' chain,
    seeklt compare g key log = Some (ptr, log') /\ linked g = Some chain /\
    (forall p, p ∈ chain -> exists k, nodeKey g p = Some (Some k)) /\
    ((ptr = head g /\
      forall p k, p ∈ chain -> nodeKey g p = Some (Some k) -> ~ compare k key < 0)
     \/ (ptr ∈ chain /\
         exists kp, nodeKey g ptr = Some (Some kp) /\ compare kp key < 0 /\
           forall p k, p ∈ chain -> nodeKey g p = Some (Some k) ->
                       compare k key < 0 -> compare k kp <= 0)) /\
    (forall k, nodeKey g ptr = Some (Some k) -> compare k key <> 0).
Proof.
  intros Hreach Hlog. destruct (reachable_Rep compare Hord g Hreach) as [L Hrep].
  pose proof Hrep as (_ & _ & _ & _ & Hsorted & _).
  destruct (sorted_split compare Hord key L Hsorted) as (A & B & -> & HA & HB).
  destruct (seeklt_spec compare Hord g key A B Hrep HA HB log Hlog)
    as (log' & Hrun & _ & _).
  exists (last_or (head g) (offs A)), log', (offs (A ++ B)).
  split; [done|]. split; [by apply (linked_spec compare)|]. split.
  { intros p Hp. apply list_elem_of_fmap in Hp as (e & -> & He).
    exists (e_key e). by destruct (node_ok_key g e (Rep_entry compare g _ e Hrep He)). }
  rewrite Forall_forall in HA, HB.
  assert (forall e, e ∈ B -> ~ compare (e_key e) key < 0) as HaboveB.
  { intros e He Hlt. apply (compare_anti compare Hord) in Hlt.
    specialize (HB e He). lia. }
  destruct A as [|a A0 _] using rev_ind.
  - (* nothing below the key *)
    split.
    + left. split; [done|]. intros p k Hp Hk.
      destruct (Rep_key_of g _ p k Hrep Hp Hk) as (e & He & _ & <-).
      by apply HaboveB.
    + intros k. change (last_or (head g) (offs [])) with (head g).
      rewrite (Rep_head_key g _ Hrep). done.
  - assert (last_or (head g) (offs (A0 ++ [a])) = e_off a) as ->.
    { unfold offs. rewrite fmap_app. apply last_or_snoc. }
    assert (a ∈ (A0 ++ [a]) ++ B) as Hain by set_solver.
    destruct (node_ok_key g a (Rep_entry compare g _ a Hrep Hain)) as [_ Hka].
    assert (compare (e_key a) key < 0) as Hlt.
    { apply (compare_anti compare Hord). apply HA. set_solver. }
    split.
    + right. split; [by apply list_elem_of_fmap_2|].
      exists (e_key a). split; [done|]. split; [done|].
      intros p k Hp Hk Hklt.
      destruct (Rep_key_of g _ p k Hrep Hp Hk) as (e & He & _ & <-).
      apply elem_of_app in He as [He|He]; [|by destruct (HaboveB e He)].
      apply elem_of_app in He as [He|He].
      * apply StronglySorted_app_1_l in Hsorted.
        assert (key_lt compare e a) as Hea.
        { eapply StronglySorted_app_1_elem_of; [exact Hsorted | done | by left]. }
        unfold key_lt in Hea. lia.
      * apply list_elem_of_singleton in He as ->.
        rewrite (compare_refl compare Hord). lia.
    + intros k. rewrite Hka. intros [= <-]. lia.
Qed.

(** C10.  When the node of a key is linked and holds the invalid value
    reference, [Seek] of that key returns true on that very node, and
    [Value] there is nil. *)
Theorem Seek_stops_on_tombstone g key chain p nd :
  reachable compare g -> linked g = Some chain -> p ∈ chain ->
  nodeKey g p = Some (Some key) ->
  getNode g p = Some nd -> valuePtr nd = ARENA_INVALID_ADDRESS ->
  exists it, Seek compare (Iterator g) key = Some (true, it) /\
             current it = p /\ Value it = Some None.
Proof.
  intros Hreach Hchain Hp Hk Hnd Hv.
  destruct (reachable_Rep compare Hord g Hreach) as [L Hrep].
  rewrite (linked_spec compare g L Hrep) in Hchain. injection Hchain as <-.
  destruct (Rep_key_of g L p key Hrep Hp Hk) as (e & He & <- & <-).
  destruct (node_ok_key g e (Rep_entry compare g L e Hrep He)) as [Hnz _].
  apply list_elem_of_split in He as (A & B & ->).
  exists (MkIter (skl (Iterator g)) (e_off e)).
  split; [exact (Seek_found compare Hord g A e B Hrep)|]. split; [done|].
  unfold Value, Valid. cbn [current skl].
  destruct (Z.eqb_spec (e_off e) ARENA_INVALID_ADDRESS); [done|]. cbn [negb].
  change (getNode (skl (Iterator g)) (e_off e)) with (getNode g (e_off e)).
  rewrite Hnd. cbn [mbind option_bind]. rewrite Hv. done.
Qed.

(** A successful [Insert] leaves the key in the list with the value, on
    the node it had or on a new one. *)
Lemma Insert_true g L key value g' :
  Rep compare g L -> len_ok key -> len_ok (slice_bytes value) ->
  Insert compare g key value = Some (true, g') ->
  exists A e B,
    Rep compare g' (A ++ e :: B) /\ e_key e = key /\ e_val e = value /\
    ((exists e0, L = A ++ e0 :: B /\ e_key e0 = key /\ e_off e0 = e_off e)
     \/ (L = A ++ B /\ Forall (fun x => e_key x <> key) L)).
Proof.
  intros Hrep Hk Hv Hins.
  destruct (Insert_spec compare Hord g L key value Hrep Hk Hv)
    as (r & g0 & L' & Hins0 & Hrep' & Hcase).
  rewrite Hins in Hins0. injection Hins0 as <- <-.
  destruct Hcase as [(A & e & B & -> & Hke & [(Hr & _)|(_ & _ & ->)])
                    |(Hnone & A & B & -> & HA & HB & [(Hr & _)|(_ & _ & ->)])];
    try done.
  - eexists A, _, B. split; [exact Hrep'|]. split; [done|]. split; [done|].
    left. exists e. done.
  - eexists A, _, B. split; [exact Hrep'|]. split; [done|]. split; [done|].
    right. done.
Qed.

(** C3.  After a successful [Insert] of a value and an [Insert] of nil for
    the same key, forward iteration does not yield the key, while its node
    is still the one in the level-0 chain; a further successful [Insert] of
    a value leaves the chain as it is, with that node the only one of the
    key, holding a reference to the new value, which iteration yields. *)
Theorem tombstone_keeps_node g0 key v v2 g1 r2 g2 :
  reachable compare g0 -> len_ok key -> len_ok v -> len_ok v2 ->
  Insert compare g0 key (Some v) = Some (true, g1) ->
  Insert compare g1 key None = Some (r2, g2) ->
  r2 = true /\
  exists chain p,
    linked g1 = Some chain /\ linked g2 = Some chain /\ p ∈ chain /\
    nodeKey g2 p = Some (Some key) /\
    (exists ys, forward g2 = Some ys /\ forall k x, (k, x) ∈ ys -> k <> Some key) /\
    forall g3, Insert compare g2 key (Some v2) = Some (true, g3) ->
      linked g3 = Some chain /\
      (forall q, q ∈ chain -> nodeKey g3 q = Some (Some key) -> q = p) /\
      (exists nd, getNode g3 p = Some nd /\ valuePtr nd <> ARENA_INVALID_ADDRESS /\
                  View (arena g3) (valuePtr nd) = Some v2) /\
      (exists ys, forward g3 = Some ys /\ (Some key, Some v2) ∈ ys).
Proof.
  intros Hreach Hk Hv Hv2 Hins1 Hins2.
  destruct (reachable_Rep compare Hord g0 Hreach) as [L0 Hrep0].
  destruct (Insert_true g0 L0 key (Some v) g1 Hrep0 Hk Hv Hins1)
    as (A1 & e1 & B1 & Hrep1 & Hke1 & _ & _).
  destruct (Insert_spec compare Hord g1 _ key None Hrep1 Hk ltac:(done))
    as (r & g & L2 & Hins & Hrep2 & Hcase).
  rewrite Hins2 in Hins. injection Hins as <- <-.
  pose proof (Rep_bounds compare g1 _ Hrep1) as [Hc1 Hs1].
  unfold ARENA_MIN_ADDRESS in Hc1.
  destruct Hcase as [(A & e & B & HL1 & Hke & [(_ & _ & _ & Hfail)|(-> & _ & ->)])
                    |(Hnone & _)].
  { exfalso. revert Hfail. apply alloc_fails_nil; lia. }
  2:{ exfalso. rewrite Forall_forall in Hnone. apply (Hnone e1); [set_solver | done]. }
  rewrite HL1 in Hrep1. clear HL1 A1 e1 B1 Hke1.
  set (e' := MkEntry (e_off e) (e_key e) (e_lvl e) None) in *.
  assert (offs (A ++ e' :: B) = offs (A ++ e :: B)) as Hoffs.
  { unfold offs. by rewrite !fmap_app, !fmap_cons. }
  assert (e' ∈ A ++ e' :: B) as Hin' by set_solver.
  split; [done|]. exists (offs (A ++ e :: B)), (e_off e).
  split; [by apply (linked_spec compare)|].
  split; [rewrite <- Hoffs; by apply (linked_spec compare)|].
  split; [apply list_elem_of_fmap_2; set_solver|].
  split.
  { destruct (node_ok_key g2 e' (Rep_entry compare g2 _ e' Hrep2 Hin')) as [_ Hk'].
    simpl in Hk'. by rewrite Hk', Hke. }
  pose proof Hrep2 as (_ & _ & _ & _ & Hsorted2 & _).
  split.
  { exists (live (A ++ e' :: B)). split; [by apply (forward_spec compare)|].
    intros k x Hkx [= ->]. apply list_elem_of_omap in Hkx as (y & Hy & Hfy).
    destruct (e_val y) as [vy|] eqn:Hvy; [|done]. injection Hfy as Hky <-.
    assert (y = e') as ->.
    { apply (sorted_key_inj compare Hord _ y e' Hsorted2 Hy Hin'). simpl. congruence. }
    done. }
  intros g3 Hins3.
  destruct (Insert_true g2 _ key (Some v2) g3 Hrep2 Hk Hv2 Hins3)
    as (A3 & e3 & B3 & Hrep3 & Hke3 & Hve3 & [(e0 & HL2 & Hke0 & Hoff0)|[_ Hnone]]).
  2:{ exfalso. rewrite Forall_forall in Hnone. apply (Hnone e' Hin'). done. }
  assert (e0 = e') as ->.
  { apply (sorted_key_inj compare Hord _ e0 e' Hsorted2); [|done|simpl; congruence].
    rewrite HL2. set_solver. }
  assert (offs (A3 ++ e3 :: B3) = offs (A ++ e :: B)) as Hoffs3.
  { rewrite <- Hoffs, HL2. unfold offs. by rewrite !fmap_app, !fmap_cons, Hoff0. }
  simpl in Hoff0.
  assert (e3 ∈ A3 ++ e3 :: B3) as Hin3 by set_solver.
  pose proof (Rep_entry compare g3 _ e3 Hrep3 Hin3) as Hok3.
  pose proof Hrep3 as (_ & _ & _ & _ & Hsorted3 & _).
  split; [rewrite <- Hoffs3; by apply (linked_spec compare)|]. split.
  { intros q Hq Hkq. rewrite <- Hoffs3 in Hq.
    destruct (Rep_key_of g3 _ q key Hrep3 Hq Hkq) as (x & Hx & <- & Hkx).
    assert (x = e3) as -> by (apply (sorted_key_inj compare Hord _ x e3 Hsorted3);
                              [done | done | congruence]).
    done. }
  split.
  { destruct Hok3 as (nd & Hnd & _ & _ & _ & _ & _ & Hval).
    rewrite Hve3 in Hval. destruct Hval as [Hnz [Hview _]].
    exists nd. rewrite Hoff0. done. }
  exists (live (A3 ++ e3 :: B3)). split; [by apply (forward_spec compare)|].
  apply list_elem_of_omap. exists e3. split; [done|]. by rewrite Hve3, Hke3.
Qed.

(** C4.  [Insert] returns false exactly when [insertNext] returns the
    invalid offset, which is exactly when the arena cannot serve the blocks
    the call needs: the value alone when the key has a node, the node
    record, the key and the value otherwise.  After a false [Insert] the
    level-0 chain and what forward iteration yields are as before, and
    every record the arena held is unchanged. *)
Theorem Insert_failure_keeps_list g key value r g' :
  reachable compare g -> len_ok key -> len_ok (slice_bytes value) ->
  Insert compare g key value = Some (r, g') ->
  (exists ptr log r0,
     seeklt compare g key (Some zero_log) = Some (ptr, log) /\
     insertNext compare g log key value = Some (r0, g') /\
     (r0 = ARENA_INVALID_ADDRESS <-> r = false)) /\
  (holds_key g key ->
     (r = false <-> alloc_fails (arena g) (value_request value))) /\
  (~ holds_key g key ->
     (r = false <->
      alloc_fails (arena g) (newNodeRequest (randLevel g).1 key ++ value_request value))) /\
  (r = false ->
     forward g' = forward g /\ linked g' = linked g /\
     forall q nd, getNode g q = Some nd -> getNode g' q = Some nd).
Proof.
  intros Hreach Hk Hv Hins.
  destruct (reachable_Rep compare Hord g Hreach) as [L Hrep].
  split.
  { unfold Insert in Hins.
    destruct (seeklt compare g key (Some zero_log)) as [[ptr log]|]; [|done].
    cbn [mbind option_bind] in Hins. cbv beta iota in Hins.
    destruct (insertNext compare g log key value) as [[r0 g0]|] eqn:Hnext; [|done].
    cbn [mbind option_bind] in Hins. cbv beta iota in Hins.
    injection Hins as <- <-. exists ptr, log, r0. split; [done|]. split; [done|].
    destruct (Z.eqb_spec r0 ARENA_INVALID_ADDRESS); simpl; split; congruence. }
  destruct (Insert_spec compare Hord g L key value Hrep Hk Hv)
    as (r0 & g0 & L' & Hins0 & Hrep' & Hcase).
  rewrite Hins in Hins0. injection Hins0 as <- <-.
  destruct Hcase as [(A & e & B & -> & Hke & Hsub)
                    |(Hnone & A & B & -> & HA & HB & Hsub)].
  - assert (holds_key g key) as Hholds.
    { apply (holds_key_iff g _ key Hrep). exists e. split; [set_solver | done]. }
    destruct Hsub as [(-> & -> & _ & Hfail)|(-> & Hok & _)].
    + split; [done|]. split; [done|]. done.
    + split; [intros _; split; [done | by intros ?]|]. split; [done|]. done.
  - assert (~ holds_key g key) as Hholds.
    { rewrite (holds_key_iff g _ key Hrep). intros (e & He & Hke).
      rewrite Forall_forall in Hnone. by apply (Hnone e He). }
    destruct Hsub as [(-> & -> & Hfail & Hkeep)|(-> & Hok & _)].
    + split; [done|]. split; [done|]. intros _.
      rewrite (forward_spec compare g' _ Hrep'), (forward_spec compare g _ Hrep).
      rewrite (linked_spec compare g' _ Hrep'), (linked_spec compare g _ Hrep). done.
    + split; [done|]. split; [intros _; split; [done | by intros ?]|]. done.
Qed.

End WithOrder.

End mskip_claims.

(** ** Node sizes, and the claims on concrete lists *)

Module instances.
Import marena marena_spec marena_facts marena_proofs marena_claims.
Import mskip mskip_spec frame_facts insert_proofs bytes_order mskip_claims examples.

(** C7, as the code has it.  For a level in [1, 24] the node record is
    requested with [24 + 4 * level] bytes, next to the key with its length;
    the record of maximum height takes [nodeMaxSize = 120] bytes, and
    [randLevel] only draws levels in that range. *)
Theorem newNodeRequest_size lvl key :
  1 <= lvl <= MSKIP_MAX_LEVEL -> len_ok key ->
  sizeNode lvl = 24 + 4 * lvl /\
  newNodeRequest lvl key = [24 + 4 * lvl; Z.of_nat (length key)] /\
  sizeNode MSKIP_MAX_LEVEL = nodeMaxSize /\
  forall g, 1 <= (randLevel g).1 <= MSKIP_MAX_LEVEL.
Proof.
  unfold MSKIP_MAX_LEVEL. intros Hl Hk.
  split; [by apply sizeNode_eq|]. split; [by apply newNodeRequest_eq|].
  split; [done|]. apply randLevel_range.
Qed.

Lemma newNodeRequest_size_level1 :
  sizeNode 1 = 24 + 4 * 1 /\ newNodeRequest 1 key_b = [24 + 4 * 1; 1].
Proof.
  destruct (newNodeRequest_size 1 key_b) as (H1 & H2 & _).
  - unfold MSKIP_MAX_LEVEL. lia.
  - unfold len_ok. simpl. lia.
  - split; [exact H1 | exact H2].
Defined.

(** C7, refuted as stated: at level 1 the request is 28 bytes, not 24, and
    the formula of the claim gives 116 bytes at level 24, not 120. *)
Lemma sizeNode_not_20_plus :
  1 <= 1 <= MSKIP_MAX_LEVEL /\ newNodeRequest 1 key_b !! 0%nat = Some 28 /\
  28 <> 20 + 4 * 1 /\ sizeNode MSKIP_MAX_LEVEL <> 20 + 4 * MSKIP_MAX_LEVEL.
Proof. vm_compute. repeat split; discriminate. Qed.

(** *** The arena of the examples *)

Lemma demo_arena_reachable : marena.reachable demo_arena.
Proof.
  apply (marena.reach_new 65536); [unfold is_i64; lia | vm_compute; reflexivity].
Qed.

Lemma Allocate_handle_decoding_100 :
  Size (Allocate demo_arena 100).1 = 100 /\
  ARENA_MIN_ADDRESS <= Offset (Allocate demo_arena 100).1 /\
  Offset (Allocate demo_arena 100).1 + Size (Allocate demo_arena 100).1
  <= len (buffer (Allocate demo_arena 100).2).
Proof.
  apply (Allocate_handle_decoding demo_arena 100 _ _ demo_arena_reachable).
  - unfold ARENA_MAX_ALLOC_SIZE. lia.
  - vm_compute. reflexivity.
  - vm_compute. discriminate.
Defined.

Lemma Allocate_zero_on_demo_arena :
  (Allocate demo_arena 0).1 <> ARENA_INVALID_ADDRESS /\
  cursor (Allocate demo_arena 0).2 = cursor demo_arena.
Proof.
  destruct (Allocate_invalid_iff demo_arena 0 demo_arena_reachable) as (_ & _ & H0).
  - unfold is_i64. lia.
  - destruct H0 as (Hnz & _ & _ & Hcur & _); [vm_compute; discriminate|].
    split; [exact Hnz | exact Hcur].
Defined.

Lemma AllocateMultiple_slots_50_200_300 :
  (AllocateMultiple demo_arena [50; 200; 300]).1.1 = true /\
  length (AllocateMultiple demo_arena [50; 200; 300]).1.2 = 3%nat.
Proof.
  destruct (AllocateMultiple_slots demo_arena [50; 200; 300] demo_arena_reachable)
    as (_ & _ & Hok).
  - repeat constructor; unfold is_u64; lia.
  - vm_compute. reflexivity.
  - assert ((AllocateMultiple demo_arena [50; 200; 300]).1.1 = true) as Htrue
      by (vm_compute; reflexivity).
    split; [exact Htrue | exact (proj1 (Hok Htrue))].
Defined.

(** *** The lists of the examples *)

Lemma len_ok_small (s : list byte) : (length s <= 1000)%nat -> len_ok s.
Proof. unfold len_ok. lia. Qed.

Lemma demo_empty_reachable : reachable bytes_compare demo_empty.
Proof.
  apply (reach_new bytes_compare demo_arena 42); [apply demo_arena_reachable|].
  vm_compute. reflexivity.
Qed.

Lemma demo_b_reachable : reachable bytes_compare demo_b.
Proof.
  apply (reach_insert bytes_compare demo_empty key_b (Some val_1) true);
    [apply demo_empty_reachable | apply len_ok_small; simpl; lia
     | apply len_ok_small; simpl; lia | vm_compute; reflexivity].
Qed.

Lemma demo_bc_reachable : reachable bytes_compare demo_bc.
Proof.
  apply (reach_insert bytes_compare demo_b key_c (Some val_2) true);
    [apply demo_b_reachable | apply len_ok_small; simpl; lia
     | apply len_ok_small; simpl; lia | vm_compute; reflexivity].
Qed.

Lemma demo_tomb_reachable : reachable bytes_compare demo_tomb.
Proof.
  apply (reach_insert bytes_compare demo_bc key_b None true);
    [apply demo_bc_reachable | apply len_ok_small; simpl; lia
     | apply len_ok_small; simpl; lia | vm_compute; reflexivity].
Qed.

Lemma seeklt_greatest_below_c :
  exists ptr log' chain,
    seeklt bytes_compare demo_bc key_c None = Some (ptr, log') /\
    linked demo_bc = Some chain /\ ptr ∈ chain.
Proof.
  destruct (seeklt_greatest_below bytes_compare bytes_compare_total demo_bc key_c None
              demo_bc_reachable eq_refl)
    as (ptr & log' & chain & Hrun & Hchain & _ & [[Hhead _]|[Hin _]] & _).
  - exfalso. rewrite Hhead in Hrun. revert Hrun. vm_compute. discriminate.
  - exists ptr, log', chain. split; [exact Hrun|]. split; [exact Hchain | exact Hin].
Defined.

Lemma Seek_stops_on_tombstone_b :
  exists it, Seek bytes_compare (Iterator demo_tomb) key_b = Some (true, it) /\
             current it = 248 /\ Value it = Some None.
Proof.
  apply (Seek_stops_on_tombstone bytes_compare bytes_compare_total demo_tomb key_b
           [248; 296] 248 (MkNode 1202590842881 0 1 [296]) demo_tomb_reachable).
  - vm_compute. reflexivity.
  - apply list_elem_of_here.
  - vm_compute. reflexivity.
  - vm_compute. reflexivity.
  - reflexivity.
Defined.

Lemma tombstone_keeps_node_c :
  exists chain p,
    linked demo_bc = Some chain /\ linked (demo_insert demo_bc key_c None) = Some chain /\
    p ∈ chain /\ nodeKey (demo_insert demo_bc key_c None) p = Some (Some key_c).
Proof.
  destruct (tombstone_keeps_node bytes_compare bytes_compare_total
              demo_b key_c val_2 val_3 demo_bc true
              (demo_insert demo_bc key_c None) demo_b_reachable)
    as (_ & chain & p & H1 & H2 & Hp & Hk & _).
  - apply len_ok_small. simpl. lia.
  - apply len_ok_small. simpl. lia.
  - apply len_ok_small. simpl. lia.
  - vm_compute. reflexivity.
  - vm_compute. reflexivity.
  - exists chain, p. split; [exact H1|]. split; [exact H2|]. split; [exact Hp | exact Hk].
Defined.

Lemma Insert_failure_keeps_list_huge :
  forward (demo_insert demo_b key_c (Some val_huge)) = forward demo_b /\
  linked (demo_insert demo_b key_c (Some val_huge)) = linked demo_b.
Proof.
  destruct (Insert_failure_keeps_list bytes_compare bytes_compare_total
              demo_b key_c (Some val_huge) false
              (demo_insert demo_b key_c (Some val_huge)) demo_b_reachable)
    as (_ & _ & _ & Hkeep).
  - apply len_ok_small. simpl. lia.
  - unfold len_ok. vm_compute. reflexivity.
  - vm_compute. reflexivity.
  - destruct (Hkeep eq_refl) as (Hf & Hl & _). split; [exact Hf | exact Hl].
Defined.

(** C2.  On the list that holds only ["b"], [Seek] of ["a"] returns false
    and leaves the iterator invalid, although ["b"] is a live key that is
    not below ["a"]: forward iteration yields it. *)
Theorem Seek_below_first_key_invalid :
  reachable bytes_compare demo_b /\
  forward demo_b = Some [(Some key_b, Some val_1)] /\
  bytes_compare key_b key_a > 0 /\
  exists it, Seek bytes_compare (Iterator demo_b) key_a = Some (false, it) /\
             current it = ARENA_INVALID_ADDRESS /\ Valid it = false.
Proof.
  split; [apply demo_b_reachable|]. split; [vm_compute; reflexivity|].
  split; [vm_compute; reflexivity|].
  eexists. split; [vm_compute; reflexivity|]. split; reflexivity.
Qed.

End instances.

(** * Further properties of the code *)

(** ** The arena beyond the written specification *)

Module marena_more.
Import marena marena_spec marena_facts marena_proofs memory_facts.

Lemma align_mod8 n : 0 <= n < 2 ^ 62 -> align n mod 8 = 0.
Proof.
  intros H. rewrite align_eq by done.
  rewrite Z.mul_comm. apply Z_mod_mult.
Qed.

Lemma aligned_total_mod8 slots :
  Forall (fun s => 0 <= s <= ARENA_MAX_ALLOC_SIZE) slots -> aligned_total slots mod 8 = 0.
Proof.
  induction 1 as [|s rest Hs _ IH]; [done|].
  rewrite aligned_total_cons.
  rewrite Z.add_mod by lia.
  rewrite IH, align_mod8; [done|].
  unfold ARENA_MAX_ALLOC_SIZE in Hs. lia.
Qed.

(** X1.  For a request that is not negative, the arena is as long as the request
    rounded up to whole pages of [ARENA_PAGESIZE] bytes, and never longer than
    [2^31] bytes: a larger request is cut down to that without an error. *)
Theorem NewArena_rounds_up c :
  0 <= c < 2 ^ 62 ->
  exists a, NewArena c = Some a /\
    len (buffer a) = size a /\ cursor a = ARENA_MIN_ADDRESS /\
    size a mod ARENA_PAGESIZE = 0 /\
    (c <= 2 ^ 31 -> c <= size a < c + ARENA_PAGESIZE) /\
    (2 ^ 31 < c -> size a = 2 ^ 31) /\
    Remaining a = size a - ARENA_MIN_ADDRESS.
Proof.
  intros Hc. destruct (NewArena_spec c Hc) as (a & Ha & Hsz & Hlen & Hcur).
  exists a. split; [done|]. split; [done|]. split; [done|].
  unfold ARENA_PAGESIZE, ARENA_MIN_ADDRESS in *.
  pose proof (Z.div_mod (c + (2 ^ 16 - 1)) (2 ^ 16) ltac:(lia)) as Hdm.
  pose proof (Z.mod_pos_bound (c + (2 ^ 16 - 1)) (2 ^ 16) ltac:(lia)) as Hmb.
  set (q := (c + (2 ^ 16 - 1)) / 2 ^ 16) in *.
  assert (Hmod : size a mod 2 ^ 16 = 0).
  { rewrite Hsz. destruct (Z.min_spec (2 ^ 16 * q) (2 ^ 31)) as [[_ ->]|[_ ->]].
    - rewrite Z.mul_comm. apply Z_mod_mult.
    - reflexivity. }
  split; [done|].
  assert (Hrem : Remaining a = size a - 128).
  { unfold Remaining. rewrite Hcur. apply wrap_i64_id. unfold is_i64. lia. }
  repeat split; try lia.
Qed.

Lemma Allocate_no_room a sz :
  size a = 0 -> cursor a = ARENA_MIN_ADDRESS -> is_i64 sz ->
  Allocate a sz = (ARENA_INVALID_ADDRESS, a).
Proof.
  intros Hs Hc Hsz.
  destruct (Allocate_cases_bounds a sz) as [[_ ->]|(H0 & Hfit & _)];
    rewrite ?Hs, ?Hc; unfold ARENA_MIN_ADDRESS; try done; try lia.
  exfalso. rewrite Hs, Hc in Hfit. unfold ARENA_MIN_ADDRESS, ARENA_MAX_ALLOC_SIZE in *.
  pose proof (align_bounds sz ltac:(lia)). lia.
Qed.

Lemma handle_fields h :
  is_u64 h -> 0 <= Z.shiftr h 32 < 2 ^ 32 /\ 0 <= Z.land h (2 ^ 32 - 1) < 2 ^ 32.
Proof.
  intros Hh. unfold is_u64 in Hh. split.
  - rewrite Z.shiftr_div_pow2 by lia. split.
    + apply Z.div_pos; lia.
    + apply Z.div_lt_upper_bound; lia.
  - change (2 ^ 32 - 1) with (Z.ones 32). rewrite Z.land_ones by lia.
    apply Z.mod_pos_bound. lia.
Qed.

Lemma View_no_room a h : size a = 0 -> is_u64 h -> View a h = None.
Proof.
  intros Hs Hh. unfold View. rewrite Hs.
  destruct (handle_fields h Hh) as [Ho Hl].
  unfold ARENA_MIN_ADDRESS.
  destruct (Z.ltb_spec (Z.shiftr h 32) 128) as [|Hoff]; [done|].
  rewrite orb_false_l.
  rewrite wrap_u64_id by (unfold is_u64; lia).
  change (wrap_u64 0) with 0.
  destruct (Z.gtb_spec (Z.shiftr h 32 + Z.land h (2 ^ 32 - 1)) 0); [done|lia].
Qed.

(** X2.  A request that is zero or slightly negative gives an arena with no
    bytes at all: its cursor already lies past its end, [Remaining] is
    negative, no allocation succeeds (not even of size zero), every view is
    nil and no skip list can be placed in it.  From [-131071] downwards the
    buffer cannot be made. *)
Theorem NewArena_nonpositive c :
  is_i64 c -> c <= 0 ->
  (c < -131070 -> NewArena c = None) /\
  (-131070 <= c ->
     exists a, NewArena c = Some a /\ size a = 0 /\ len (buffer a) = 0 /\
       Remaining a = -128 /\
       (forall sz, is_i64 sz -> Allocate a sz = (ARENA_INVALID_ADDRESS, a)) /\
       (forall h, is_u64 h -> View a h = None) /\
       (forall sd, mskip.NewSkipList a sd = None)).
Proof.
  intros Hc Hle. unfold is_i64 in Hc.
  unfold NewArena, ARENA_PAGESIZE, ARENA_MAX_ALLOC_SIZE.
  rewrite (wrap_i64_id (c + _)) by (unfold is_i64; lia).
  pose proof (Z.quot_rem' (c + (2 ^ 16 - 1)) (2 ^ 16)) as Hqr.
  pose proof (Z.rem_bound_abs (c + (2 ^ 16 - 1)) (2 ^ 16) ltac:(lia)) as Hrb.
  set (q := Z.quot (c + (2 ^ 16 - 1)) (2 ^ 16)) in *.
  split.
  - intros Hlow.
    assert (q <= -1).
    { subst q. replace (c + (2 ^ 16 - 1)) with (- (- (c + (2 ^ 16 - 1)))) by lia.
      rewrite Z.quot_opp_l by lia. rewrite Z.quot_div_nonneg by lia.
      pose proof (Z.div_le_lower_bound (- (c + (2 ^ 16 - 1))) (2 ^ 16) 1 ltac:(lia) ltac:(lia)).
      lia. }
    rewrite wrap_i64_id by (unfold is_i64; lia).
    destruct (Z.gtb_spec (q * 2 ^ 16) (2 ^ 31 - 1)); [lia|].
    unfold make_buffer. destruct (Z.ltb_spec (q * 2 ^ 16) 0); [done|lia].
  - intros Hhigh.
    assert (Hq : q = 0).
    { destruct (Z.le_gt_cases 0 (c + (2 ^ 16 - 1))).
      - subst q. apply Z.quot_small. lia.
      - subst q. replace (c + (2 ^ 16 - 1)) with (- (- (c + (2 ^ 16 - 1)))) by lia.
        rewrite Z.quot_opp_l by lia. rewrite Z.quot_small by lia. done. }
    rewrite Hq. change (wrap_i64 (0 * 2 ^ 16)) with 0.
    exists (MkArena (MkBuffer 0 ∅ ∅) 0 ARENA_MIN_ADDRESS).
    split; [reflexivity|]. split; [done|]. split; [done|]. split; [done|].
    split; [|split].
    + intros sz Hsz. by apply Allocate_no_room.
    + intros h Hh. by apply View_no_room.
    + intros sd. unfold mskip.NewSkipList.
      rewrite Allocate_no_room; [done..|].
      change (mskip.sizeNode mskip.MSKIP_MAX_LEVEL) with 120.
      unfold is_i64. lia.
Qed.


Lemma NewArena_cursor c g : NewArena c = Some g -> cursor g = ARENA_MIN_ADDRESS.
Proof.
  unfold NewArena. destruct (make_buffer _); [|done]. by intros [= <-].
Qed.

Lemma NewArena_fresh c g :
  NewArena c = Some g -> g = MkArena (MkBuffer (size g) ∅ ∅) (size g) ARENA_MIN_ADDRESS.
Proof.
  unfold NewArena, make_buffer.
  destruct (Z.ltb _ 0); [done|]. by intros [= <-].
Qed.

Lemma Allocate_buffer g sz :
  buffer (Allocate g sz).2 = buffer g /\ size (Allocate g sz).2 = size g.
Proof.
  unfold Allocate.
  repeat match goal with |- context [if ?b then _ else _] => destruct b end; done.
Qed.

Lemma AllocateMultiple_buffer g slots :
  buffer (AllocateMultiple g slots).2 = buffer g /\ size (AllocateMultiple g slots).2 = size g.
Proof.
  unfold AllocateMultiple. destruct (sum_sizes slots 0); [|done].
  repeat match goal with |- context [if ?b then _ else _] => destruct b end; done.
Qed.

Lemma reachable_cursor_mod8 g : reachable g -> cursor g mod 8 = 0.
Proof.
  induction 1 as [c g Hc Hnew|g sz Hg IH Hsz|g slots Hg IH Hs Hn|g Hg IH].
  - by rewrite (NewArena_cursor _ _ Hnew).
  - destruct (Allocate_cases g sz (reachable_inv g Hg) Hsz) as [[_ ->]|(H0 & _ & ->)]; [done|].
    cbn. rewrite Z.add_mod, IH, align_mod8 by (unfold ARENA_MAX_ALLOC_SIZE in *; lia). done.
  - destruct (AllocateMultiple_cases g slots (reachable_inv g Hg) Hs Hn)
      as [[_ ->]|(H0 & _ & ->)]; [done|].
    cbn. rewrite Z.add_mod, IH, aligned_total_mod8 by (done || lia). done.
  - done.
Qed.

(** X3.  What [Allocate] does to the arena.  A call that fails leaves it as it
    was; a call that succeeds hands out the block at the old cursor and moves
    the cursor, and [Remaining], by the size rounded up to a multiple of 8,
    without touching the buffer. *)
Theorem Allocate_advances g sz :
  reachable g -> is_i64 sz ->
  ((Allocate g sz).1 = ARENA_INVALID_ADDRESS -> (Allocate g sz).2 = g) /\
  ((Allocate g sz).1 <> ARENA_INVALID_ADDRESS ->
     Offset (Allocate g sz).1 = cursor g /\
     cursor (Allocate g sz).2 = cursor g + 8 * ((sz + 7) / 8) /\
     Remaining (Allocate g sz).2 = Remaining g - 8 * ((sz + 7) / 8) /\
     buffer (Allocate g sz).2 = buffer g /\ size (Allocate g sz).2 = size g).
Proof.
  intros Hg Hsz. pose proof (reachable_inv g Hg) as Hinv.
  pose proof (Allocate_inv g sz Hinv Hsz) as Hinv'.
  pose proof (Remaining_eq _ Hinv') as Hrem'.
  pose proof (Remaining_eq _ Hinv) as Hrem.
  destruct (arena_inv_bounds g Hinv) as [Hsize Hcur].
  destruct Hinv as (_ & _ & Hmin & _). unfold ARENA_MIN_ADDRESS in Hmin.
  destruct (Allocate_cases_bounds g sz Hsize Hcur Hsz) as [[_ Heq]|(H0 & Hfit & Heq)];
    rewrite Heq in *; cbn [fst snd] in *.
  - split; [done|]. intros Hne. by destruct Hne.
  - unfold ARENA_MAX_ALLOC_SIZE in H0.
    assert (Hne : pack (cursor g) sz <> 0) by (apply pack_nonzero; lia).
    split; [intros Hz; by destruct Hne|]. intros _.
    rewrite Offset_pack by lia.
    rewrite <- align_eq by lia.
    split; [done|]. split; [done|]. split; [|done].
    rewrite Hrem', Hrem. cbn. lia.
Qed.

(** X4.  The cursor of an arena is always a multiple of 8, so every block handed
    out, by [Allocate] or by [AllocateMultiple], starts at an offset that is
    a multiple of 8. *)
Theorem offsets_aligned g :
  reachable g ->
  cursor g mod 8 = 0 /\
  (forall sz, is_i64 sz -> (Allocate g sz).1 <> ARENA_INVALID_ADDRESS ->
     Offset (Allocate g sz).1 mod 8 = 0) /\
  (forall slots h,
     Forall is_u64 slots -> Z.of_nat (length slots) < 2 ^ 31 ->
     (AllocateMultiple g slots).1.1 = true -> h ∈ (AllocateMultiple g slots).1.2 ->
     Offset h mod 8 = 0).
Proof.
  intros Hg. pose proof (reachable_cursor_mod8 g Hg) as Hmod.
  pose proof (reachable_inv g Hg) as Hinv.
  destruct (arena_inv_bounds g Hinv) as [Hsize Hcur].
  split; [done|]. split.
  - intros sz Hsz Hne.
    destruct (Allocate_cases_bounds g sz Hsize Hcur Hsz) as [[_ Heq]|(H0 & Hfit & Heq)];
      rewrite Heq in *; cbn [fst snd] in *; [done|].
    unfold ARENA_MAX_ALLOC_SIZE in H0. rewrite Offset_pack by lia. done.
  - intros slots h Hs Hn Hok Hin.
    destruct (AllocateMultiple_cases_bounds g slots Hsize Hcur Hs Hn)
      as [[_ Heq]|(H0 & Hfit & Heq)]; rewrite Heq in *; cbn [fst snd] in *; [done|].
    apply list_elem_of_lookup in Hin as [i Hi].
    assert (is_Some (slots !! i)) as [s Hsi].
    { apply lookup_lt_is_Some. rewrite <- (length_assign slots (cursor g)).
      by eapply lookup_lt_Some. }
    rewrite (assign_lookup slots (cursor g) i s) in Hi by (done || lia).
    injection Hi as <-.
    pose proof (aligned_total_take_le slots i H0) as Hle.
    pose proof (Forall_lookup_1 _ _ _ _ H0 Hsi) as Hsb. cbn in Hsb.
    unfold ARENA_MAX_ALLOC_SIZE in Hsb.
    rewrite Offset_pack by lia.
    rewrite Z.add_mod, Hmod by lia.
    rewrite aligned_total_mod8; [done|].
    by apply Forall_take.
Qed.

Lemma grows_frame g g' :
  arena_inv g -> grows g g' ->
  arena_inv g' /\ cursor g <= cursor g' /\ size g' = size g /\ buffer g' = buffer g.
Proof.
  intros Hinv. induction 1 as [g|g g' sz _ IH Hsz|g g' slots _ IH Hs Hn].
  - done.
  - destruct (IH Hinv) as (Hinv' & Hle & Hsize & Hbuf).
    destruct (Allocate_buffer g' sz) as [-> ->].
    split; [by apply Allocate_inv|]. split; [|done].
    destruct (Allocate_cases g' sz Hinv' Hsz) as [[_ ->]|(H0 & _ & ->)]; cbn; [done|].
    unfold ARENA_MAX_ALLOC_SIZE in H0. pose proof (align_bounds sz ltac:(lia)). lia.
  - destruct (IH Hinv) as (Hinv' & Hle & Hsize & Hbuf).
    destruct (AllocateMultiple_buffer g' slots) as [-> ->].
    split; [by apply AllocateMultiple_inv|]. split; [|done].
    destruct (AllocateMultiple_cases g' slots Hinv' Hs Hn) as [[_ ->]|(H0 & _ & ->)];
      cbn; [done|].
    pose proof (aligned_total_bounds slots H0). lia.
Qed.

(** X5.  Blocks never overlap: a block handed out by [Allocate] ends before any
    block handed out later begins, whatever was allocated in between, and
    both lie inside the buffer. *)
Theorem allocations_disjoint g s1 h1 g1 g2 s2 h2 g3 :
  reachable g -> is_i64 s1 -> is_i64 s2 ->
  Allocate g s1 = (h1, g1) -> h1 <> ARENA_INVALID_ADDRESS ->
  grows g1 g2 ->
  Allocate g2 s2 = (h2, g3) -> h2 <> ARENA_INVALID_ADDRESS ->
  ARENA_MIN_ADDRESS <= Offset h1 /\
  Offset h1 + Size h1 <= Offset h2 /\
  Offset h2 + Size h2 <= len (buffer g3).
Proof.
  intros Hg Hs1 Hs2 Ha1 Hne1 Hgrow Ha2 Hne2.
  pose proof (reachable_inv g Hg) as Hinv.
  assert (Hinv1 : arena_inv g1).
  { replace g1 with (Allocate g s1).2 by (by rewrite Ha1). by apply Allocate_inv. }
  destruct (grows_frame g1 g2 Hinv1 Hgrow) as (Hinv2 & Hle & Hsize2 & Hbuf2).
  destruct (arena_inv_bounds g Hinv) as [Hsize Hcur].
  destruct (arena_inv_bounds g2 Hinv2) as [Hsize' Hcur'].
  destruct Hinv as (_ & _ & Hmin & _). unfold ARENA_MIN_ADDRESS in *.
  destruct (Allocate_cases_bounds g s1 Hsize Hcur Hs1) as [[_ Heq]|(H0 & Hfit & Heq)];
    rewrite Heq in Ha1; injection Ha1 as <- <-; [done|].
  destruct (Allocate_cases_bounds g2 s2 Hsize' Hcur' Hs2) as [[_ Heq2]|(H02 & Hfit2 & Heq2)];
    rewrite Heq2 in Ha2; injection Ha2 as <- <-; [done|].
  unfold ARENA_MAX_ALLOC_SIZE in *.
  cbn in Hle.
  pose proof (align_bounds s1 ltac:(lia)). pose proof (align_bounds s2 ltac:(lia)).
  rewrite !Offset_pack, !Size_pack by lia.
  destruct Hinv2 as (Hlen & _). cbn. rewrite Hlen. lia.
Qed.

Lemma set_cursor_twice g a b : set_cursor (set_cursor g a) b = set_cursor g b.
Proof. done. Qed.

Lemma set_cursor_same g : set_cursor g (cursor g) = g.
Proof. by destruct g. Qed.

Lemma Allocate_each_assign slots : forall g,
  0 <= size g <= 2 ^ 31 -> 0 <= cursor g ->
  Forall (fun s => 0 <= s <= ARENA_MAX_ALLOC_SIZE) slots ->
  cursor g + aligned_total slots <= size g ->
  Allocate_each g slots
  = (assign slots (cursor g), set_cursor g (cursor g + aligned_total slots)).
Proof.
  induction slots as [|s rest IH]; intros g Hsize Hcur Hs Hfit.
  - cbn. by rewrite Z.add_0_r, set_cursor_same.
  - apply Forall_cons in Hs as [Hs Hrest].
    rewrite aligned_total_cons in Hfit |- *.
    pose proof (aligned_total_bounds rest Hrest) as Hb.
    pose proof (align_max s Hs) as Hal.
    cbn [Allocate_each assign].
    destruct (Allocate_cases_bounds g s Hsize ltac:(lia)) as [[Hbad _]|(_ & _ & ->)].
    { unfold is_i64, ARENA_MAX_ALLOC_SIZE in *. lia. }
    { exfalso. unfold ARENA_MAX_ALLOC_SIZE in *.
      rewrite wrap_u64_id in Hbad by (unfold is_u64; lia). lia. }
    rewrite IH; cbn; [|done|lia|done|lia].
    rewrite (wrap_i64_id s) by (unfold is_i64, ARENA_MAX_ALLOC_SIZE in *; lia).
    rewrite (wrap_i64_id (cursor g + align s)) by (unfold is_i64; lia).
    rewrite set_cursor_twice. do 2 f_equal. lia.
Qed.

(** X6.  [AllocateMultiple] is all or nothing.  When it fails the arena is as it
    was, and when it succeeds it has done what one [Allocate] per size, in
    order, does: the same handles and the same arena. *)
Theorem AllocateMultiple_all_or_nothing g slots :
  reachable g -> Forall is_u64 slots -> Z.of_nat (length slots) < 2 ^ 31 ->
  ((AllocateMultiple g slots).1.1 = false -> (AllocateMultiple g slots).2 = g) /\
  ((AllocateMultiple g slots).1.1 = true ->
     Allocate_each g slots
     = ((AllocateMultiple g slots).1.2, (AllocateMultiple g slots).2)).
Proof.
  intros Hg Hs Hn. pose proof (reachable_inv g Hg) as Hinv.
  destruct (arena_inv_bounds g Hinv) as [Hsize Hcur].
  destruct (AllocateMultiple_cases_bounds g slots Hsize Hcur Hs Hn)
    as [[_ Heq]|(H0 & Hfit & Heq)]; rewrite Heq; cbn [fst snd].
  - done.
  - split; [done|]. intros _. apply Allocate_each_assign; (done || lia).
Qed.

Lemma read_bytes_empty off n : read_bytes ∅ off n = replicate n x00.
Proof.
  revert off. induction n as [|n IH]; intros off; [done|].
  cbn. by rewrite lookup_empty, IH.
Qed.

Lemma Reset_Allocate g sz : Reset (Allocate g sz).2 = Reset g.
Proof. unfold Reset. by destruct (Allocate_buffer g sz) as [-> ->]. Qed.

Lemma Reset_AllocateMultiple g slots : Reset (AllocateMultiple g slots).2 = Reset g.
Proof. unfold Reset. by destruct (AllocateMultiple_buffer g slots) as [-> ->]. Qed.

Lemma reachable_origin g :
  reachable g -> exists c, is_i64 c /\ NewArena c = Some (Reset g).
Proof.
  induction 1 as [c g Hc Hnew|g sz Hg IH Hsz|g slots Hg IH Hs Hn|g Hg IH].
  - exists c. split; [done|]. rewrite Hnew. f_equal.
    rewrite (NewArena_fresh c g Hnew). reflexivity.
  - by rewrite Reset_Allocate.
  - by rewrite Reset_AllocateMultiple.
  - done.
Qed.

(** X7.  [Reset] takes the arena back to where [NewArena] left it: the same
    length, the cursor at [ARENA_MIN_ADDRESS], everything available again and
    every byte zero. *)
Theorem Reset_restores_fresh g :
  reachable g ->
  (exists c, is_i64 c /\ NewArena c = Some (Reset g)) /\
  cursor (Reset g) = ARENA_MIN_ADDRESS /\ size (Reset g) = size g /\
  Remaining (Reset g) = size g - ARENA_MIN_ADDRESS /\
  (forall h d, View (Reset g) h = Some d -> d = replicate (length d) x00).
Proof.
  intros Hg. split; [by apply reachable_origin|].
  split; [done|]. split; [done|]. split.
  - destruct (arena_inv_bounds g (reachable_inv g Hg)) as [Hsize _].
    unfold Remaining. cbn. apply wrap_i64_id. unfold is_i64, ARENA_MIN_ADDRESS. lia.
  - intros h d Hv. apply View_Some in Hv as [_ ->]. cbn.
    by rewrite read_bytes_empty, length_replicate.
Qed.

Lemma handle_decode h :
  is_u64 h -> Offset h = Z.shiftr h 32 /\ Size h = Z.land h (2 ^ 32 - 1).
Proof.
  intros Hh. destruct (handle_fields h Hh) as [Ho Hl].
  unfold Offset, Size. by rewrite !wrap_u32_id.
Qed.

(** X8.  What [View] accepts.  On a handle it is nil exactly when the block
    starts below [ARENA_MIN_ADDRESS] or ends past the arena, so the invalid
    handle views nothing; a view that is not nil has the length the handle
    names and lies inside the buffer. *)
Theorem View_within_buffer g h :
  reachable g -> is_u64 h ->
  (View g h = None <->
     Offset h < ARENA_MIN_ADDRESS \/ Offset h + Size h > size g) /\
  (forall d, View g h = Some d ->
     Z.of_nat (length d) = Size h /\ ARENA_MIN_ADDRESS <= Offset h /\
     Offset h + Size h <= len (buffer g)) /\
  View g ARENA_INVALID_ADDRESS = None.
Proof.
  intros Hg Hh. pose proof (reachable_inv g Hg) as Hinv.
  destruct (arena_inv_bounds g Hinv) as [Hsize _].
  destruct Hinv as (Hlen & _).
  destruct (handle_decode h Hh) as [-> ->].
  destruct (handle_fields h Hh) as [Ho Hl].
  assert (Hview : View g h =
    if (Z.shiftr h 32 <? ARENA_MIN_ADDRESS)
       || (Z.shiftr h 32 + Z.land h (2 ^ 32 - 1) >? size g)
    then None
    else Some (read_bytes (cells (buffer g)) (Z.shiftr h 32)
                 (Z.to_nat (Z.land h (2 ^ 32 - 1))))).
  { unfold View. by rewrite !wrap_u64_id by (unfold is_u64; lia). }
  rewrite Hview. unfold ARENA_MIN_ADDRESS.
  destruct (Z.ltb_spec (Z.shiftr h 32) 128);
    destruct (Z.gtb_spec (Z.shiftr h 32 + Z.land h (2 ^ 32 - 1)) (size g)); cbn [orb].
  all: split; [split; intros ?; first [done|lia]|].
  all: split; [|done].
  all: try done.
  intros d [= <-]. rewrite length_read_bytes. lia.
Qed.

(** X9.  Bytes copied into a fresh block are the bytes its handle views
    afterwards, and the copy leaves every block that was handed out before
    as it was. *)
Theorem View_after_copy g d h g' :
  reachable g -> Z.of_nat (length d) <= ARENA_MAX_ALLOC_SIZE ->
  Allocate g (Z.of_nat (length d)) = (h, g') -> h <> ARENA_INVALID_ADDRESS ->
  (exists v, View g' h = Some v /\ length v = length d) /\
  View (copy_to_view g' h d) h = Some d /\
  (forall h0 v0, is_u64 h0 -> Offset h0 + Size h0 <= cursor g ->
     View g' h0 = Some v0 -> View (copy_to_view g' h d) h0 = Some v0).
Proof.
  intros Hg Hd Ha Hne. pose proof (reachable_inv g Hg) as Hinv.
  destruct (arena_inv_bounds g Hinv) as [Hsize Hcur].
  destruct Hinv as (_ & _ & Hmin & _).
  assert (Hsz : is_i64 (Z.of_nat (length d))).
  { unfold is_i64, ARENA_MAX_ALLOC_SIZE in *. lia. }
  destruct (Allocate_cases_bounds g _ Hsize Hcur Hsz) as [[_ Heq]|(H0 & Hfit & Heq)];
    rewrite Heq in Ha; injection Ha as <- <-; [done|].
  pose proof (align_bounds (Z.of_nat (length d))
                ltac:(unfold ARENA_MAX_ALLOC_SIZE in *; lia)) as Hal.
  rewrite copy_to_view_pack by (cbn; lia).
  split; [|split].
  - eexists. split.
    + apply View_pack; cbn; lia.
    + by rewrite length_read_bytes, Nat2Z.id.
  - apply (View_written (set_cursor g _)); cbn; lia.
  - intros h0 v0 Hh0 Hbelow Hv.
    destruct (handle_decode h0 Hh0) as [Ho Hs]. rewrite Ho, Hs in Hbelow.
    destruct (handle_fields h0 Hh0) as [Hfo Hfl].
    unfold View in Hv |- *. unfold with_cells, set_cursor in *.
    cbn [size buffer cells] in *.
    destruct (_ || _); [done|]. injection Hv as <-. f_equal.
    apply read_write_disjoint. left. rewrite Z2Nat.id by lia. lia.
Qed.

End marena_more.

(** ** The generator behind [randLevel] *)

Module splitmix64_facts.
Import splitmix64 splitmix64_spec.

Lemma wrap_u64_range z : is_u64 (wrap_u64 z).
Proof. unfold is_u64, wrap_u64. apply Z.mod_pos_bound. lia. Qed.

Lemma lxor_u64 a b : is_u64 a -> is_u64 b -> is_u64 (Z.lxor a b).
Proof.
  unfold is_u64. intros Ha Hb.
  assert (H0 : 0 <= Z.lxor a b) by (apply Z.lxor_nonneg; lia).
  split; [done|].
  destruct (Z.eq_dec (Z.lxor a b) 0) as [->|Hne]; [lia|].
  apply Z.log2_lt_pow2; [lia|].
  pose proof (Z.log2_lxor a b ltac:(lia) ltac:(lia)) as Hl.
  assert (Hla : Z.log2 a < 64).
  { destruct (Z.eq_dec a 0) as [->|]; [done|]. apply Z.log2_lt_pow2; lia. }
  assert (Hlb : Z.log2 b < 64).
  { destruct (Z.eq_dec b 0) as [->|]; [done|]. apply Z.log2_lt_pow2; lia. }
  lia.
Qed.

Lemma shiftr_u64 a n : 0 <= n -> is_u64 a -> is_u64 (Z.shiftr a n).
Proof.
  unfold is_u64. intros Hn Ha. rewrite Z.shiftr_div_pow2 by done.
  assert (0 < 2 ^ n) by (apply Z.pow_pos_nonneg; lia).
  split; [apply Z.div_pos; lia|].
  apply Z.le_lt_trans with a; [|lia].
  apply Z.div_le_upper_bound; nia.
Qed.

Lemma next_u64 x : is_u64 (next x).
Proof.
  unfold next. apply lxor_u64; [|apply shiftr_u64; [lia|]]; apply wrap_u64_range.
Qed.

Lemma state_after_eq n : forall state,
  state_after n state = wrap_u64 (state + Z.of_nat n * IncrementConstant)
  \/ (n = O /\ state_after n state = state).
Proof.
  induction n as [|n IH]; intros state; [by right|]. left.
  cbn [state_after Splitmix64 snd].
  destruct (IH (wrap_u64 (state + IncrementConstant))) as [->|[-> ->]].
  - unfold wrap_u64. rewrite Zplus_mod_idemp_l. f_equal. lia.
  - cbn [state_after]. f_equal; lia.
Qed.

Lemma increment_invertible :
  (IncrementConstant * 0xf1de83e19937733d) mod 2 ^ 64 = 1.
Proof. reflexivity. Qed.

Lemma multiple_of_increment k :
  (k * IncrementConstant) mod 2 ^ 64 = 0 <-> k mod 2 ^ 64 = 0.
Proof.
  split; intros H.
  - assert (E : k mod 2 ^ 64
                = ((k * IncrementConstant) mod 2 ^ 64 * 0xf1de83e19937733d) mod 2 ^ 64).
    { rewrite Z.mul_mod_idemp_l by lia.
      rewrite <- Z.mul_assoc, <- Z.mul_mod_idemp_r, increment_invertible by lia.
      by rewrite Z.mul_1_r. }
    rewrite E, H. done.
  - rewrite <- Z.mul_mod_idemp_l, H by lia. done.
Qed.

(** X10.  [Splitmix64] keeps its state and its draws within 64 bits; the state
    after [n] calls is the seed plus [n] times [IncrementConstant], modulo
    [2^64], and, the constant being odd, it only comes back to the seed when
    [n] is a multiple of [2^64]. *)
Theorem Splitmix64_full_period state n :
  is_u64 state ->
  is_u64 (Splitmix64 state).1 /\ is_u64 (Splitmix64 state).2 /\
  state_after n state = wrap_u64 (state + Z.of_nat n * IncrementConstant) /\
  (state_after n state = state <-> Z.of_nat n mod 2 ^ 64 = 0).
Proof.
  intros Hs. split; [apply next_u64|]. split; [apply wrap_u64_range|].
  assert (E : state_after n state = wrap_u64 (state + Z.of_nat n * IncrementConstant)).
  { destruct (state_after_eq n state) as [->|[-> ->]]; [done|].
    cbn. rewrite Z.add_0_r. symmetry. by apply wrap_u64_id. }
  split; [done|]. rewrite E, <- multiple_of_increment.
  unfold wrap_u64, is_u64 in *.
  set (k := Z.of_nat n * IncrementConstant).
  split; intros H.
  - assert (E2 : k mod 2 ^ 64 = ((state + k) mod 2 ^ 64 - state mod 2 ^ 64) mod 2 ^ 64).
    { rewrite <- Zminus_mod. f_equal. lia. }
    rewrite E2, H, (Z.mod_small state), Z.sub_diag by lia. done.
  - rewrite <- Zplus_mod_idemp_r, H, Z.add_0_r by lia. apply Z.mod_small. lia.
Qed.

End splitmix64_facts.

Module randLevel_facts.
Import splitmix64 splitmix64_spec marena mskip.

Lemma state_after_S n state :
  state_after (S n) state = state_after n (Splitmix64 state).2.
Proof. done. Qed.

Lemma randLevel_loop_draws n : forall lvl sd,
  1 <= lvl <= 24 -> (Z.to_nat (24 - lvl) < n)%nat ->
  exists k : nat,
    (randLevel_loop n lvl sd).1 = lvl + Z.of_nat k /\ lvl + Z.of_nat k <= 24 /\
    (forall m, (m < k)%nat -> (Splitmix64 (state_after m sd)).1 mod 2 = 0) /\
    ((lvl + Z.of_nat k < 24 /\ (Splitmix64 (state_after k sd)).1 mod 2 <> 0 /\
      (randLevel_loop n lvl sd).2 = state_after (S k) sd)
     \/ (lvl + Z.of_nat k = 24 /\ (randLevel_loop n lvl sd).2 = state_after k sd)).
Proof.
  induction n as [|n IH]; intros lvl sd Hlvl Hfuel; [lia|].
  cbn [randLevel_loop]. unfold MSKIP_MAX_LEVEL.
  destruct (Z.ltb_spec lvl 24) as [Hlt|Hge].
  - destruct (Splitmix64 sd) as [r sd'] eqn:Hdraw.
    destruct (Z.eqb_spec (r mod 2) 0) as [Heven|Hodd].
    + destruct (IH (lvl + 1) sd' ltac:(lia) ltac:(lia)) as (k & Hl & Hle & Hev & Hend).
      exists (S k). split; [rewrite Hl; lia|]. split; [lia|]. split.
      * intros [|m] Hm; cbn [state_after]; [by rewrite Hdraw|].
        rewrite Hdraw. apply Hev. lia.
      * rewrite !state_after_S, Hdraw. cbn [snd].
        destruct Hend as [(H1 & H2 & H3)|(H1 & H3)]; [left|right].
        -- split; [lia|]. split; [exact H2|exact H3].
        -- split; [lia|exact H3].
    + exists 0%nat. cbn [fst snd]. split; [lia|]. split; [lia|].
      split; [intros m Hm; lia|]. left. cbn [state_after]. rewrite Hdraw.
      split; [lia|]. split; [exact Hodd|reflexivity].
  - exists 0%nat. cbn [fst snd state_after]. split; [lia|]. split; [lia|].
    split; [intros m Hm; lia|]. right. split; [lia|reflexivity].
Qed.

(** X11.  How [randLevel] reads the generator.  The level is one more than the
    number of even draws that come before the first odd draw, and stops at
    24; the seed it leaves is the seed after those draws, the odd one
    included, and nothing else of the list changes. *)
Theorem randLevel_draws g :
  exists k : nat,
    (randLevel g).1 = 1 + Z.of_nat k /\ 1 + Z.of_nat k <= MSKIP_MAX_LEVEL /\
    (forall m, (m < k)%nat -> (Splitmix64 (state_after m (seed g))).1 mod 2 = 0) /\
    ((1 + Z.of_nat k < MSKIP_MAX_LEVEL /\
      (Splitmix64 (state_after k (seed g))).1 mod 2 <> 0 /\
      seed (randLevel g).2 = state_after (S k) (seed g))
     \/ (1 + Z.of_nat k = MSKIP_MAX_LEVEL /\
         seed (randLevel g).2 = state_after k (seed g))) /\
    arena (randLevel g).2 = arena g /\ head (randLevel g).2 = head g /\
    refCount (randLevel g).2 = refCount g.
Proof.
  destruct (randLevel_loop_draws 24 1 (seed g) ltac:(lia) ltac:(cbn; lia))
    as (k & Hl & Hle & Hev & Hend).
  exists k. unfold randLevel, MSKIP_MAX_LEVEL.
  destruct (randLevel_loop 24 1 (seed g)) as [lvl sd]. cbn [fst snd] in *.
  split; [exact Hl|]. split; [exact Hle|]. split; [exact Hev|].
  split; [exact Hend|]. done.
Qed.

End randLevel_facts.

(** ** Iteration beyond the written specification *)

Module iterator_more.
Import marena marena_spec marena_facts marena_proofs memory_facts.
Import mskip mskip_spec chain_facts frame_facts search_proofs update_facts link_proofs.
Import insert_proofs iterator_proofs mskip_claims.

Lemma first_live_cases L :
  (first_live L = 0 /\ Forall (fun e => e_val e = None) L /\ live L = [])
  \/ exists T e v R, L = T ++ e :: R /\ Forall (fun e => e_val e = None) T /\
       e_val e = Some v /\ first_live L = e_off e /\
       live L = (Some (e_key e), Some v) :: live R.
Proof.
  induction L as [|e L IH]; [by left|].
  rewrite live_cons. cbn [first_live].
  destruct (e_val e) as [v|] eqn:Hv.
  - right. exists [], e, v, L. by rewrite Hv.
  - destruct IH as [(H0 & Hall & Hl)|(T & e' & v & R & -> & HT & Hv' & Hf & Hl)].
    + left. split; [done|]. split; [by constructor|done].
    + right. exists (e :: T), e', v, R. split; [done|]. split; [by constructor|]. done.
Qed.

Lemma live_app A B : live (A ++ B) = live A ++ live B.
Proof. unfold live. apply omap_app. Qed.

Lemma elem_of_live L k v :
  (k, v) ∈ live L <-> exists e d, e ∈ L /\ e_val e = Some d /\ k = Some (e_key e) /\ v = Some d.
Proof.
  unfold live. rewrite list_elem_of_omap. split.
  - intros (e & He & Hm). destruct (e_val e) as [d|] eqn:Hd; [|done].
    injection Hm as <- <-. by exists e, d.
  - intros (e & d & He & Hd & -> & ->). exists e. by rewrite Hd.
Qed.

Lemma node_ok_tombstone g e : node_ok g e -> e_val e = None -> tombstone g (e_off e).
Proof.
  intros (nd & Hnd & _ & _ & _ & _ & _ & Hv) He. rewrite He in Hv. by exists nd.
Qed.

Lemma node_ok_live g e v : node_ok g e -> e_val e = Some v -> live_node g (e_off e).
Proof.
  intros (nd & Hnd & _ & _ & _ & _ & _ & Hv) He. rewrite He in Hv.
  destruct Hv as [Hnz _]. by exists nd.
Qed.

Lemma node_ok_value g e nd :
  node_ok g e -> getNode g (e_off e) = Some nd ->
  (valuePtr nd = ARENA_INVALID_ADDRESS <-> e_val e = None) /\
  (forall d, e_val e = Some d -> View (arena g) (valuePtr nd) = Some d).
Proof.
  intros (nd' & Hnd & _ & _ & _ & _ & _ & Hv) Hg. rewrite Hnd in Hg. injection Hg as ->.
  destruct (e_val e) as [d|]; cbn in Hv.
  - destruct Hv as [Hnz [Hview _]]. split; [split; [done|done]|]. by intros ? [= <-].
  - split; [done|done].
Qed.

Section WithOrder.

Context (compare : list byte -> list byte -> Z).
Context (Hord : total_order compare).

Lemma key_cases key L :
  StronglySorted (key_lt compare) L ->
  (exists A e B, L = A ++ e :: B /\ e_key e = key)
  \/ (exists A B, L = A ++ B /\
        Forall (fun e => compare key (e_key e) > 0) A /\
        Forall (fun e => compare key (e_key e) < 0) B).
Proof.
  intros Hs. destruct (sorted_split compare Hord key L Hs) as (A & B & -> & HA & HB).
  destruct B as [|e B].
  - right. exists A, []. by rewrite Forall_nil.
  - apply Forall_cons in HB as [He HB].
    destruct (Z.eq_dec (compare key (e_key e)) 0) as [Heq|Hne].
    + left. exists A, e, B. split; [done|]. symmetry. by apply (compare_eq compare Hord).
    + right. exists A, (e :: B). split; [done|]. split; [done|].
      apply StronglySorted_app_1_r in Hs. apply StronglySorted_cons in Hs as [Hlt _].
      constructor; [lia|].
      eapply Forall_impl; [exact Hlt|]. unfold key_lt. intros x Hx.
      apply (compare_trans compare Hord _ (e_key e)); [lia|done].
Qed.

Lemma absent_not_elem key A B e :
  Forall (fun e => compare key (e_key e) > 0) A ->
  Forall (fun e => compare key (e_key e) < 0) B ->
  e ∈ A ++ B -> e_key e <> key.
Proof.
  rewrite !Forall_forall. intros HA HB Hin Hk.
  pose proof (compare_refl compare Hord key) as Hr.
  apply elem_of_app in Hin as [Hin|Hin].
  - specialize (HA e Hin). rewrite Hk in HA. lia.
  - specialize (HB e Hin). rewrite Hk in HB. lia.
Qed.

Lemma offs_app A B : offs (A ++ B) = offs A ++ offs B.
Proof. unfold offs. apply fmap_app. Qed.

(** [Seek] at a key that is not in the list. *)
Lemma Seek_absent g A B key :
  Rep compare g (A ++ B) ->
  Forall (fun e => compare key (e_key e) > 0) A ->
  Forall (fun e => compare key (e_key e) < 0) B ->
  Seek compare (Iterator g) key
  = Some (match A with
          | [] => (false, MkIter (skl (Iterator g)) 0)
          | _ => (Valid (MkIter (skl (Iterator g)) (first_live B)),
                  MkIter (skl (Iterator g)) (first_live B))
          end).
Proof.
  intros Hrep0 HA HB0. pose proof (Rep_Iterator compare g _ Hrep0) as Hrep.
  set (it := Iterator g). set (g1 := skl it) in *.
  assert (HB : Forall (fun x => compare key (e_key x) <= 0) B).
  { eapply Forall_impl; [exact HB0|]. intros x Hx. cbn in Hx. lia. }
  destruct (seeklt_spec compare Hord g1 key A B Hrep HA HB (Some zero_log) eq_refl)
    as (log & Hrun & _ & _).
  pose proof (Rep_levels compare g1 _ Hrep) as Hlv.
  apply Forall_app in Hlv as [HlvA HlvB].
  pose proof (links_from_pred compare g1 A B Hrep 0 ltac:(lia)) as Hl0.
  rewrite !chain_at_0 in Hl0 by done.
  pose proof (links_head _ _ _ _ _ Hl0) as Hnext.
  pose proof Hrep as (_ & _ & Hnd & Hall & _).
  apply Forall_app in Hall as [HallA HallB].
  assert (Hcmp : forall b, b ∈ B -> (compare key (e_key b) =? 0) = false).
  { intros b Hb. rewrite Forall_forall in HB0. specialize (HB0 b Hb). cbn in HB0.
    apply Z.eqb_neq. lia. }
  assert (Hnextkey : forall p,
    next_at g1 0 p = Some (hd 0 (offs B)) ->
    (nextNodePtr ← next_at g1 0 p;
     if nextNodePtr =? ARENA_INVALID_ADDRESS
     then Some (set_current it p)
     else k ← nodeKey g1 nextNodePtr;
          if compare key (slice_bytes k) =? 0
          then Some (set_current it nextNodePtr)
          else Some (set_current it p)) = Some (set_current it p)).
  { intros p ->. cbn [mbind option_bind].
    destruct B as [|b B']; [done|].
    apply Forall_cons in HallB as [Hb _].
    destruct (node_ok_key g1 b Hb) as [Hnz Hkey]. cbn [offs fmap list_fmap hd].
    destruct (Z.eqb_spec (e_off b) ARENA_INVALID_ADDRESS); [done|].
    rewrite Hkey. cbn [mbind option_bind]. simpl slice_bytes.
    rewrite Hcmp by set_solver. done. }
  destruct A as [|a0 A0] using rev_ind.
  - (* nothing below the key *)
    cbn [offs fmap list_fmap] in Hrun, Hnext.
    change (last_or (head g1) []) with (head g1) in Hrun, Hnext.
    assert (Hle : seekle compare it key = Some (MkIter g1 0)).
    { unfold seekle. fold g1. rewrite Hrun. cbn [mbind option_bind]. cbv beta iota.
      rewrite Z.eqb_refl. rewrite Hnext. cbn [mbind option_bind].
      destruct B as [|b B']; [done|].
      apply Forall_cons in HallB as [Hb _].
      destruct (node_ok_key g1 b Hb) as [Hnz Hkey]. cbn [offs fmap list_fmap hd].
      destruct (Z.eqb_spec (e_off b) ARENA_INVALID_ADDRESS); [done|].
      rewrite Hkey. cbn [mbind option_bind]. simpl slice_bytes.
      rewrite Hcmp by set_solver. done. }
    unfold Seek. rewrite Hle. done.
  - clear IHA0.
    rewrite offs_app in Hrun, Hnext, Hl0, Hnd.
    cbn [offs fmap list_fmap] in Hrun, Hnext, Hl0, Hnd.
    rewrite last_or_snoc in Hrun, Hnext, Hl0.
    apply Forall_app in HallA as [_ Ha]. apply Forall_cons in Ha as [Ha _].
    apply Forall_app in HA as [_ Hka]. apply Forall_cons in Hka as [Hka _].
    destruct (node_ok_key g1 a0 Ha) as [Hnz Hkey].
    assert (Hnh : e_off a0 <> head g1).
    { apply NoDup_cons in Hnd as [Hnotin _]. intros Heq. apply Hnotin.
      assert (Hin : e_off a0 ∈ offs (A0 ++ [a0]) ++ offs B).
      { rewrite offs_app. cbn. set_solver. }
      rewrite Heq in Hin. exact Hin. }
    assert (Hle : seekle compare it key = Some (MkIter g1 (e_off a0))).
    { unfold seekle. fold g1. rewrite Hrun. cbn [mbind option_bind]. cbv beta iota.
      destruct (Z.eqb_spec (e_off a0) (head g1)); [done|].
      by rewrite Hnextkey. }
    unfold Seek. rewrite Hle. cbn [mbind option_bind].
    unfold Valid at 1. cbn [current].
    destruct (Z.eqb_spec (e_off a0) ARENA_INVALID_ADDRESS); [done|]. cbn [negb].
    rewrite (Key_at g1 a0 Ha). cbn [mbind option_bind]. simpl slice_bytes.
    apply (compare_gt_lt compare Hord) in Hka.
    destruct (Z.ltb_spec (compare (e_key a0) key) 0); [|lia].
    rewrite (Next_at compare g1 _ (e_off a0) B Hrep Hnz Hl0 HallB).
    2:{ rewrite !length_app. lia. }
    cbn [mbind option_bind]. cbv beta iota.
    by destruct A0.
Qed.


Lemma Valid_at g (e : entry) : node_ok g e -> Valid (MkIter g (e_off e)) = true.
Proof.
  intros Hok. destruct (node_ok_key g e Hok) as [Hnz _].
  unfold Valid. cbn [current]. by destruct (Z.eqb_spec (e_off e) ARENA_INVALID_ADDRESS).
Qed.

Lemma live_keys_below key A :
  Forall (fun e => compare key (e_key e) > 0) A ->
  Forall (fun y : slice * slice => compare (slice_bytes y.1) key < 0) (live A).
Proof.
  rewrite !Forall_forall. intros HA [k v] (e & d & He & _ & -> & _)%elem_of_live.
  cbn. apply (compare_gt_lt compare Hord). by apply HA.
Qed.

Lemma live_keys_above key B :
  Forall (fun e => compare key (e_key e) < 0) B ->
  Forall (fun y : slice * slice => compare key (slice_bytes y.1) < 0) (live B).
Proof.
  rewrite !Forall_forall. intros HB [k v] (e & d & He & _ & -> & _)%elem_of_live.
  cbn. by apply HB.
Qed.

(** X12.  Where [Seek] leaves the iterator, in every case.  On a key that is
    linked it stops on that node, live or not.  On a key that is not linked
    it stops on the first live pair above the key, or is invalid when there
    is none, provided some node lies below the key; when no node lies below
    the key it is invalid whatever lies above. *)
Theorem Seek_positions g key :
  reachable compare g ->
  exists chain ys b it,
    linked g = Some chain /\ forward g = Some ys /\
    Seek compare (Iterator g) key = Some (b, it) /\ b = Valid it /\
    (forall p, p ∈ chain -> nodeKey g p = Some (Some key) -> b = true /\ current it = p) /\
    (~ holds_key g key ->
       (forall p k, p ∈ chain -> nodeKey g p = Some (Some k) -> compare key k < 0) ->
       b = false) /\
    (~ holds_key g key ->
       (exists p k, p ∈ chain /\ nodeKey g p = Some (Some k) /\ compare k key < 0) ->
       exists lo hi, ys = lo ++ hi /\
         Forall (fun y => compare (slice_bytes y.1) key < 0) lo /\
         Forall (fun y => compare key (slice_bytes y.1) < 0) hi /\
         match hi with
         | [] => b = false
         | y :: _ => b = true /\ Key it = Some y.1 /\ Value it = Some y.2
         end).
Proof.
  intros Hreach. destruct (reachable_Rep compare Hord g Hreach) as [L Hrep].
  pose proof (Rep_Iterator compare g L Hrep) as Hrep1.
  pose proof Hrep as (_ & _ & _ & _ & Hsorted & _).
  pose proof (holds_key_iff compare g L key Hrep) as Hholds.
  exists (offs L), (live L).
  destruct (key_cases key L Hsorted) as [(A & e & B & -> & Hke)|(A & B & -> & HA & HB)].
  - (* the key is linked *)
    assert (He : e ∈ A ++ e :: B) by set_solver.
    pose proof (Rep_entry compare _ _ e Hrep1 He) as Hok.
    exists true, (MkIter (skl (Iterator g)) (e_off e)).
    split; [by apply (linked_spec compare)|]. split; [by apply (forward_spec compare)|].
    split; [rewrite <- Hke; exact (Seek_found compare Hord g A e B Hrep)|].
    split; [symmetry; by apply Valid_at|].
    split; [|split].
    + intros p Hp Hk. split; [done|].
      destruct (Rep_key_of compare g _ p key Hrep Hp Hk) as (e' & He' & <- & Hk').
      cbn. f_equal. apply (sorted_key_inj compare Hord _ e e' Hsorted); congruence.
    + intros Hno. destruct Hno. apply Hholds. by exists e.
    + intros Hno. destruct Hno. apply Hholds. by exists e.
  - (* the key is not linked *)
    pose proof (absent_not_elem key A B) as Habs.
    pose proof (Seek_absent g A B key Hrep HA HB) as Hseek.
    pose proof Hrep1 as (_ & _ & _ & Hall & _). apply Forall_app in Hall as [_ HallB].
    assert (Hnokey : forall p, p ∈ offs (A ++ B) -> nodeKey g p = Some (Some key) -> False).
    { intros p Hp Hk.
      destruct (Rep_key_of compare g _ p key Hrep Hp Hk) as (e' & He' & _ & Hk').
      by destruct (Habs e' HA HB He'). }
    destruct A as [|a A'].
    + exists false, (MkIter (skl (Iterator g)) 0).
      split; [by apply (linked_spec compare)|]. split; [by apply (forward_spec compare)|].
      split; [done|]. split; [done|]. split; [|split].
      * intros p Hp Hk. by destruct (Hnokey p Hp Hk).
      * done.
      * intros _ (p & k & Hp & Hk & Hlt).
        destruct (Rep_key_of compare g _ p k Hrep Hp Hk) as (e' & He' & _ & <-).
        rewrite Forall_forall in HB. specialize (HB e' He'). cbn in HB.
        apply (compare_anti compare Hord) in Hlt. lia.
    + eexists _, _.
      split; [by apply (linked_spec compare)|]. split; [by apply (forward_spec compare)|].
      split; [exact Hseek|]. split; [done|]. split; [|split].
      * intros p Hp Hk. by destruct (Hnokey p Hp Hk).
      * intros _ Hall. exfalso.
        assert (Ha : a ∈ (a :: A') ++ B) by set_solver.
        destruct (node_ok_key g a (Rep_entry compare g _ a Hrep Ha)) as [_ Hka].
        assert (Hpa : e_off a ∈ offs ((a :: A') ++ B)) by (by apply list_elem_of_fmap_2).
        specialize (Hall _ _ Hpa Hka).
        apply Forall_cons in HA as [HA _]. lia.
      * intros _ _. exists (live (a :: A')), (live B).
        split; [apply live_app|]. split; [by apply live_keys_below|].
        split; [by apply live_keys_above|].
        destruct (first_live_cases B)
          as [(-> & _ & ->)|(T & e & v & R & -> & _ & Hv & -> & ->)]; [done|].
        apply Forall_app in HallB as [_ HallB]. apply Forall_cons in HallB as [Hok _].
        split; [by apply Valid_at|]. cbn [fst snd].
        split; [by apply Key_at|]. rewrite <- Hv. by apply Value_at.
Qed.

(** X13.  Insert, then look up: after a successful [Insert] of a value that is
    not nil, [Seek] at the key finds it and the iterator reads back the key
    and the value, and forward iteration yields the pair. *)
Theorem Insert_then_Seek g key v g' :
  reachable compare g -> len_ok key -> len_ok v ->
  Insert compare g key (Some v) = Some (true, g') ->
  (exists it, Seek compare (Iterator g') key = Some (true, it) /\
     Key it = Some (Some key) /\ Value it = Some (Some v)) /\
  (exists ys, forward g' = Some ys /\ (Some key, Some v) ∈ ys).
Proof.
  intros Hreach Hk Hv Hins. destruct (reachable_Rep compare Hord g Hreach) as [L Hrep].
  destruct (Insert_true compare Hord g L key (Some v) g' Hrep Hk Hv Hins)
    as (A & e & B & Hrep' & Hke & Hve & _).
  pose proof (Rep_Iterator compare g' _ Hrep') as Hrep1.
  assert (He : e ∈ A ++ e :: B) by set_solver.
  pose proof (Rep_entry compare _ _ e Hrep1 He) as Hok.
  split.
  - exists (MkIter (skl (Iterator g')) (e_off e)).
    split; [rewrite <- Hke; exact (Seek_found compare Hord g' A e B Hrep')|].
    split; [rewrite <- Hke; by apply Key_at|].
    rewrite <- Hve. by apply Value_at.
  - exists (live (A ++ e :: B)). split; [by apply (forward_spec compare)|].
    apply elem_of_live. exists e, v. by rewrite Hke.
Qed.

Lemma live_sorted L :
  StronglySorted (key_lt compare) L ->
  StronglySorted (fun a b : slice * slice => compare (slice_bytes a.1) (slice_bytes b.1) < 0)
    (live L).
Proof.
  induction 1 as [|e L Hs IH He]; [constructor|].
  rewrite live_cons. destruct (e_val e) as [v|]; [|done].
  constructor; [done|].
  apply Forall_forall.
  intros [k x] (e' & d & He' & _ & -> & _)%elem_of_live. cbn.
  rewrite Forall_forall in He. by apply He.
Qed.

(** X14.  Forward iteration yields the linked nodes that hold a value, each once,
    with its key and its value, in strictly ascending key order. *)
Theorem forward_ascending g :
  reachable compare g ->
  exists chain ys,
    linked g = Some chain /\ forward g = Some ys /\
    StronglySorted
      (fun a b : slice * slice => compare (slice_bytes a.1) (slice_bytes b.1) < 0) ys /\
    (forall k v, (k, v) ∈ ys <->
       exists p nd, p ∈ chain /\ getNode g p = Some nd /\
         valuePtr nd <> ARENA_INVALID_ADDRESS /\
         nodeKey g p = Some k /\ View (arena g) (valuePtr nd) = v) /\
    (forall k v, (k, v) ∈ ys -> k <> None /\ v <> None).
Proof.
  intros Hreach. destruct (reachable_Rep compare Hord g Hreach) as [L Hrep].
  pose proof Hrep as (_ & _ & _ & Hall & Hsorted & _).
  exists (offs L), (live L).
  split; [by apply (linked_spec compare)|]. split; [by apply (forward_spec compare)|].
  split; [by apply live_sorted|]. split.
  - intros k v. rewrite elem_of_live. split.
    + intros (e & d & He & Hd & -> & ->).
      pose proof (Rep_entry compare g L e Hrep He) as Hok.
      destruct (node_ok_key g e Hok) as [_ Hkey].
      pose proof Hok as (nd & Hnd & _).
      destruct (node_ok_value g e nd Hok Hnd) as [Hz Hview].
      exists (e_off e), nd. split; [by apply list_elem_of_fmap_2|].
      split; [done|]. split; [|split; [done|by apply Hview]].
      intros Hzero. apply Hz in Hzero. congruence.
    + intros (p & nd & Hp & Hnd & Hnz & Hk & Hv).
      apply list_elem_of_fmap in Hp as (e & -> & He).
      pose proof (Rep_entry compare g L e Hrep He) as Hok.
      destruct (node_ok_key g e Hok) as [_ Hkey].
      destruct (node_ok_value g e nd Hok Hnd) as [Hz Hview].
      destruct (e_val e) as [d|] eqn:Hd; [|by destruct Hnz; apply Hz].
      exists e, d. split; [done|]. split; [done|].
      rewrite Hkey in Hk. injection Hk as <-. split; [done|].
      rewrite <- Hv. by apply Hview.
  - intros k v (e & d & _ & _ & -> & ->)%elem_of_live. done.
Qed.

Lemma offs_split L c1 p c2 :
  offs L = c1 ++ p :: c2 ->
  exists L1 e L2, L = L1 ++ e :: L2 /\ offs L1 = c1 /\ e_off e = p /\ offs L2 = c2.
Proof.
  unfold offs. intros H.
  apply fmap_app_inv in H as (L1 & L2' & -> & H2 & ->).
  destruct L2' as [|e L2]; [done|]. cbn in H2. injection H2 as -> ->.
  by exists L1, e, L2.
Qed.

Lemma links_suffix g i h L1 e L2 :
  links g i (h :: offs (L1 ++ e :: L2) ++ [0]) ->
  links g i (e_off e :: offs L2 ++ [0]).
Proof.
  rewrite offs_app. cbn [offs fmap list_fmap]. rewrite <- app_assoc. cbn [app].
  rewrite app_comm_cons. intros H. by apply links_app_mid in H as [_ ?].
Qed.

Lemma tombstones_of g T :
  Forall (node_ok g) T -> Forall (fun e => e_val e = None) T ->
  forall p, p ∈ offs T -> tombstone g p.
Proof.
  rewrite !Forall_forall. intros Hok Hn p (e & -> & He)%list_elem_of_fmap.
  apply node_ok_tombstone; auto.
Qed.

(** What a run of [Next] steps leaves: the first node ahead that holds a
    value, after tombstones only, or the invalid offset past tombstones
    only. *)
Lemma first_live_position g L :
  Forall (node_ok g) L ->
  (first_live L = 0 /\ forall p, p ∈ offs L -> tombstone g p)
  \/ (exists T R, offs L = T ++ first_live L :: R /\
        (forall p, p ∈ T -> tombstone g p) /\ live_node g (first_live L) /\
        first_live L <> 0).
Proof.
  intros Hall.
  destruct (first_live_cases L)
    as [(H0 & Hn & _)|(T & e & v & R & -> & HT & Hv & -> & _)].
  - left. split; [done|]. by apply tombstones_of.
  - right. apply Forall_app in Hall as [HallT Halle].
    apply Forall_cons in Halle as [Hok _].
    exists (offs T), (offs R). split; [by rewrite offs_app|].
    split; [by apply tombstones_of|]. split; [by eapply node_ok_live|].
    by destruct (node_ok_key g e Hok).
Qed.

(** X15.  [First] stops on the first linked node that holds a value, having
    passed tombstones only; it returns false exactly when every linked node
    is a tombstone, as in the empty list. *)
Theorem First_skips_tombstones g :
  reachable compare g ->
  exists chain b it,
    linked g = Some chain /\ First (Iterator g) = Some (b, it) /\
    skl it = skl (Iterator g) /\ b = Valid it /\
    ((b = false /\ forall p, p ∈ chain -> tombstone g p)
     \/ (b = true /\ exists T R, chain = T ++ current it :: R /\
           (forall p, p ∈ T -> tombstone g p) /\ live_node g (current it))).
Proof.
  intros Hreach. destruct (reachable_Rep compare Hord g Hreach) as [L Hrep].
  pose proof (Rep_Iterator compare g L Hrep) as Hrep1.
  pose proof Hrep1 as (_ & [Hh _] & _ & Hall1 & _). unfold ARENA_MIN_ADDRESS in Hh.
  pose proof Hrep as (_ & _ & _ & Hall & _).
  exists (offs L), (Valid (MkIter (skl (Iterator g)) (first_live L))),
    (MkIter (skl (Iterator g)) (first_live L)).
  split; [by apply (linked_spec compare)|]. split.
  { unfold First, set_current. cbn [skl].
    rewrite (Next_at compare _ L (head (skl (Iterator g))) L Hrep1
               ltac:(lia) (Rep_links0 compare _ _ Hrep1) Hall1 ltac:(lia)).
    done. }
  split; [done|]. split; [done|].
  destruct (first_live_position g L Hall) as [[-> Ht]|(T & R & HTR & HT & Hlive & Hnz)].
  - by left.
  - right. split.
    + unfold Valid. cbn [current].
      by destruct (Z.eqb_spec (first_live L) ARENA_INVALID_ADDRESS).
    + by exists T, R.
Qed.

(** X16.  [Next] from a linked node stops on the first node after it that holds
    a value, having passed tombstones only, and is invalid when only
    tombstones follow; on an invalid iterator it does nothing.  The list it
    iterates is not touched. *)
Theorem Next_skips_tombstones g it chain :
  reachable compare g -> skl it = skl (Iterator g) -> linked g = Some chain ->
  (current it = ARENA_INVALID_ADDRESS -> Next it = Some (false, it)) /\
  (forall c1 c2, chain = c1 ++ current it :: c2 ->
     exists b it', Next it = Some (b, it') /\ skl it' = skl it /\ b = Valid it' /\
       ((b = false /\ forall p, p ∈ c2 -> tombstone g p)
        \/ (b = true /\ exists T R, c2 = T ++ current it' :: R /\
              (forall p, p ∈ T -> tombstone g p) /\ live_node g (current it')))).
Proof.
  intros Hreach Hskl Hchain. destruct it as [s p]. cbn [skl current] in *. subst s.
  split.
  { intros ->. done. }
  intros c1 c2 ->.
  destruct (reachable_Rep compare Hord g Hreach) as [L Hrep].
  pose proof (Rep_Iterator compare g L Hrep) as Hrep1.
  rewrite (linked_spec compare g L Hrep) in Hchain. injection Hchain as Hoffs.
  apply offs_split in Hoffs as (L1 & e & L2 & -> & <- & <- & <-).
  pose proof Hrep1 as (_ & _ & _ & Hall1 & _).
  pose proof Hrep as (_ & _ & _ & Hall & _).
  apply Forall_app in Hall1 as [_ Hall1]. apply Forall_cons in Hall1 as [Hok1 Hall1].
  apply Forall_app in Hall as [_ Hall]. apply Forall_cons in Hall as [_ Hall].
  destruct (node_ok_key _ e Hok1) as [Hnz _].
  pose proof (links_suffix _ _ _ _ _ _ (Rep_links0 compare _ _ Hrep1)) as Hl.
  exists (Valid (MkIter (skl (Iterator g)) (first_live L2))),
    (MkIter (skl (Iterator g)) (first_live L2)).
  split.
  { apply (Next_at compare _ _ _ _ Hrep1 Hnz Hl Hall1). rewrite length_app. cbn. lia. }
  split; [done|]. split; [done|].
  destruct (first_live_position g L2 Hall) as [[-> Ht]|(T & R & HTR & HT & Hlive & Hnz')].
  - by left.
  - right. split.
    + unfold Valid. cbn [current].
      by destruct (Z.eqb_spec (first_live L2) ARENA_INVALID_ADDRESS).
    + by exists T, R.
Qed.

End WithOrder.

End iterator_more.

(** ** Searching backwards *)

Module seek_more.
Import marena marena_spec marena_facts marena_proofs memory_facts.
Import mskip mskip_spec chain_facts frame_facts search_proofs update_facts link_proofs.
Import insert_proofs iterator_proofs mskip_claims iterator_more.

Section WithOrder.

Context (compare : list byte -> list byte -> Z).
Context (Hord : total_order compare).

Lemma found_split A e B :
  StronglySorted (key_lt compare) (A ++ e :: B) ->
  Forall (fun x => compare (e_key e) (e_key x) > 0) A /\
  Forall (fun x => compare (e_key e) (e_key x) <= 0) (e :: B).
Proof.
  intros Hsorted. split.
  - apply StronglySorted_app in Hsorted as (Hab & _ & _).
    apply Forall_forall. intros x Hx. apply (compare_gt_lt compare Hord).
    apply (Hab x e); [done | by left].
  - apply StronglySorted_app_1_r in Hsorted.
    apply StronglySorted_cons in Hsorted as [Hlt _].
    constructor; [by rewrite (compare_refl compare Hord)|].
    eapply Forall_impl; [exact Hlt|]. unfold key_lt. intros x Hx. lia.
Qed.

Lemma last_offs_snoc h A a : last_or h (offs (A ++ [a])) = e_off a.
Proof. rewrite offs_app. apply last_or_snoc. Qed.

Lemma Rep_not_head g L e : Rep compare g L -> e ∈ L -> e_off e <> head g.
Proof.
  intros (_ & _ & Hnd & _) He Heq. apply NoDup_cons in Hnd as [Hnotin _].
  apply Hnotin. rewrite <- Heq. by apply list_elem_of_fmap_2.
Qed.

(** Nodes whose key is below [key] lie in the lower part of the split. *)
Lemma below_in_lower g key A B p k :
  Rep compare g (A ++ B) ->
  Forall (fun e => compare key (e_key e) <= 0) B ->
  p ∈ offs (A ++ B) -> nodeKey g p = Some (Some k) -> compare k key < 0 ->
  exists e, e ∈ A /\ e_off e = p /\ e_key e = k.
Proof.
  intros Hrep HB Hp Hk Hlt.
  destruct (Rep_key_of compare g _ p k Hrep Hp Hk) as (e & He & <- & <-).
  apply elem_of_app in He as [He|He]; [by exists e|].
  rewrite Forall_forall in HB. specialize (HB e He). cbn in HB.
  apply (compare_anti compare Hord) in Hlt. lia.
Qed.

(** The last node of the lower part has the greatest key of that part. *)
Lemma last_is_greatest A a B e :
  StronglySorted (key_lt compare) ((A ++ [a]) ++ B) -> e ∈ A ++ [a] ->
  compare (e_key e) (e_key a) <= 0.
Proof.
  intros Hsorted He. apply StronglySorted_app_1_l in Hsorted.
  apply elem_of_app in He as [He|He].
  - assert (key_lt compare e a) as Hea.
    { eapply StronglySorted_app_1_elem_of; [exact Hsorted | done | by left]. }
    unfold key_lt in Hea. lia.
  - apply list_elem_of_singleton in He as ->.
    rewrite (compare_refl compare Hord). lia.
Qed.

Lemma seekle_spec g c A B key :
  Rep compare g (A ++ B) ->
  Forall (fun e => compare key (e_key e) > 0) A ->
  Forall (fun e => compare key (e_key e) <= 0) B ->
  seekle compare (MkIter g c) key
  = Some (MkIter g
            (match B with
             | e :: _ => if compare key (e_key e) =? 0 then e_off e
                         else last_or 0 (offs A)
             | [] => last_or 0 (offs A)
             end)).
Proof.
  intros Hrep HA HB.
  destruct (seeklt_spec compare Hord g key A B Hrep HA HB (Some zero_log) eq_refl)
    as (log & Hrun & _ & _).
  pose proof (Rep_levels compare g _ Hrep) as Hlv.
  apply Forall_app in Hlv as [HlvA HlvB].
  pose proof (links_from_pred compare g A B Hrep 0 ltac:(lia)) as Hl0.
  rewrite !chain_at_0 in Hl0 by done.
  pose proof (links_head _ _ _ _ _ Hl0) as Hnext.
  pose proof Hrep as (_ & _ & _ & Hall & _).
  apply Forall_app in Hall as [HallA HallB].
  assert (Hfirst : forall p q,
    next_at g 0 p = Some (hd 0 (offs B)) ->
    (nx ← next_at g 0 p;
     if nx =? ARENA_INVALID_ADDRESS
     then Some (set_current (MkIter g c) q)
     else k ← nodeKey g nx;
          if compare key (slice_bytes k) =? 0
          then Some (set_current (MkIter g c) nx)
          else Some (set_current (MkIter g c) q))
    = Some (MkIter g (match B with
                      | e :: _ => if compare key (e_key e) =? 0 then e_off e else q
                      | [] => q
                      end))).
  { intros p q ->. cbn [mbind option_bind]. destruct B as [|b B']; [done|].
    apply Forall_cons in HallB as [Hb _].
    destruct (node_ok_key g b Hb) as [Hnz Hkey]. cbn [offs fmap list_fmap hd].
    destruct (Z.eqb_spec (e_off b) ARENA_INVALID_ADDRESS); [done|].
    rewrite Hkey. cbn [mbind option_bind]. simpl slice_bytes.
    by destruct (compare key (e_key b) =? 0). }
  unfold seekle. cbn [skl]. rewrite Hrun. cbn [mbind option_bind]. cbv beta iota.
  destruct A as [|a0 A0 _] using rev_ind.
  - change (last_or (head g) (offs [])) with (head g) in *. rewrite Z.eqb_refl.
    by apply Hfirst.
  - rewrite !last_offs_snoc in *.
    apply Forall_app in HallA as [_ Ha]. apply Forall_cons in Ha as [Ha _].
    assert (Hnh : e_off a0 <> head g).
    { eapply Rep_not_head; [exact Hrep|]. set_solver. }
    destruct (Z.eqb_spec (e_off a0) (head g)); [done|].
    by apply Hfirst.
Qed.

(** X17.  [seekle] leaves the iterator on the linked node with the greatest key
    that is not above the sought key, live or not, and invalid when every
    linked key is above it. *)
Theorem seekle_greatest_at_or_below g key :
  reachable compare g ->
  exists chain it,
    linked g = Some chain /\ seekle compare (Iterator g) key = Some it /\
    skl it = skl (Iterator g) /\
    ((Valid it = false /\
      forall p k, p ∈ chain -> nodeKey g p = Some (Some k) -> compare key k < 0)
     \/ (Valid it = true /\ current it ∈ chain /\
         exists kp, Key it = Some (Some kp) /\ compare kp key <= 0 /\
           forall p k, p ∈ chain -> nodeKey g p = Some (Some k) ->
                       compare k key <= 0 -> compare k kp <= 0)).
Proof.
  intros Hreach. destruct (reachable_Rep compare Hord g Hreach) as [L Hrep].
  pose proof (Rep_Iterator compare g L Hrep) as Hrep1.
  pose proof Hrep as (_ & _ & _ & _ & Hsorted & _).
  exists (offs L).
  destruct (key_cases compare Hord key L Hsorted)
    as [(A & e & B & -> & Hke)|(A & B & -> & HA & HB)].
  - (* the key is linked *)
    destruct (found_split A e B Hsorted) as [HA HB]. rewrite Hke in HA, HB.
    pose proof (seekle_spec _ 0 A (e :: B) key Hrep1 HA HB) as Hrun.
    assert (H0 : (compare key (e_key e) =? 0) = true).
    { rewrite Hke, (compare_refl compare Hord). done. }
    cbv beta iota in Hrun. rewrite H0 in Hrun.
    assert (He : e ∈ A ++ e :: B) by set_solver.
    pose proof (Rep_entry compare _ _ e Hrep1 He) as Hok.
    eexists. split; [by apply (linked_spec compare)|]. split; [exact Hrun|].
    split; [done|]. right.
    split; [by apply Valid_at|]. cbn [current]. split; [by apply list_elem_of_fmap_2|].
    exists key. split; [rewrite <- Hke; by apply Key_at|].
    rewrite (compare_refl compare Hord). split; [lia|]. intros; lia.
  - (* the key is not linked *)
    assert (HB' : Forall (fun x => compare key (e_key x) <= 0) B).
    { eapply Forall_impl; [exact HB|]. intros x Hx. cbn in Hx. lia. }
    pose proof (seekle_spec _ 0 A B key Hrep1 HA HB') as Hrun.
    assert (Hmatch : match B with
                     | e :: _ => if compare key (e_key e) =? 0 then e_off e
                                 else last_or 0 (offs A)
                     | [] => last_or 0 (offs A)
                     end = last_or 0 (offs A)).
    { destruct B as [|b B']; [done|]. apply Forall_cons in HB as [Hb _].
      destruct (Z.eqb_spec (compare key (e_key b)) 0); [lia|done]. }
    rewrite Hmatch in Hrun. clear Hmatch.
    eexists. split; [by apply (linked_spec compare)|]. split; [exact Hrun|].
    split; [done|].
    destruct A as [|a A0 _] using rev_ind.
    + left. split; [done|]. intros p k Hp Hk.
      destruct (Rep_key_of compare g _ p k Hrep Hp Hk) as (e & He & _ & <-).
      rewrite Forall_forall in HB. by apply HB.
    + right. rewrite last_offs_snoc.
      assert (Ha : a ∈ (A0 ++ [a]) ++ B) by set_solver.
      pose proof (Rep_entry compare _ _ a Hrep1 Ha) as Hok.
      split; [by apply Valid_at|]. cbn [current]. split; [by apply list_elem_of_fmap_2|].
      exists (e_key a). split; [by apply Key_at|].
      assert (Hlt : compare (e_key a) key < 0).
      { apply (compare_gt_lt compare Hord).
        rewrite Forall_forall in HA. apply HA. set_solver. }
      split; [lia|]. intros p k Hp Hk Hle.
      destruct (Rep_key_of compare g _ p k Hrep Hp Hk) as (e & He & _ & <-).
      apply elem_of_app in He as [He|He]; [by eapply last_is_greatest|].
      rewrite Forall_forall in HB. specialize (HB e He). cbn in HB.
      destruct (Z.eq_dec (compare (e_key e) key) 0) as [H0|Hn0].
      * apply (compare_eq compare Hord) in H0. rewrite H0 in HB.
        rewrite (compare_refl compare Hord) in HB. lia.
      * assert (Hlt' : compare (e_key e) key < 0) by lia.
        apply (compare_anti compare Hord) in Hlt'. lia.
Qed.

(** X18.  The iterator's own [seeklt] leaves it on the linked node with the
    greatest key below the sought key.  When no linked key is below it the
    iterator rests on the head node: it still reports [Valid], with a nil
    key. *)
Theorem SkipListIterator_seeklt_position g key :
  reachable compare g ->
  exists chain it,
    linked g = Some chain /\
    SkipListIterator_seeklt compare (Iterator g) key = Some it /\
    skl it = skl (Iterator g) /\ Valid it = true /\
    ((current it = head g /\ Key it = Some None /\
      forall p k, p ∈ chain -> nodeKey g p = Some (Some k) -> ~ compare k key < 0)
     \/ (current it ∈ chain /\
         exists kp, Key it = Some (Some kp) /\ compare kp key < 0 /\
           forall p k, p ∈ chain -> nodeKey g p = Some (Some k) ->
                       compare k key < 0 -> compare k kp <= 0)).
Proof.
  intros Hreach. destruct (reachable_Rep compare Hord g Hreach) as [L Hrep].
  pose proof (Rep_Iterator compare g L Hrep) as Hrep1.
  pose proof Hrep as (_ & _ & _ & _ & Hsorted & _).
  destruct (sorted_split compare Hord key L Hsorted) as (A & B & -> & HA & HB).
  destruct (seeklt_spec compare Hord _ key A B Hrep1 HA HB (Some zero_log) eq_refl)
    as (log & Hrun & _ & _).
  exists (offs (A ++ B)), (MkIter (skl (Iterator g)) (last_or (head g) (offs A))).
  split; [by apply (linked_spec compare)|]. split.
  { unfold SkipListIterator_seeklt. rewrite Hrun. done. }
  split; [done|].
  destruct A as [|a A0 _] using rev_ind.
  - change (last_or (head g) (offs [])) with (head g).
    pose proof Hrep as (_ & (Hh & nd & Hnd & _ & Hkp) & _).
    unfold ARENA_MIN_ADDRESS in Hh.
    assert (Hv : Valid (MkIter (skl (Iterator g)) (head g)) = true).
    { unfold Valid. cbn [current].
      destruct (Z.eqb_spec (head g) ARENA_INVALID_ADDRESS) as [Hz|]; [|done].
      unfold ARENA_INVALID_ADDRESS in Hz. lia. }
    split; [done|]. left. split; [done|]. split.
    + unfold Key. rewrite Hv. cbn [negb skl current].
      exact (Rep_head_key compare _ _ Hrep1).
    + intros p k Hp Hk Hlt.
      destruct (below_in_lower g key [] B p k Hrep HB Hp Hk Hlt) as (e & He & _).
      by apply elem_of_nil in He.
  - rewrite last_offs_snoc.
    assert (Ha : a ∈ (A0 ++ [a]) ++ B) by set_solver.
    pose proof (Rep_entry compare _ _ a Hrep1 Ha) as Hok.
    split; [by apply Valid_at|]. right. cbn [current].
    split; [by apply list_elem_of_fmap_2|].
    exists (e_key a). split; [by apply Key_at|].
    split.
    { apply (compare_gt_lt compare Hord). rewrite Forall_forall in HA. apply HA. set_solver. }
    intros p k Hp Hk Hlt.
    destruct (below_in_lower g key _ B p k Hrep HB Hp Hk Hlt) as (e & He & _ & <-).
    by eapply last_is_greatest.
Qed.


(** X19.  [Prev] from a linked node steps to the node linked just before it,
    tombstone or not, and leaves the iterator invalid, returning false, at
    the first node; on an invalid iterator it does nothing. *)
Theorem Prev_steps_back g it chain :
  reachable compare g -> skl it = skl (Iterator g) -> linked g = Some chain ->
  (current it = ARENA_INVALID_ADDRESS -> Prev compare it = Some (false, it)) /\
  (forall c1 c2, chain = c1 ++ current it :: c2 ->
     Prev compare it
     = Some (match last c1 with
             | None => (false, set_current it ARENA_INVALID_ADDRESS)
             | Some q => (true, set_current it q)
             end)).
Proof.
  intros Hreach Hskl Hchain. destruct it as [s p]. cbn [skl current] in *. subst s.
  split.
  { intros ->. done. }
  intros c1 c2 ->.
  destruct (reachable_Rep compare Hord g Hreach) as [L Hrep].
  pose proof (Rep_Iterator compare g L Hrep) as Hrep1.
  rewrite (linked_spec compare g L Hrep) in Hchain. injection Hchain as Hoffs.
  apply offs_split in Hoffs as (L1 & e & L2 & -> & <- & <- & <-).
  pose proof Hrep as (_ & _ & _ & _ & Hsorted & _).
  destruct (found_split L1 e L2 Hsorted) as [HA HB].
  destruct (seeklt_spec compare Hord _ (e_key e) L1 (e :: L2) Hrep1 HA HB None eq_refl)
    as (log & Hrun & _ & _).
  assert (He : e ∈ L1 ++ e :: L2) by set_solver.
  pose proof (Rep_entry compare _ _ e Hrep1 He) as Hok.
  destruct (node_ok_key _ e Hok) as [Hnz Hkey].
  unfold Prev. rewrite (Valid_at _ e Hok). cbn [negb skl current].
  rewrite Hkey. cbn [mbind option_bind]. simpl slice_bytes.
  rewrite Hrun. cbn [mbind option_bind]. cbv beta iota.
  destruct L1 as [|a A0 _] using rev_ind.
  - change (last_or (head (skl (Iterator g))) (offs [])) with (head (skl (Iterator g))).
    by rewrite Z.eqb_refl.
  - rewrite last_offs_snoc. rewrite offs_app. cbn [offs fmap list_fmap].
    rewrite last_snoc.
    assert (Hnh : e_off a <> head (skl (Iterator g))).
    { eapply Rep_not_head; [exact Hrep1|]. set_solver. }
    by destruct (Z.eqb_spec (e_off a) (head (skl (Iterator g)))).
Qed.

(** X20.  What [seeklt] writes into the log: for every level the node the walk
    turned down from, which is the head or a node with a key below the
    sought key, and whose link at that level is nil or leads to a key that
    is not below the sought key.  The entry of level 0 is the node
    returned. *)
Theorem seeklt_log_predecessors g key log :
  reachable compare g -> length (default zero_log log) = 24%nat ->
  exists ptr log',
    seeklt compare g key log = Some (ptr, log') /\ length log' = 24%nat /\
    log' !! 0%nat = Some ptr /\
    forall i, (i < 24)%nat ->
      exists p nx, log' !! i = Some p /\ next_at g i p = Some nx /\
        (p = head g \/ exists k, nodeKey g p = Some (Some k) /\ compare k key < 0) /\
        (nx = ARENA_INVALID_ADDRESS
         \/ exists k, nodeKey g nx = Some (Some k) /\ compare key k <= 0).
Proof.
  intros Hreach Hlog. destruct (reachable_Rep compare Hord g Hreach) as [L Hrep].
  pose proof Hrep as (_ & _ & _ & _ & Hsorted & _).
  destruct (sorted_split compare Hord key L Hsorted) as (A & B & -> & HA & HB).
  destruct (seeklt_spec compare Hord g key A B Hrep HA HB log Hlog)
    as (log' & Hrun & Hlen & Hlow).
  pose proof (Rep_levels compare g _ Hrep) as Hlv.
  apply Forall_app in Hlv as [HlvA _].
  exists (last_or (head g) (offs A)), log'.
  split; [done|]. split; [done|]. split.
  { rewrite Hlow by lia. by rewrite chain_at_0. }
  intros i Hi.
  pose proof (links_head _ _ _ _ _ (links_from_pred compare g A B Hrep i Hi)) as Hnext.
  exists (last_or (head g) (chain_at i A)), (hd 0 (chain_at i B)).
  split; [by apply Hlow|]. split; [done|]. split.
  - destruct (last_or_elem (head g) (chain_at i A)) as [->|Hin]; [by left|].
    right. destruct (chain_keys_below compare Hord g key A B Hrep HA HB i _ Hin)
      as (_ & k & Hk & Hgt).
    exists k. split; [done|]. by apply (compare_gt_lt compare Hord).
  - destruct (chain_at i B) as [|x rest] eqn:HB'; [by left|].
    right. cbn [hd].
    destruct (chain_keys_above compare Hord g key A B Hrep HA HB i x) as (_ & k & Hk & Hle).
    { rewrite HB'. by left. }
    by exists k.
Qed.

End WithOrder.

End seek_more.

(** ** What [Insert] does to the arena and to the other keys *)

Module insert_more.
Import marena marena_spec marena_facts marena_proofs memory_facts marena_more.
Import mskip mskip_spec chain_facts frame_facts search_proofs.
Import update_facts link_proofs insert_proofs iterator_proofs mskip_claims.
Import iterator_more seek_more.

Lemma copy_to_view_fields a h d :
  cursor (copy_to_view a h d) = cursor a /\ size (copy_to_view a h d) = size a /\
  len (buffer (copy_to_view a h d)) = len (buffer a) /\
  records (buffer (copy_to_view a h d)) = records (buffer a).
Proof. unfold copy_to_view. by destruct (View a h). Qed.

Lemma set_valuePtr_fields g p v g1 :
  set_valuePtr g p v = Some g1 ->
  fixed_fields g1 = fixed_fields g /\ seed g1 = seed g /\
  cursor (arena g1) = cursor (arena g).
Proof.
  unfold set_valuePtr. destruct (getNode g p); [|done]. by intros [= <-].
Qed.

Lemma set_next_fields g p i v g1 :
  set_next g p i v = Some g1 ->
  fixed_fields g1 = fixed_fields g /\ seed g1 = seed g /\
  cursor (arena g1) = cursor (arena g).
Proof.
  unfold set_next. destruct (getNode g p) as [nd|]; [|done]. cbn.
  destruct (decide _); [|done]. by intros [= <-].
Qed.

Lemma link_loop_fields log node n : forall i g g1,
  link_loop g log node n i = Some g1 ->
  fixed_fields g1 = fixed_fields g /\ seed g1 = seed g /\
  cursor (arena g1) = cursor (arena g).
Proof.
  induction n as [|n IH]; intros i g g1; cbn [link_loop].
  - by intros [= <-].
  - destruct (log !! i) as [p|]; [|done]. cbn [mbind option_bind].
    destruct (next_at g i p) as [nx|]; [|done]. cbn [mbind option_bind].
    destruct (set_next g node i nx) as [ga|] eqn:Ha; [|done]. cbn [mbind option_bind].
    destruct (set_next ga p i node) as [gb|] eqn:Hb; [|done]. cbn [mbind option_bind].
    intros Hrun. apply IH in Hrun as (-> & -> & ->).
    apply set_next_fields in Ha as (Ha1 & Ha2 & Ha3).
    apply set_next_fields in Hb as (-> & -> & ->). done.
Qed.

Lemma value_request_u64 value :
  len_ok (slice_bytes value) -> Forall is_u64 (value_request value).
Proof.
  destruct value as [v|]; [|constructor]. unfold len_ok. cbn. intros Hv.
  repeat constructor; unfold is_u64; lia.
Qed.

Lemma not_alloc_fails a req :
  0 <= cursor a <= size a -> size a <= 2 ^ 31 ->
  Forall (fun s => 0 <= s <= ARENA_MAX_ALLOC_SIZE) req ->
  cursor a + aligned_total req <= size a -> ~ alloc_fails a req.
Proof.
  intros Hc Hs Hall Hfit [Hex|Hgt].
  - apply Exists_exists in Hex as (s & Hin & Hbig).
    rewrite Forall_forall in Hall. specialize (Hall s Hin). cbn in Hall. lia.
  - rewrite Remaining_bounds in Hgt by lia. lia.
Qed.

Lemma does_alloc_fail a req :
  0 <= cursor a <= size a -> size a <= 2 ^ 31 ->
  Exists (fun s => s > ARENA_MAX_ALLOC_SIZE) req \/ cursor a + aligned_total req > size a ->
  alloc_fails a req.
Proof.
  intros Hc Hs [Hex|Hgt]; [by left|]. right. rewrite Remaining_bounds by lia. lia.
Qed.

(** The update path of [insertNext]. *)
Lemma insertNext_update_effect g next value r g' :
  ARENA_MIN_ADDRESS <= cursor (arena g) <= size (arena g) -> size (arena g) <= 2 ^ 31 ->
  len_ok (slice_bytes value) -> next <> 0 ->
  insertNext_update g next value = Some (r, g') ->
  fixed_fields g' = fixed_fields g /\ seed g' = seed g /\
  cursor (arena g')
  = cursor (arena g) + (if r =? 0 then 0 else aligned_total (value_request value)).
Proof.
  intros Hc Hs Hlen Hnext. unfold ARENA_MIN_ADDRESS in Hc.
  unfold insertNext_update. destruct value as [v|].
  - cbn in Hlen. apply len_is_i64 in Hlen.
    destruct (Allocate_cases_bounds (arena g) (Z.of_nat (length v)))
      as [[Hwhy ->]|(Hv & Hfit & ->)]; [lia | lia | done | |].
    + cbv beta iota zeta. change (ARENA_INVALID_ADDRESS =? ARENA_INVALID_ADDRESS) with true.
      cbv iota. intros [= <- <-]. rewrite set_arena_id. cbn. split; [done|]. split; [done|]. lia.
    + cbv beta iota zeta. unfold ARENA_MAX_ALLOC_SIZE in Hv.
      destruct (Z.eqb_spec (pack (cursor (arena g)) (Z.of_nat (length v)))
                  ARENA_INVALID_ADDRESS) as [Hz|_].
      { exfalso. revert Hz. apply pack_nonzero; lia. }
      destruct (set_valuePtr _ next _) as [g2|] eqn:Hset; [|done].
      cbn [mbind option_bind]. intros [= <- <-].
      apply set_valuePtr_fields in Hset as (-> & -> & ->).
      destruct (copy_to_view_fields
                  (set_cursor (arena g) (cursor (arena g) + align (Z.of_nat (length v))))
                  (pack (cursor (arena g)) (Z.of_nat (length v))) v) as (Hcc & Hcs & Hcl & _).
      unfold fixed_fields. cbn [arena set_arena head refCount seed].
      rewrite Hcc, Hcs, Hcl. cbn [set_cursor cursor size buffer].
      destruct (Z.eqb_spec next 0); [done|]. cbn [value_request].
      rewrite aligned_total_cons. change (aligned_total []) with 0.
      split; [done|]. split; [done|]. lia.
  - destruct (set_valuePtr g next _) as [g2|] eqn:Hset; [|done].
    cbn [mbind option_bind]. intros [= <- <-].
    apply set_valuePtr_fields in Hset as (-> & -> & ->).
    destruct (Z.eqb_spec next 0); [done|]. cbn. split; [done|]. split; [done|]. lia.
Qed.

(** The path of [insertNext] that makes a node.  When the node and the key
    fit but the value does not, the call fails with the node and the key
    already taken from the arena. *)
Lemma insertNext_create_effect g log key value r g' :
  ARENA_MIN_ADDRESS <= cursor (arena g) <= size (arena g) -> size (arena g) <= 2 ^ 31 ->
  len_ok key -> len_ok (slice_bytes value) ->
  insertNext_create g log key value = Some (r, g') ->
  fixed_fields g' = fixed_fields g /\ seed g' = seed (randLevel g).2 /\
  ((alloc_fails (arena g) (newNodeRequest (randLevel g).1 key) /\ r = 0 /\
    cursor (arena g') = cursor (arena g))
   \/ (~ alloc_fails (arena g) (newNodeRequest (randLevel g).1 key) /\
       Forall (fun s => 0 <= s <= ARENA_MAX_ALLOC_SIZE) (newNodeRequest (randLevel g).1 key) /\
       ((r = 0 /\ value <> None /\
         cursor (arena g')
         = cursor (arena g) + aligned_total (newNodeRequest (randLevel g).1 key))
        \/ (r <> 0 /\
            Forall (fun s => 0 <= s <= ARENA_MAX_ALLOC_SIZE) (value_request value) /\
            cursor (arena g')
            = cursor (arena g)
              + aligned_total (newNodeRequest (randLevel g).1 key ++ value_request value))))).
Proof.
  intros Hc Hs Hk Hv. unfold ARENA_MIN_ADDRESS in Hc.
  pose proof (randLevel_range g) as Hlvl.
  unfold insertNext_create. unfold randLevel in *.
  destruct (randLevel_loop 24 1 (seed g)) as [lvl sd]. cbn [fst snd] in *.
  change (arena (set_seed g sd)) with (arena g).
  rewrite (newNodeRequest_eq lvl key) by done.
  assert (0 <= Z.of_nat (length key) < 2 ^ 63) as Hklen by (unfold len_ok in Hk; lia).
  set (c := cursor (arena g)) in *.
  destruct (AllocateMultiple_cases_bounds (arena g) [24 + 4 * lvl; Z.of_nat (length key)])
    as [[Hwhy Heq]|(Hall & Hfit & Heq)]; [lia | lia | | simpl; lia | |].
  { repeat constructor; unfold is_u64; lia. }
  - rewrite Heq. cbv beta iota zeta. intros [= <- <-].
    split; [done|]. split; [done|]. left. split; [|done].
    apply does_alloc_fail; [lia | lia | done].
  - pose proof Hall as Hall0.
    apply Forall_cons in Hall as [Hn Hall]. apply Forall_cons in Hall as [Hkk _].
    pose proof (align_max _ Hn) as Han. pose proof (align_max _ Hkk) as Hak.
    pose proof Hfit as Hfit0.
    rewrite !aligned_total_cons in Hfit. change (aligned_total []) with 0 in Hfit.
    rewrite Heq, assign_two by (done || lia). cbv beta iota zeta.
    unfold ARENA_MAX_ALLOC_SIZE in Hn, Hkk. fold c.
    rewrite Offset_pack by lia.
    set (tot := aligned_total [24 + 4 * lvl; Z.of_nat (length key)]) in *.
    match goal with
    | |- context [set_arena (set_seed g sd) ?a] => set (a2 := a)
    end.
    assert (Ha2 : cursor a2 = c + tot /\ size a2 = size (arena g) /\
                  len (buffer a2) = len (buffer (arena g))).
    { unfold a2. destruct (copy_to_view_fields
        (put_record (set_cursor (arena g) (c + tot)) c
           (MkNode (pack (c + align (24 + 4 * lvl)) (Z.of_nat (length key))) 0 lvl
              (replicate (Z.to_nat lvl) 0)))
        (pack (c + align (24 + 4 * lvl)) (Z.of_nat (length key))) key)
        as (-> & -> & -> & _). done. }
    destruct Ha2 as (Hcur2 & Hsz2 & Hlen2).
    set (g2 := set_arena (set_seed g sd) a2).
    assert (Hnot : ~ alloc_fails (arena g) [24 + 4 * lvl; Z.of_nat (length key)]).
    { apply not_alloc_fails; [lia | lia | done | fold c; lia]. }
    assert (Hc0 : (c =? 0) = false) by (apply Z.eqb_neq; lia).
    assert (Htot : 0 <= tot) by (unfold tot; rewrite !aligned_total_cons;
                                  change (aligned_total []) with 0; lia).
    destruct value as [v|].
    + cbn in Hv. apply len_is_i64 in Hv.
      change (arena g2) with a2.
      destruct (Allocate_cases_bounds a2 (Z.of_nat (length v)))
        as [[Hwhy Heqv]|(Hvv & Hfitv & Heqv)]; [lia | lia | done | |].
      * rewrite Heqv. cbv beta iota zeta.
        change (ARENA_INVALID_ADDRESS =? ARENA_INVALID_ADDRESS) with true. cbv iota.
        intros [= <- <-].
        unfold fixed_fields. cbn [set_arena arena head refCount seed].
        rewrite Hsz2, Hlen2, Hcur2.
        split; [done|]. split; [done|]. right. split; [done|]. split; [done|].
        left. done.
      * rewrite Heqv. cbv beta iota zeta. unfold ARENA_MAX_ALLOC_SIZE in Hvv.
        destruct (Z.eqb_spec (pack (cursor a2) (Z.of_nat (length v)))
                    ARENA_INVALID_ADDRESS) as [Hz|_].
        { exfalso. revert Hz. apply pack_nonzero; lia. }
        destruct (set_valuePtr _ c _) as [g3|] eqn:Hset; [|done].
        cbn [mbind option_bind].
        destruct (link_loop g3 log c (Z.to_nat lvl) 0) as [g4|] eqn:Hlink; [|done].
        cbn [mbind option_bind]. intros [= <- <-].
        apply link_loop_fields in Hlink as (-> & -> & ->).
        apply set_valuePtr_fields in Hset as (-> & -> & ->).
        destruct (copy_to_view_fields
                    (set_cursor a2 (cursor a2 + align (Z.of_nat (length v))))
                    (pack (cursor a2) (Z.of_nat (length v))) v) as (Hcc & Hcs & Hcl & _).
        unfold fixed_fields. cbn [set_arena arena head refCount seed].
        rewrite Hcc, Hcs, Hcl. cbn [set_cursor cursor size buffer].
        rewrite Hsz2, Hlen2, Hcur2.
        split; [done|]. split; [done|]. right. split; [done|]. split; [done|].
        right. split; [lia|]. split.
        { repeat constructor; unfold ARENA_MAX_ALLOC_SIZE; lia. }
        subst tot. cbn [value_request]. rewrite aligned_total_app, !aligned_total_cons.
        change (aligned_total []) with 0. lia.
    + destruct (set_valuePtr g2 c _) as [g3|] eqn:Hset; [|done].
      cbn [mbind option_bind].
      destruct (link_loop g3 log c (Z.to_nat lvl) 0) as [g4|] eqn:Hlink; [|done].
      cbn [mbind option_bind]. intros [= <- <-].
      apply link_loop_fields in Hlink as (-> & -> & ->).
      apply set_valuePtr_fields in Hset as (-> & -> & ->).
      unfold fixed_fields. cbn [g2 set_arena arena head refCount seed].
      rewrite Hsz2, Hlen2, Hcur2.
      split; [done|]. split; [done|]. right. split; [done|]. split; [done|].
      right. split; [lia|]. split; [constructor|].
      cbn [value_request]. by rewrite app_nil_r.
Qed.


Section WithOrder.

Context (compare : list byte -> list byte -> Z).
Context (Hord : total_order compare).

(** Which path of [insertNext] a call of [Insert] takes. *)
Lemma Insert_unfold g L key value :
  Rep compare g L ->
  (forall A e B, L = A ++ e :: B -> e_key e = key ->
     Insert compare g key value
     = '(r, g') ← insertNext_update g (e_off e) value;
       Some (negb (r =? ARENA_INVALID_ADDRESS), g')) /\
  (Forall (fun e => e_key e <> key) L ->
     exists log,
       Insert compare g key value
       = '(r, g') ← insertNext_create g log key value;
         Some (negb (r =? ARENA_INVALID_ADDRESS), g')).
Proof.
  intros Hrep. pose proof Hrep as (_ & _ & _ & _ & Hsorted & _). split.
  - intros A e B -> Hke.
    destruct (found_split compare Hord A e B Hsorted) as [HA HB]. rewrite Hke in HA, HB.
    destruct (seeklt_spec compare Hord g key A (e :: B) Hrep HA HB (Some zero_log) eq_refl)
      as (log & Hrun & _ & Hlog).
    unfold Insert. rewrite Hrun. cbn [mbind option_bind]. cbv beta iota.
    unfold insertNext. rewrite (Hlog 0%nat) by lia. cbn [mbind option_bind].
    pose proof (links_from_pred compare g A (e :: B) Hrep 0 ltac:(lia)) as Hl0.
    apply links_head in Hl0. rewrite Hl0. cbn [mbind option_bind].
    assert (node_ok g e) as Hoke by (eapply Rep_entry; [done | set_solver]).
    destruct (node_ok_key g e Hoke) as [Hnz Hkey].
    pose proof Hoke as (_ & _ & _ & _ & Hlv & _).
    rewrite chain_at_cons, decide_True by lia. simpl hd.
    destruct (Z.eqb_spec (e_off e) ARENA_INVALID_ADDRESS) as [|_]; [done|].
    rewrite Hkey. cbn [mbind option_bind]. simpl slice_bytes.
    rewrite Hke, (compare_refl compare Hord). done.
  - intros Hnone.
    destruct (sorted_split compare Hord key L Hsorted) as (A & B & -> & HA & HB).
    destruct (seeklt_spec compare Hord g key A B Hrep HA HB (Some zero_log) eq_refl)
      as (log & Hrun & _ & Hlog).
    exists log.
    unfold Insert. rewrite Hrun. cbn [mbind option_bind]. cbv beta iota.
    unfold insertNext. rewrite (Hlog 0%nat) by lia. cbn [mbind option_bind].
    pose proof (links_from_pred compare g A B Hrep 0 ltac:(lia)) as Hl0.
    apply links_head in Hl0. rewrite Hl0. cbn [mbind option_bind].
    destruct B as [|e B]; [done|].
    assert (node_ok g e) as Hoke by (eapply Rep_entry; [done | set_solver]).
    destruct (node_ok_key g e Hoke) as [Hnz Hkey].
    pose proof Hoke as (_ & _ & _ & _ & Hlv & _).
    rewrite chain_at_cons, decide_True by lia. simpl hd.
    destruct (Z.eqb_spec (e_off e) ARENA_INVALID_ADDRESS) as [|_]; [done|].
    rewrite Hkey. cbn [mbind option_bind]. simpl slice_bytes.
    destruct (Z.eqb_spec (compare key (e_key e)) 0) as [Hz|_]; [|done].
    exfalso. apply (compare_eq compare Hord) in Hz.
    rewrite Forall_forall in Hnone. apply (Hnone e); [set_solver|done].
Qed.

Lemma bind_result {A B} (m : option (Z * A)) (f : Z -> B) (r : B) (g' : A) :
  ('(x, y) ← m; Some (f x, y)) = Some (r, g') ->
  exists x, m = Some (x, g') /\ r = f x.
Proof.
  destruct m as [[x y]|]; [|done]. cbn. intros [= <- <-]. by exists x.
Qed.

(** What a call of [Insert] does to the list outside its links: nothing to
    the head, the reference count and the length of the arena; the seed
    moves exactly when a node has to be made; and the cursor moves by the
    blocks that were handed out. *)
Lemma Insert_effect g L key value r g' :
  Rep compare g L -> len_ok key -> len_ok (slice_bytes value) ->
  Insert compare g key value = Some (r, g') ->
  fixed_fields g' = fixed_fields g /\
  ((exists e, e ∈ L /\ e_key e = key) ->
     seed g' = seed g /\
     cursor (arena g')
     = cursor (arena g) + (if r then aligned_total (value_request value) else 0)) /\
  (Forall (fun e => e_key e <> key) L ->
     seed g' = seed (randLevel g).2 /\
     ((alloc_fails (arena g) (newNodeRequest (randLevel g).1 key) /\ r = false /\
       cursor (arena g') = cursor (arena g))
      \/ (~ alloc_fails (arena g) (newNodeRequest (randLevel g).1 key) /\
          Forall (fun s => 0 <= s <= ARENA_MAX_ALLOC_SIZE)
            (newNodeRequest (randLevel g).1 key) /\
          ((r = false /\ value <> None /\
            cursor (arena g')
            = cursor (arena g) + aligned_total (newNodeRequest (randLevel g).1 key))
           \/ (r = true /\
               Forall (fun s => 0 <= s <= ARENA_MAX_ALLOC_SIZE) (value_request value) /\
               cursor (arena g')
               = cursor (arena g)
                 + aligned_total (newNodeRequest (randLevel g).1 key
                                  ++ value_request value)))))).
Proof.
  intros Hrep Hk Hv Hins.
  pose proof (Rep_bounds compare g _ Hrep) as [Hc Hs].
  pose proof Hrep as (_ & _ & _ & _ & Hsorted & _).
  destruct (Insert_unfold g L key value Hrep) as [Hfound Habsent].
  destruct (key_cases compare Hord key L Hsorted)
    as [(A & e & B & -> & Hke)|(A & B & -> & HA & HB)].
  - rewrite (Hfound A e B eq_refl Hke) in Hins.
    apply bind_result in Hins as (x & Hup & ->).
    assert (He : e ∈ A ++ e :: B) by set_solver.
    destruct (node_ok_key g e (Rep_entry compare g _ e Hrep He)) as [Hnz _].
    destruct (insertNext_update_effect g (e_off e) value x g' Hc Hs Hv Hnz Hup)
      as (Hff & Hseed & Hcur).
    split; [done|]. split.
    + intros _. split; [done|]. rewrite Hcur.
      unfold ARENA_INVALID_ADDRESS. by destruct (x =? 0).
    + intros Hnone. exfalso. rewrite Forall_forall in Hnone. by apply (Hnone e).
  - assert (Hnone : Forall (fun e => e_key e <> key) (A ++ B)).
    { apply Forall_forall. intros e He. by apply (absent_not_elem compare Hord key A B). }
    destruct (Habsent Hnone) as [log Hrun]. rewrite Hrun in Hins.
    apply bind_result in Hins as (x & Hcr & ->).
    destruct (insertNext_create_effect g log key value x g' Hc Hs Hk Hv Hcr)
      as (Hff & Hseed & Hcases).
    split; [done|]. split.
    + intros (e & He & Hke). exfalso. rewrite Forall_forall in Hnone. by apply (Hnone e).
    + intros _. split; [done|].
      destruct Hcases as [(Hf & -> & Hcur)|(Hnf & Hreq & [(-> & Hvn & Hcur)|(Hx & Hvr & Hcur)])].
      * left. done.
      * right. split; [done|]. split; [done|]. left. done.
      * right. split; [done|]. split; [done|]. right.
        split; [|done]. unfold ARENA_INVALID_ADDRESS.
        by destruct (Z.eqb_spec x 0).
Qed.

End WithOrder.

End insert_more.

Module insert_theorems.
Import marena marena_spec marena_facts marena_proofs memory_facts marena_more.
Import mskip mskip_spec chain_facts frame_facts search_proofs.
Import update_facts link_proofs insert_proofs iterator_proofs mskip_claims.
Import iterator_more seek_more insert_more.

Lemma live_singleton e k x :
  (k, x) ∈ live [e] <-> k = Some (e_key e) /\ x = e_val e /\ e_val e <> None.
Proof.
  rewrite elem_of_live. split.
  - intros (e' & d & ->%list_elem_of_singleton & Hd & -> & ->). by rewrite Hd.
  - intros (-> & -> & Hn). destruct (e_val e) as [d|] eqn:Hd; [|done].
    exists e, d. split; [by apply list_elem_of_singleton|done].
Qed.

Lemma live_mid A M B k x :
  (k, x) ∈ live (A ++ M ++ B) <-> (k, x) ∈ live A \/ (k, x) ∈ live M \/ (k, x) ∈ live B.
Proof. by rewrite !live_app, !elem_of_app. Qed.

Lemma live_no_key A key x :
  Forall (fun e => e_key e <> key) A -> (Some key, x) ∉ live A.
Proof.
  rewrite Forall_forall. intros HA (e & d & He & _ & [= Hk] & _)%elem_of_live.
  by apply (HA e).
Qed.

Section WithOrder.

Context (compare : list byte -> list byte -> Z).
Context (Hord : total_order compare).

Lemma found_others A e B :
  StronglySorted (key_lt compare) (A ++ e :: B) ->
  Forall (fun x => e_key x <> e_key e) A /\ Forall (fun x => e_key x <> e_key e) B.
Proof.
  intros Hsorted. destruct (found_split compare Hord A e B Hsorted) as [HA _].
  pose proof (compare_refl compare Hord (e_key e)) as Hr. split.
  - eapply Forall_impl; [exact HA|]. cbn. intros x Hx Heq. rewrite Heq in Hx. lia.
  - apply StronglySorted_app_1_r in Hsorted.
    apply StronglySorted_cons in Hsorted as [Hlt _].
    eapply Forall_impl; [exact Hlt|]. unfold key_lt. intros x Hx Heq.
    rewrite Heq in Hx. lia.
Qed.

Lemma absent_others key A B :
  Forall (fun e => compare key (e_key e) > 0) A ->
  Forall (fun e => compare key (e_key e) < 0) B ->
  Forall (fun x => e_key x <> key) A /\ Forall (fun x => e_key x <> key) B.
Proof.
  intros HA HB. pose proof (compare_refl compare Hord key) as Hr. split.
  - eapply Forall_impl; [exact HA|]. cbn. intros x Hx Heq. rewrite Heq in Hx. lia.
  - eapply Forall_impl; [exact HB|]. cbn. intros x Hx Heq. rewrite Heq in Hx. lia.
Qed.

(** Replacing or adding the entry of [key] changes what iteration yields
    for [key] only. *)
Lemma live_upsert A M M' B key :
  Forall (fun x => e_key x <> key) A -> Forall (fun x => e_key x <> key) B ->
  Forall (fun x => e_key x = key) M -> Forall (fun x => e_key x = key) M' ->
  (forall k x, k <> Some key ->
     (k, x) ∈ live (A ++ M' ++ B) <-> (k, x) ∈ live (A ++ M ++ B)) /\
  (forall x, (Some key, x) ∈ live (A ++ M' ++ B) <-> (Some key, x) ∈ live M').
Proof.
  intros HA HB HM HM'.
  assert (Hmid : forall N k x, Forall (fun x => e_key x = key) N ->
            k <> Some key -> (k, x) ∉ live N).
  { intros N k x HN Hk (e & d & He & _ & -> & _)%elem_of_live.
    rewrite Forall_forall in HN. apply Hk. f_equal. by apply HN. }
  split.
  - intros k x Hk. rewrite !live_mid.
    pose proof (Hmid M k x HM Hk). pose proof (Hmid M' k x HM' Hk). tauto.
  - intros x. rewrite live_mid.
    pose proof (live_no_key A key x HA). pose proof (live_no_key B key x HB). tauto.
Qed.

(** X21.  What [Insert] takes from the arena, whether it succeeds or not.  The
    length of the arena, the head and the reference count stay.  An update of
    a linked key takes one block for the value when it succeeds and nothing
    when it fails.  A key that is not linked draws a level, so the seed
    moves, and takes the node, the key and the value; when the node and the
    key fit but the value does not, the call fails and the blocks of the node
    and the key stay taken. *)
Theorem Insert_arena_use g key value r g' :
  reachable compare g -> len_ok key -> len_ok (slice_bytes value) ->
  Insert compare g key value = Some (r, g') ->
  head g' = head g /\ RefCount g' = RefCount g /\
  size (arena g') = size (arena g) /\
  len (buffer (arena g')) = len (buffer (arena g)) /\
  (holds_key g key ->
     seed g' = seed g /\
     cursor (arena g')
     = cursor (arena g) + (if r then aligned_total (value_request value) else 0)) /\
  (~ holds_key g key ->
     seed g' = seed (randLevel g).2 /\
     (r = true ->
        cursor (arena g')
        = cursor (arena g)
          + aligned_total (newNodeRequest (randLevel g).1 key ++ value_request value)) /\
     (r = false -> alloc_fails (arena g) (newNodeRequest (randLevel g).1 key) ->
        cursor (arena g') = cursor (arena g)) /\
     (r = false -> ~ alloc_fails (arena g) (newNodeRequest (randLevel g).1 key) ->
        cursor (arena g')
        = cursor (arena g) + aligned_total (newNodeRequest (randLevel g).1 key))).
Proof.
  intros Hreach Hk Hv Hins. destruct (reachable_Rep compare Hord g Hreach) as [L Hrep].
  destruct (Insert_effect compare Hord g L key value r g' Hrep Hk Hv Hins)
    as (Hff & Hfound & Habsent).
  pose proof (holds_key_iff compare g L key Hrep) as Hholds.
  unfold fixed_fields in Hff. injection Hff as Hh Hr Hs Hl.
  split; [done|]. split; [done|]. split; [done|]. split; [done|]. split.
  - intros Hh'. apply Hfound. by apply Hholds.
  - intros Hno.
    assert (Hnone : Forall (fun e => e_key e <> key) L).
    { apply Forall_forall. intros e He Hke. apply Hno, Hholds. by exists e. }
    destruct (Habsent Hnone) as (Hseed & Hc).
    split; [exact Hseed|].
    destruct Hc as [(Hf & -> & Hcur)|(Hnf & _ & [(-> & _ & Hcur)|(-> & _ & Hcur)])].
    + split; [intros [=]|]. split; [intros _ _; exact Hcur|].
      intros _ Hn. exfalso. exact (Hn Hf).
    + split; [intros [=]|]. split; [intros _ Hf; exfalso; exact (Hnf Hf)|].
      intros _ _. exact Hcur.
    + split; [intros _; exact Hcur|]. split; intros [=].
Qed.

(** X22.  [Insert] only changes what iteration yields for its own key.  Pairs of
    other keys come and go with no call; a call that fails changes nothing;
    after a call that succeeds the key is yielded with the new value, and
    not at all when the value is nil. *)
Theorem Insert_keeps_other_keys g key value r g' :
  reachable compare g -> len_ok key -> len_ok (slice_bytes value) ->
  Insert compare g key value = Some (r, g') ->
  exists ys ys',
    forward g = Some ys /\ forward g' = Some ys' /\
    (forall k x, k <> Some key -> (k, x) ∈ ys' <-> (k, x) ∈ ys) /\
    (r = false -> ys' = ys) /\
    (r = true -> forall x, (Some key, x) ∈ ys' <-> x = value /\ value <> None).
Proof.
  intros Hreach Hk Hv Hins. destruct (reachable_Rep compare Hord g Hreach) as [L Hrep].
  pose proof Hrep as (_ & _ & _ & _ & Hsorted & _).
  destruct (Insert_spec compare Hord g L key value Hrep Hk Hv)
    as (r0 & g0 & L' & Hins0 & Hrep' & Hcase).
  rewrite Hins in Hins0. injection Hins0 as <- <-.
  exists (live L), (live L').
  split; [by apply (forward_spec compare)|]. split; [by apply (forward_spec compare)|].
  destruct Hcase as [(A & e & B & -> & Hke & [(-> & _ & -> & _)|(-> & _ & ->)])
                    |(Hnone & A & B & -> & HA & HB & [(-> & -> & _)|(-> & _ & ->)])].
  - split; [done|]. split; [done|]. done.
  - destruct (found_others A e B Hsorted) as [HA HB]. rewrite Hke in HA, HB.
    set (e' := MkEntry (e_off e) (e_key e) (e_lvl e) value).
    destruct (live_upsert A [e] [e'] B key HA HB) as [Hother Hkey].
    { by repeat constructor. }
    { by repeat constructor. }
    split; [exact Hother|]. split; [done|]. intros _ x.
    rewrite (Hkey x), live_singleton. cbn. rewrite Hke. naive_solver.
  - split; [done|]. split; [done|]. done.
  - destruct (absent_others key A B HA HB) as [HA' HB'].
    set (e' := MkEntry (cursor (arena g)) key (Z.to_nat (randLevel g).1) value).
    destruct (live_upsert A [] [e'] B key HA' HB') as [Hother Hkey].
    { constructor. }
    { by repeat constructor. }
    split; [exact Hother|]. split; [done|]. intros _ x.
    rewrite (Hkey x), live_singleton. cbn. naive_solver.
Qed.

(** X23.  Deleting a key that is not linked links a tombstone for it: the call
    succeeds, one node is added at the old cursor, [Seek] at the key then
    stops on it with a nil value, and iteration yields what it yielded
    before. *)
Theorem Insert_nil_absent_key g key g' :
  reachable compare g -> len_ok key -> ~ holds_key g key ->
  Insert compare g key None = Some (true, g') ->
  holds_key g' key /\ forward g' = forward g /\
  (exists c1 c2, linked g = Some (c1 ++ c2) /\
     linked g' = Some (c1 ++ cursor (arena g) :: c2)) /\
  exists it, Seek compare (Iterator g') key = Some (true, it) /\
    current it = cursor (arena g) /\ Key it = Some (Some key) /\ Value it = Some None.
Proof.
  intros Hreach Hk Hno Hins. destruct (reachable_Rep compare Hord g Hreach) as [L Hrep].
  pose proof (holds_key_iff compare g L key Hrep) as Hholds.
  destruct (Insert_spec compare Hord g L key None Hrep Hk)
    as (r0 & g0 & L' & Hins0 & Hrep' & Hcase).
  { unfold len_ok. cbn. lia. }
  rewrite Hins in Hins0. injection Hins0 as <- <-.
  destruct Hcase as [(A & e & B & -> & Hke & _)
                    |(Hnone & A & B & -> & HA & HB & [(Hr & _)|(_ & _ & ->)])];
    [|done|].
  { destruct Hno. apply Hholds. exists e. split; [set_solver|done]. }
  set (e' := MkEntry (cursor (arena g)) key (Z.to_nat (randLevel g).1) None) in *.
  pose proof (Rep_Iterator compare g' _ Hrep') as Hrep1.
  assert (He : e' ∈ A ++ e' :: B) by set_solver.
  pose proof (Rep_entry compare _ _ e' Hrep1 He) as Hok.
  split; [|split; [|split]].
  - apply (holds_key_iff compare g' _ key Hrep'). by exists e'.
  - rewrite (forward_spec compare g' _ Hrep'), (forward_spec compare g _ Hrep).
    f_equal. by rewrite !live_app, live_cons.
  - exists (offs A), (offs B).
    rewrite (linked_spec compare g _ Hrep), (linked_spec compare g' _ Hrep').
    by rewrite !offs_app.
  - exists (MkIter (skl (Iterator g')) (e_off e')).
    split; [exact (Seek_found compare Hord g' A e' B Hrep')|]. split; [done|].
    split; [exact (Key_at _ e' Hok)|exact (Value_at _ e' Hok)].
Qed.

(** X24.  [Insert] links at most one node, at the old cursor and in key order,
    and only for a key that was not linked; the nodes that were linked stay
    where they are, in their order and with their keys. *)
Theorem Insert_links_one_node g key value r g' :
  reachable compare g -> len_ok key -> len_ok (slice_bytes value) ->
  Insert compare g key value = Some (r, g') ->
  exists chain chain',
    linked g = Some chain /\ linked g' = Some chain' /\
    (forall p k, p ∈ chain -> nodeKey g p = Some (Some k) ->
       nodeKey g' p = Some (Some k)) /\
    (holds_key g key \/ r = false -> chain' = chain) /\
    (~ holds_key g key -> r = true ->
       exists c1 c2, chain = c1 ++ c2 /\ chain' = c1 ++ cursor (arena g) :: c2 /\
         nodeKey g' (cursor (arena g)) = Some (Some key) /\
         (forall p k, p ∈ c1 -> nodeKey g p = Some (Some k) -> compare k key < 0) /\
         (forall p k, p ∈ c2 -> nodeKey g p = Some (Some k) -> compare key k < 0)).
Proof.
  intros Hreach Hk Hv Hins. destruct (reachable_Rep compare Hord g Hreach) as [L Hrep].
  pose proof (holds_key_iff compare g L key Hrep) as Hholds.
  destruct (Insert_spec compare Hord g L key value Hrep Hk Hv)
    as (r0 & g0 & L' & Hins0 & Hrep' & Hcase).
  rewrite Hins in Hins0. injection Hins0 as <- <-.
  exists (offs L), (offs L').
  split; [by apply (linked_spec compare)|]. split; [by apply (linked_spec compare)|].
  assert (Hkeys : forall M, Rep compare g' M ->
            (forall e, e ∈ L -> exists e', e' ∈ M /\ e_off e' = e_off e /\ e_key e' = e_key e) ->
            forall p k, p ∈ offs L -> nodeKey g p = Some (Some k) ->
                        nodeKey g' p = Some (Some k)).
  { intros M HrepM Hsame p k (e & -> & He)%list_elem_of_fmap Hkey.
    destruct (node_ok_key g e (Rep_entry compare g _ e Hrep He)) as [_ Hkey0].
    rewrite Hkey0 in Hkey. injection Hkey as <-.
    destruct (Hsame e He) as (e' & He' & <- & <-).
    by destruct (node_ok_key g' e' (Rep_entry compare g' _ e' HrepM He')). }
  destruct Hcase as [(A & e & B & -> & Hke & [(-> & -> & -> & _)|(-> & _ & ->)])
                    |(Hnone & A & B & -> & HA & HB & [(-> & -> & _)|(-> & _ & ->)])].
  - split; [done|]. split; [done|]. by intros _ [=].
  - split.
    { apply (Hkeys _ Hrep'). intros x Hx.
      apply elem_of_app in Hx as [Hx|Hx]; [exists x; set_solver|].
      apply elem_of_cons in Hx as [->|Hx]; [|exists x; set_solver].
      eexists. split; [apply elem_of_app; right; by left|done]. }
    split; [intros _; by rewrite !offs_app|].
    intros Hno. destruct Hno. apply Hholds. exists e. split; [set_solver|done].
  - split.
    { apply (Hkeys _ Hrep'). intros x Hx. by exists x. }
    split; [done|]. by intros _ [=].
  - split.
    { apply (Hkeys _ Hrep'). intros x Hx. exists x. set_solver. }
    split.
    { intros [Hh|[=]]. apply Hholds in Hh as (e & He & Hke).
      rewrite Forall_forall in Hnone. by destruct (Hnone e He). }
    intros _ _. exists (offs A), (offs B).
    split; [by rewrite offs_app|]. split; [by rewrite offs_app|].
    set (e' := MkEntry (cursor (arena g)) key (Z.to_nat (randLevel g).1) value) in *.
    assert (He : e' ∈ A ++ e' :: B) by set_solver.
    destruct (node_ok_key g' e' (Rep_entry compare g' _ e' Hrep' He)) as [_ Hkey'].
    split; [exact Hkey'|].
    assert (Hpart : forall (P : list byte -> Prop) M,
              M ⊆ A ++ B -> Forall (fun e => P (e_key e)) M ->
              forall p k, p ∈ offs M -> nodeKey g p = Some (Some k) -> P k).
    { intros P M Hsub HM p k (e & -> & He0)%list_elem_of_fmap Hkey.
      destruct (node_ok_key g e (Rep_entry compare g _ e Hrep (Hsub e He0))) as [_ Hkey0].
      rewrite Hkey0 in Hkey. injection Hkey as <-.
      rewrite Forall_forall in HM. by apply HM. }
    split.
    + apply (Hpart (fun k => compare k key < 0) A); [set_solver|].
      eapply Forall_impl; [exact HA|]. cbn. intros x Hx.
      by apply (compare_gt_lt compare Hord).
    + apply (Hpart (fun k => compare key k < 0) B); [set_solver|done].
Qed.

End WithOrder.

End insert_theorems.

(** ** Layout, creation and reference counting *)

Module layout_more.
Import marena marena_spec marena_facts marena_proofs memory_facts marena_more.
Import mskip mskip_spec chain_facts frame_facts search_proofs.
Import update_facts link_proofs insert_proofs iterator_proofs mskip_claims.
Import iterator_more seek_more insert_more insert_theorems.

Lemma NewSkipList_cases a sd :
  arena_inv a ->
  (Remaining a < 120 /\ NewSkipList a sd = None)
  \/ (120 <= Remaining a /\
      NewSkipList a sd
      = Some (MkSkipList
                (put_record (set_cursor a (cursor a + 120)) (cursor a)
                   (MkNode ARENA_INVALID_ADDRESS ARENA_INVALID_ADDRESS MSKIP_MAX_LEVEL
                      (replicate 24 ARENA_INVALID_ADDRESS)))
                sd (cursor a) 1)).
Proof.
  intros Hinv. pose proof (Remaining_eq a Hinv) as Hrem.
  destruct (arena_inv_bounds a Hinv) as [Hsize Hcur].
  pose proof Hinv as (_ & _ & Hmin & _). unfold ARENA_MIN_ADDRESS in Hmin.
  unfold NewSkipList. change (sizeNode MSKIP_MAX_LEVEL) with 120.
  destruct (Allocate_cases_bounds a 120 Hsize Hcur) as [[Hwhy ->]|(_ & Hfit & ->)].
  { unfold is_i64. lia. }
  - left. split; [|done]. change (align 120) with 120 in Hwhy.
    change (wrap_u64 120) with 120 in Hwhy. unfold ARENA_MAX_ALLOC_SIZE in Hwhy. lia.
  - right. change (align 120) with 120 in *. split; [lia|].
    destruct (Z.eqb_spec (pack (cursor a) 120) ARENA_INVALID_ADDRESS) as [Hz|_].
    { exfalso. revert Hz. apply pack_nonzero; lia. }
    by rewrite Offset_pack by lia.
Qed.

Lemma elem_of_middle {A} (l1 : list A) x l2 : x ∈ l1 ++ x :: l2.
Proof. apply elem_of_app. right. by left. Qed.

Lemma value_request_small a value :
  len_ok (slice_bytes value) -> ~ alloc_fails a (value_request value) ->
  Forall (fun s => 0 <= s <= ARENA_MAX_ALLOC_SIZE) (value_request value).
Proof.
  destruct value as [v|]; [|constructor]. cbn. intros _ Hno.
  repeat constructor; [lia|].
  destruct (Z.le_gt_cases (Z.of_nat (length v)) ARENA_MAX_ALLOC_SIZE) as [|Hbig]; [done|].
  destruct Hno. left. apply Exists_cons. left. lia.
Qed.

Section WithOrder.

Context (compare : list byte -> list byte -> Z).
Context (Hord : total_order compare).

Lemma layout_new a sd g :
  marena.reachable a -> NewSkipList a sd = Some g ->
  len (buffer (arena g)) = size (arena g) /\ refCount g = 1 /\
  cursor (arena g) mod 8 = 0 /\ head g mod 8 = 0.
Proof.
  intros Ha Hnew.
  pose proof (reachable_inv a Ha) as Hinv.
  pose proof (reachable_cursor_mod8 a Ha) as Hmod.
  destruct (NewSkipList_cases a sd Hinv) as [[_ Hnone]|[_ Hsome]];
    rewrite Hnew in *; [done|]. injection Hsome as ->.
  destruct Hinv as (Hlen & _).
  split; [exact Hlen|]. split; [reflexivity|]. split; [|exact Hmod].
  cbn [arena cursor put_record set_cursor].
  rewrite Z.add_mod, Hmod by lia. reflexivity.
Qed.

Lemma layout_cursor g L key value r g' :
  Rep compare g L -> len_ok key -> len_ok (slice_bytes value) ->
  Insert compare g key value = Some (r, g') ->
  ((exists e, e ∈ L /\ e_key e = key) ->
     r = true -> ~ alloc_fails (arena g) (value_request value)) ->
  cursor (arena g) mod 8 = 0 ->
  cursor (arena g') mod 8 = 0.
Proof.
  intros Hrep Hk Hv Hins Hfits Hcur.
  destruct (Insert_effect compare Hord g L key value r g' Hrep Hk Hv Hins)
    as (_ & Hfound & Habsent).
  pose proof Hrep as (_ & _ & _ & _ & Hsorted & _).
  destruct (key_cases compare Hord key L Hsorted)
    as [(A & e & B & HL & Hke)|(A & B & HL & HA & HB)].
  - assert (Hex : exists e, e ∈ L /\ e_key e = key).
    { exists e. split; [rewrite HL; apply elem_of_middle|exact Hke]. }
    destruct (Hfound Hex) as [_ Hc]. rewrite Hc. clear Hc Hfound Habsent Hins.
    destruct r.
    + pose proof (value_request_small _ _ Hv (Hfits Hex eq_refl)) as Hsmall.
      rewrite Z.add_mod, Hcur, (aligned_total_mod8 _ Hsmall) by lia. reflexivity.
    + by rewrite Z.add_0_r.
  - assert (Hnone : Forall (fun e => e_key e <> key) L).
    { rewrite HL. apply Forall_forall. intros e He.
      by apply (absent_not_elem compare Hord key A B). }
    destruct (Habsent Hnone)
      as (_ & [(_ & _ & Hc)|(_ & Hreq & [(_ & _ & Hc)|(_ & Hvr & Hc)])]); rewrite Hc;
      clear Hc Hfound Habsent Hins.
    + exact Hcur.
    + rewrite Z.add_mod, Hcur, (aligned_total_mod8 _ Hreq) by lia. reflexivity.
    + assert (Hboth : Forall (fun s => 0 <= s <= ARENA_MAX_ALLOC_SIZE)
                        (newNodeRequest (randLevel g).1 key ++ value_request value)).
      { apply Forall_app. split; [exact Hreq|exact Hvr]. }
      rewrite Z.add_mod, Hcur, (aligned_total_mod8 _ Hboth) by lia. reflexivity.
Qed.

(** Where the records of a list lie. *)
Lemma reachable_layout g :
  reachable compare g ->
  exists L, Rep compare g L /\
    len (buffer (arena g)) = size (arena g) /\ refCount g = 1 /\
    cursor (arena g) mod 8 = 0 /\ head g mod 8 = 0 /\
    Forall (fun e => e_off e mod 8 = 0) L.
Proof.
  induction 1 as [a sd g Ha Hnew|g key value r g' Hg IH Hk Hv Hins].
  - exists []. split; [by eapply NewSkipList_Rep|].
    destruct (layout_new a sd g Ha Hnew) as (H1 & H2 & H3 & H4).
    split; [exact H1|]. split; [exact H2|]. split; [exact H3|]. split; [exact H4|].
    constructor.
  - destruct IH as (L & Hrep & Hlen & Href & Hcur & Hhead & Hoffs).
    destruct (Insert_spec compare Hord g L key value Hrep Hk Hv)
      as (r0 & g0 & L' & Hins0 & Hrep' & Hcase).
    rewrite Hins in Hins0. injection Hins0 as <- <-.
    destruct (Insert_effect compare Hord g L key value r g' Hrep Hk Hv Hins)
      as (Hff & _ & _).
    unfold fixed_fields in Hff. injection Hff as Hh Hr Hs Hl.
    assert (Hcur' : cursor (arena g') mod 8 = 0).
    { apply (layout_cursor g L key value r g' Hrep Hk Hv Hins); [|exact Hcur].
      intros (e0 & He0 & Hke0) Hr1.
      destruct Hcase as [(A & e & B & HL & Hke & [(Hr0 & _)|(_ & Hno & _)])
                        |(Hnone & _)].
      - congruence.
      - exact Hno.
      - rewrite Forall_forall in Hnone. by destruct (Hnone e0 He0). }
    exists L'. split; [exact Hrep'|].
    split; [congruence|]. split; [congruence|]. split; [exact Hcur'|].
    split; [congruence|].
    clear Hins Hrep Hrep' Hcur' Hg.
    destruct Hcase as [(A & e & B & HL & Hke & [(_ & _ & HL' & _)|(_ & _ & HL')])
                      |(Hnone & A & B & HL & _ & _ & [(_ & HL' & _)|(_ & _ & HL')])];
      rewrite HL', ?HL; rewrite HL in Hoffs.
    + exact Hoffs.
    + apply Forall_app in Hoffs as [HoA HoB]. apply Forall_cons in HoB as [Hoe HoB].
      apply Forall_app. split; [exact HoA|]. constructor; [exact Hoe|exact HoB].
    + exact Hoffs.
    + apply Forall_app in Hoffs as [HoA HoB].
      apply Forall_app. split; [exact HoA|]. constructor; [exact Hcur|exact HoB].
Qed.

(** X25.  The records of a list lie inside the buffer, between
    [ARENA_MIN_ADDRESS] and the cursor, at offsets that are multiples of 8:
    [getNode] never indexes the buffer out of range at the head or at a
    linked node.  Past the cursor there is no record. *)
Theorem nodes_aligned_inside_buffer g :
  reachable compare g ->
  exists chain,
    linked g = Some chain /\
    len (buffer (arena g)) = size (arena g) /\
    cursor (arena g) mod 8 = 0 /\ cursor (arena g) <= len (buffer (arena g)) /\
    (forall p, p = head g \/ p ∈ chain ->
       Index (arena g) p = Some p /\
       ARENA_MIN_ADDRESS <= p < cursor (arena g) /\ p mod 8 = 0 /\
       exists nd, getNode g p = Some nd) /\
    (forall p, cursor (arena g) <= p -> getNode g p = None).
Proof.
  intros Hreach.
  destruct (reachable_layout g Hreach) as (L & Hrep & Hlen & _ & Hcur & Hhead & Hoffs).
  pose proof Hrep as (Hc & (Hh & ndh & Hndh & _) & _ & Hall & _ & Hbelow & _).
  exists (offs L). split; [by apply (linked_spec compare)|].
  split; [done|]. split; [done|]. split; [lia|]. split.
  - assert (Hidx : forall p, p < cursor (arena g) -> Index (arena g) p = Some p).
    { intros p Hp. unfold Index. destruct (Z.ltb_spec p (len (buffer (arena g)))); [done|lia]. }
    intros p [->|(e & -> & He)%list_elem_of_fmap].
    + split; [apply Hidx; lia|]. split; [done|]. split; [done|]. by exists ndh.
    + rewrite Forall_forall in Hall, Hoffs.
      destruct (Hall e He) as (nd & Hnd & _ & _ & _ & Hrange & _).
      split; [apply Hidx; lia|]. split; [done|]. split; [by apply Hoffs|]. by exists nd.
  - intros p Hp. destruct (getNode g p) as [nd|] eqn:Hnd; [|done].
    apply Hbelow in Hnd. lia.
Qed.

(** X26.  [NewSkipList] fails exactly when fewer than 120 bytes remain.  The
    list it makes has its head at the old cursor, the given seed and a
    reference count of one, and is empty: nothing is linked, iteration
    yields nothing and [First] and every [Seek] return false. *)
Theorem NewSkipList_empty a sd :
  marena.reachable a ->
  (NewSkipList a sd = None <-> Remaining a < 120) /\
  forall g, NewSkipList a sd = Some g ->
    head g = cursor a /\ cursor (arena g) = cursor a + 120 /\
    seed g = sd /\ RefCount g = 1 /\
    linked g = Some [] /\ forward g = Some [] /\
    (exists it, First (Iterator g) = Some (false, it)) /\
    (forall key, exists it, Seek compare (Iterator g) key = Some (false, it)).
Proof.
  intros Ha. pose proof (reachable_inv a Ha) as Hinv.
  destruct (NewSkipList_cases a sd Hinv) as [[Hlt Hnone]|[Hge Hsome]].
  - split; [by rewrite Hnone|]. intros g Hg. by rewrite Hnone in Hg.
  - split; [rewrite Hsome; split; [done|lia]|].
    intros g Hg. pose proof (NewSkipList_Rep compare a sd g Ha Hg) as Hrep.
    rewrite Hsome in Hg. injection Hg as Hg.
    split; [by rewrite <- Hg|]. split; [by rewrite <- Hg|].
    split; [by rewrite <- Hg|]. split; [by rewrite <- Hg|].
    split; [exact (linked_spec compare g [] Hrep)|].
    split; [exact (forward_spec compare g [] Hrep)|].
    pose proof (Rep_Iterator compare g [] Hrep) as Hrep1.
    pose proof Hrep1 as (_ & [Hh _] & _). unfold ARENA_MIN_ADDRESS in Hh.
    split.
    + eexists. unfold First, set_current. cbn [skl].
      rewrite (Next_at compare _ [] (head (skl (Iterator g))) [] Hrep1
                 ltac:(lia) (Rep_links0 compare _ _ Hrep1) ltac:(constructor) ltac:(done)).
      done.
    + intros key. eexists.
      exact (Seek_absent compare Hord g [] [] key Hrep ltac:(constructor) ltac:(constructor)).
Qed.

End WithOrder.

Lemma Next_loop_skl fuel : forall it it',
  Next_loop fuel it = Some it' -> skl it' = skl it.
Proof.
  induction fuel as [|fuel IH]; intros it it'; cbn [Next_loop]; [done|].
  destruct (next_at (skl it) 0 (current it)) as [nx|]; [|done]. cbn [mbind option_bind].
  destruct (negb (Valid (set_current it nx))); [by intros [= <-]|].
  destruct (Value (set_current it nx)) as [v|]; [|done]. cbn [mbind option_bind].
  destruct (bool_decide (v ≠ None)); [by intros [= <-]|].
  intros Hrun. by apply IH in Hrun as ->.
Qed.

Lemma Next_skl it b it' : Next it = Some (b, it') -> skl it' = skl it.
Proof.
  unfold Next. destruct (negb (Valid it)); [by intros [= _ <-]|].
  destruct (Next_loop _ it) as [it1|] eqn:Hrun; [|done]. cbn.
  intros [= _ <-]. by apply Next_loop_skl in Hrun.
Qed.

Lemma First_skl it b it' : First it = Some (b, it') -> skl it' = skl it.
Proof.
  unfold First. destruct (Next _) as [[b1 it1]|] eqn:Hrun; [|done]. cbn.
  intros [= _ <-]. by apply Next_skl in Hrun.
Qed.

Section Iterators.

Context (compare : list byte -> list byte -> Z).

Lemma seekle_skl it key it' : seekle compare it key = Some it' -> skl it' = skl it.
Proof.
  unfold seekle. destruct (seeklt compare _ key _) as [[p lg]|]; [|done]. cbn.
  destruct (p =? head (skl it)).
  - destruct (next_at _ _ _) as [nx|]; [|done]. cbn.
    destruct (nx =? ARENA_INVALID_ADDRESS); [by intros [= <-]|].
    destruct (nodeKey _ _) as [k|]; [|done]. cbn.
    destruct (_ =? 0); by intros [= <-].
  - destruct (next_at _ _ _) as [nx|]; [|done]. cbn.
    destruct (nx =? ARENA_INVALID_ADDRESS); [by intros [= <-]|].
    destruct (nodeKey _ _) as [k|]; [|done]. cbn.
    destruct (_ =? 0); by intros [= <-].
Qed.

Lemma Seek_skl it key b it' : Seek compare it key = Some (b, it') -> skl it' = skl it.
Proof.
  unfold Seek. destruct (seekle compare it key) as [it1|] eqn:Hle; [|done]. cbn.
  apply seekle_skl in Hle.
  destruct (Valid it1); [|by intros [= _ <-]].
  destruct (Key it1) as [k|]; [|done]. cbn.
  destruct (_ <? 0); [|by intros [= _ <-]].
  destruct (Next it1) as [[b2 it2]|] eqn:Hn; [|done]. cbn.
  intros [= _ <-]. apply Next_skl in Hn. congruence.
Qed.

Lemma Prev_skl it b it' : Prev compare it = Some (b, it') -> skl it' = skl it.
Proof.
  unfold Prev. destruct (negb (Valid it)); [by intros [= _ <-]|].
  destruct (nodeKey (skl it) (current it)) as [k|]; [|done]. cbn [mbind option_bind].
  destruct (seeklt compare (skl it) (slice_bytes k) None) as [[p lg]|]; [|done].
  cbn [mbind option_bind]. cbv beta iota.
  destruct (p =? head (skl it)); by intros [= _ <-].
Qed.

(** X27.  Reference counting.  A list that is not iterated has a count of one;
    [Iterator] raises it by one, as [IncRef] does, and [Close] lowers it
    again, giving back the list as it was.  In between, [First], [Next],
    [Seek] and [Prev] move the iterator only: the list it holds is never
    written. *)
Theorem Iterator_Close_RefCount g :
  reachable compare g -> total_order compare ->
  RefCount g = 1 /\ skl (Iterator g) = (IncRef g).2 /\
  RefCount (skl (Iterator g)) = 2 /\ Close (Iterator g) = g /\
  (DecRef (skl (Iterator g))).1 = 1 /\
  (forall it b it',
     skl it = skl (Iterator g) ->
     First it = Some (b, it') \/ Next it = Some (b, it') \/
     (exists key, Seek compare it key = Some (b, it')) \/ Prev compare it = Some (b, it') ->
     skl it' = skl (Iterator g) /\ Close it' = g).
Proof.
  intros Hreach Hord.
  destruct (reachable_layout compare Hord g Hreach) as (L & _ & _ & Href & _).
  assert (Hclose : Close (Iterator g) = g).
  { unfold Close, DecRef, Iterator, set_refCount. cbn. rewrite Href.
    destruct g as [a s h r]. cbn in *. by subst r. }
  split; [done|]. split; [done|].
  split; [unfold RefCount; cbn; by rewrite Href|]. split; [done|].
  split; [cbn; by rewrite Href|].
  intros it b it' Hskl Hop.
  assert (Hsame : skl it' = skl it).
  { destruct Hop as [H|[H|[[key H]|H]]];
      [by eapply First_skl | by eapply Next_skl | by eapply Seek_skl | by eapply Prev_skl]. }
  split; [congruence|]. unfold Close. rewrite Hsame, Hskl. exact Hclose.
Qed.

End Iterators.

End layout_more.

(** ** The levels of the list *)

Module levels_more.
Import marena marena_spec marena_facts marena_proofs memory_facts.
Import mskip mskip_spec chain_facts frame_facts search_proofs.
Import update_facts link_proofs insert_proofs iterator_proofs mskip_claims.

Lemma chain_from_spec fuel g i p l :
  links g i (p :: l ++ [0]) -> Forall (fun x => x <> 0) l -> (length l < fuel)%nat ->
  chain_from fuel g i p = Some l.
Proof.
  revert p fuel. induction l as [|x l IH]; intros p fuel Hl Hnz Hfuel.
  - destruct fuel as [|fuel]; [cbn in Hfuel; lia|].
    cbn in Hl. destruct Hl as [Hp _]. cbn. rewrite Hp. done.
  - destruct fuel as [|fuel]; [cbn in Hfuel; lia|].
    change (links g i (p :: x :: l ++ [0])) in Hl. destruct Hl as [Hp Hl].
    apply Forall_cons in Hnz as [Hx Hnz].
    cbn [chain_from]. rewrite Hp. cbn [mbind option_bind].
    destruct (Z.eqb_spec x ARENA_INVALID_ADDRESS); [done|].
    rewrite (IH x fuel Hl Hnz) by (cbn in Hfuel; lia). done.
Qed.

Lemma chain_at_sublist i j L :
  (i <= j)%nat -> chain_at j L `sublist_of` chain_at i L.
Proof.
  intros Hij. induction L as [|e L IH]; [done|].
  rewrite !chain_at_cons.
  destruct (decide (j < e_lvl e)%nat), (decide (i < e_lvl e)%nat); cbn [app].
  - by apply sublist_skip.
  - lia.
  - by apply sublist_cons.
  - done.
Qed.

Lemma chain_at_sublist_offs i L : chain_at i L `sublist_of` offs L.
Proof. unfold chain_at, offs. apply fmap_sublist, sublist_filter. Qed.

Lemma offs_inj L x y :
  NoDup (offs L) -> x ∈ L -> y ∈ L -> e_off x = e_off y -> x = y.
Proof.
  induction L as [|e L IH]; intros Hnd Hx Hy Heq; [by apply elem_of_nil in Hx|].
  cbn in Hnd. apply NoDup_cons in Hnd as [Hnotin Hnd].
  apply elem_of_cons in Hx as [->|Hx]; apply elem_of_cons in Hy as [->|Hy].
  - done.
  - destruct Hnotin. rewrite Heq. by apply list_elem_of_fmap_2.
  - destruct Hnotin. rewrite <- Heq. by apply list_elem_of_fmap_2.
  - by apply IH.
Qed.

Section WithOrder.

Context (compare : list byte -> list byte -> Z).
Context (Hord : total_order compare).

Lemma linked_at_spec g L i :
  Rep compare g L -> (i < 24)%nat -> linked_at g i = Some (chain_at i L).
Proof.
  intros Hrep Hi. unfold linked_at. apply chain_from_spec.
  - destruct Hrep as (_ & _ & _ & _ & _ & _ & Hl). by apply Hl.
  - pose proof (Rep_offs_nonzero compare g L Hrep) as Hnz.
    rewrite Forall_forall in Hnz |- *. intros x Hx. apply Hnz.
    by eapply chain_at_subseteq.
  - pose proof (Rep_length compare g L Hrep). pose proof (length_chain_at i L). lia.
Qed.

(** X28.  The skip-list shape.  Each of the 24 levels is a chain from the head
    that ends in nil; the chain of level 0 holds every linked node; a node is
    on the chain of level [i] exactly when its height is above [i]; and the
    chain of a level is a sublist, in the same order, of the chain of every
    level below. *)
Theorem levels_nested g i :
  reachable compare g -> (i < 24)%nat ->
  exists chain li,
    linked g = Some chain /\ linked_at g 0 = Some chain /\
    linked_at g i = Some li /\ li `sublist_of` chain /\
    (forall p, p ∈ chain ->
       (p ∈ li <-> exists nd, getNode g p = Some nd /\ Z.of_nat i < level nd)) /\
    (forall j, (i <= j < 24)%nat ->
       exists lj, linked_at g j = Some lj /\ lj `sublist_of` li).
Proof.
  intros Hreach Hi. destruct (reachable_Rep compare Hord g Hreach) as [L Hrep].
  exists (offs L), (chain_at i L).
  split; [by apply (linked_spec compare)|]. split.
  { rewrite (linked_at_spec g L 0 Hrep) by lia. f_equal. apply chain_at_0.
    by apply (Rep_levels compare g). }
  split; [by apply linked_at_spec|]. split; [apply chain_at_sublist_offs|]. split.
  - intros p (e0 & -> & He0)%list_elem_of_fmap.
    destruct (Rep_entry compare g L e0 Hrep He0) as (nd0 & Hnd0 & Hlv0 & _).
    pose proof Hrep as (_ & _ & Hnd & _). apply NoDup_cons in Hnd as [_ Hnd].
    rewrite elem_of_chain_at. split.
    + intros (e & He & Hoff & Hlt).
      assert (e = e0) as ->.
      { by apply (offs_inj L). }
      exists nd0. split; [done|]. lia.
    + intros (nd & Hget & Hlt). rewrite Hnd0 in Hget. injection Hget as <-.
      exists e0. split; [done|]. split; [done|]. lia.
  - intros j Hj. exists (chain_at j L).
    split; [apply linked_at_spec; [done|lia]|]. apply chain_at_sublist. lia.
Qed.

End WithOrder.

End levels_more.

(** ** The further properties on the example arena and lists *)

Module more_instances.
Import marena marena_spec marena_facts marena_proofs marena_more.
Import splitmix64 splitmix64_spec splitmix64_facts.
Import mskip mskip_spec frame_facts insert_proofs bytes_order examples instances.
Import iterator_more seek_more insert_theorems layout_more levels_more.

Lemma NewArena_rounds_up_100000 :
  exists a, NewArena 100000 = Some a /\ size a mod ARENA_PAGESIZE = 0.
Proof.
  destruct (NewArena_rounds_up 100000) as (a & H1 & _ & _ & H2 & _); [lia|].
  exists a. split; [exact H1 | exact H2].
Defined.

Lemma NewArena_nonpositive_0 :
  exists a, NewArena 0 = Some a /\ Remaining a = -128.
Proof.
  destruct (NewArena_nonpositive 0) as [_ H]; [unfold is_i64; lia | lia |].
  destruct H as (a & H1 & _ & _ & H2 & _); [lia|].
  exists a. split; [exact H1 | exact H2].
Defined.

Lemma Allocate_advances_100 :
  cursor (Allocate demo_arena 100).2 = cursor demo_arena + 8 * ((100 + 7) / 8).
Proof.
  destruct (Allocate_advances demo_arena 100 demo_arena_reachable) as [_ H];
    [unfold is_i64; lia|].
  destruct H as (_ & H & _); [vm_compute; discriminate|]. exact H.
Defined.

Lemma offsets_aligned_demo_arena : cursor demo_arena mod 8 = 0.
Proof. exact (proj1 (offsets_aligned demo_arena demo_arena_reachable)). Defined.

Lemma allocations_disjoint_100_7_50 :
  Offset (Allocate demo_arena 100).1 + Size (Allocate demo_arena 100).1
  <= Offset (Allocate (Allocate (Allocate demo_arena 100).2 7).2 50).1.
Proof.
  refine (proj1 (proj2 (allocations_disjoint demo_arena 100
            (Allocate demo_arena 100).1 (Allocate demo_arena 100).2
            (Allocate (Allocate demo_arena 100).2 7).2 50
            (Allocate (Allocate (Allocate demo_arena 100).2 7).2 50).1
            (Allocate (Allocate (Allocate demo_arena 100).2 7).2 50).2
            demo_arena_reachable _ _ _ _ _ _ _))).
  - unfold is_i64. lia.
  - unfold is_i64. lia.
  - vm_compute. reflexivity.
  - vm_compute. discriminate.
  - apply grows_alloc; [apply grows_refl | unfold is_i64; lia].
  - vm_compute. reflexivity.
  - vm_compute. discriminate.
Defined.

Lemma AllocateMultiple_all_or_nothing_50_200_300 :
  Allocate_each demo_arena [50; 200; 300]
  = ((AllocateMultiple demo_arena [50; 200; 300]).1.2,
     (AllocateMultiple demo_arena [50; 200; 300]).2).
Proof.
  destruct (AllocateMultiple_all_or_nothing demo_arena [50; 200; 300] demo_arena_reachable)
    as [_ H].
  - repeat constructor; unfold is_u64; lia.
  - vm_compute. reflexivity.
  - apply H. vm_compute. reflexivity.
Defined.

Lemma Reset_restores_fresh_after_100 :
  Remaining (Reset (Allocate demo_arena 100).2)
  = size (Allocate demo_arena 100).2 - ARENA_MIN_ADDRESS.
Proof.
  destruct (Reset_restores_fresh (Allocate demo_arena 100).2) as (_ & _ & _ & H & _).
  - apply reach_alloc; [apply demo_arena_reachable | unfold is_i64; lia].
  - exact H.
Defined.

Lemma View_within_buffer_100 :
  View (Allocate demo_arena 100).2 (Allocate demo_arena 100).1 = None <->
  Offset (Allocate demo_arena 100).1 < ARENA_MIN_ADDRESS \/
  Offset (Allocate demo_arena 100).1 + Size (Allocate demo_arena 100).1
  > size (Allocate demo_arena 100).2.
Proof.
  refine (proj1 (View_within_buffer (Allocate demo_arena 100).2
                   (Allocate demo_arena 100).1 _ _)).
  - apply reach_alloc; [apply demo_arena_reachable | unfold is_i64; lia].
  - unfold is_u64. vm_compute. split; [discriminate | reflexivity].
Defined.

Lemma View_after_copy_val_1 :
  View (copy_to_view (Allocate demo_arena 1).2 (Allocate demo_arena 1).1 val_1)
    (Allocate demo_arena 1).1 = Some val_1.
Proof.
  refine (proj1 (proj2 (View_after_copy demo_arena val_1 (Allocate demo_arena 1).1
                          (Allocate demo_arena 1).2 demo_arena_reachable _ _ _))).
  - vm_compute. discriminate.
  - vm_compute. reflexivity.
  - vm_compute. discriminate.
Defined.

Lemma Splitmix64_full_period_42 :
  state_after 3 42 = wrap_u64 (42 + Z.of_nat 3 * IncrementConstant).
Proof.
  refine (proj1 (proj2 (proj2 (Splitmix64_full_period 42 3 _)))).
  unfold is_u64. lia.
Defined.


(** *** On the example lists *)

Lemma demo_b_lacks_c : ~ holds_key demo_b key_c.
Proof.
  intros (chain & p & Hl & Hp & Hk).
  assert (Hchain : linked demo_b = Some [248]) by (vm_compute; reflexivity).
  rewrite Hchain in Hl. injection Hl as <-.
  apply list_elem_of_singleton in Hp. subst p.
  revert Hk. vm_compute. discriminate.
Qed.

Lemma Seek_positions_a :
  exists chain ys b it,
    linked demo_bc = Some chain /\ forward demo_bc = Some ys /\
    Seek bytes_compare (Iterator demo_bc) key_a = Some (b, it) /\ b = Valid it.
Proof.
  destruct (Seek_positions bytes_compare bytes_compare_total demo_bc key_a
              demo_bc_reachable)
    as (chain & ys & b & it & H1 & H2 & H3 & H4 & _).
  exists chain, ys, b, it.
  split; [exact H1|]. split; [exact H2|]. split; [exact H3 | exact H4].
Defined.

Lemma Insert_then_Seek_c :
  exists it, Seek bytes_compare (Iterator demo_bc) key_c = Some (true, it) /\
    Key it = Some (Some key_c) /\ Value it = Some (Some val_2).
Proof.
  refine (proj1 (Insert_then_Seek bytes_compare bytes_compare_total
                   demo_b key_c val_2 demo_bc demo_b_reachable _ _ _)).
  - apply len_ok_small. cbn. lia.
  - apply len_ok_small. cbn. lia.
  - vm_compute. reflexivity.
Defined.

Lemma forward_ascending_bc :
  exists chain ys,
    linked demo_bc = Some chain /\ forward demo_bc = Some ys /\
    StronglySorted
      (fun a b : slice * slice =>
         bytes_compare (slice_bytes a.1) (slice_bytes b.1) < 0) ys.
Proof.
  destruct (forward_ascending bytes_compare bytes_compare_total demo_bc demo_bc_reachable)
    as (chain & ys & H1 & H2 & H3 & _).
  exists chain, ys. split; [exact H1|]. split; [exact H2 | exact H3].
Defined.

Lemma First_skips_tombstones_tomb :
  exists chain b it,
    linked demo_tomb = Some chain /\ First (Iterator demo_tomb) = Some (b, it) /\
    b = Valid it.
Proof.
  destruct (First_skips_tombstones bytes_compare bytes_compare_total demo_tomb
              demo_tomb_reachable)
    as (chain & b & it & H1 & H2 & _ & H3 & _).
  exists chain, b, it. split; [exact H1|]. split; [exact H2 | exact H3].
Defined.

Lemma Next_skips_tombstones_tomb :
  exists b it',
    Next (MkIter (skl (Iterator demo_tomb)) 248) = Some (b, it') /\
    skl it' = skl (Iterator demo_tomb) /\ b = Valid it'.
Proof.
  destruct (Next_skips_tombstones bytes_compare bytes_compare_total demo_tomb
              (MkIter (skl (Iterator demo_tomb)) 248) [248; 296]
              demo_tomb_reachable eq_refl) as [_ H].
  - vm_compute. reflexivity.
  - destruct (H [] [296] eq_refl) as (b & it' & H1 & H2 & H3 & _).
    exists b, it'. split; [exact H1|]. split; [exact H2 | exact H3].
Defined.

Lemma seekle_greatest_at_or_below_c :
  exists chain it,
    linked demo_bc = Some chain /\
    seekle bytes_compare (Iterator demo_bc) key_c = Some it /\
    skl it = skl (Iterator demo_bc).
Proof.
  destruct (seekle_greatest_at_or_below bytes_compare bytes_compare_total demo_bc key_c
              demo_bc_reachable)
    as (chain & it & H1 & H2 & H3 & _).
  exists chain, it. split; [exact H1|]. split; [exact H2 | exact H3].
Defined.

Lemma SkipListIterator_seeklt_position_a :
  exists chain it,
    linked demo_b = Some chain /\
    SkipListIterator_seeklt bytes_compare (Iterator demo_b) key_a = Some it /\
    skl it = skl (Iterator demo_b) /\ Valid it = true.
Proof.
  destruct (SkipListIterator_seeklt_position bytes_compare bytes_compare_total demo_b key_a
              demo_b_reachable)
    as (chain & it & H1 & H2 & H3 & H4 & _).
  exists chain, it. split; [exact H1|]. split; [exact H2|]. split; [exact H3 | exact H4].
Defined.

Lemma Prev_steps_back_c :
  Prev bytes_compare (MkIter (skl (Iterator demo_bc)) 296)
  = Some (true, MkIter (skl (Iterator demo_bc)) 248).
Proof.
  destruct (Prev_steps_back bytes_compare bytes_compare_total demo_bc
              (MkIter (skl (Iterator demo_bc)) 296) [248; 296]
              demo_bc_reachable eq_refl) as [_ H].
  - vm_compute. reflexivity.
  - exact (H [248] [] eq_refl).
Defined.

Lemma seeklt_log_predecessors_c :
  exists ptr log',
    seeklt bytes_compare demo_bc key_c None = Some (ptr, log') /\
    length log' = 24%nat /\ log' !! 0%nat = Some ptr.
Proof.
  destruct (seeklt_log_predecessors bytes_compare bytes_compare_total demo_bc key_c None
              demo_bc_reachable eq_refl)
    as (ptr & log' & H1 & H2 & H3 & _).
  exists ptr, log'. split; [exact H1|]. split; [exact H2 | exact H3].
Defined.

Lemma Insert_arena_use_huge :
  size (arena (demo_insert demo_b key_c (Some val_huge))) = size (arena demo_b) /\
  cursor (arena (demo_insert demo_b key_c (Some val_huge)))
  = cursor (arena demo_b) + aligned_total (newNodeRequest (randLevel demo_b).1 key_c).
Proof.
  destruct (Insert_arena_use bytes_compare bytes_compare_total
              demo_b key_c (Some val_huge) false
              (demo_insert demo_b key_c (Some val_huge)) demo_b_reachable)
    as (_ & _ & Hsize & _ & _ & Habsent).
  - apply len_ok_small. cbn. lia.
  - unfold len_ok. vm_compute. reflexivity.
  - vm_compute. reflexivity.
  - split; [exact Hsize|].
    destruct (Habsent demo_b_lacks_c) as (_ & _ & _ & Hleak).
    apply Hleak; [reflexivity|].
    assert (Hreq : newNodeRequest (randLevel demo_b).1 key_c = [28; 1])
      by (vm_compute; reflexivity).
    rewrite Hreq. intros [Hbig|Hfull].
    + apply Exists_cons in Hbig as [Hbig|Hbig];
        [unfold ARENA_MAX_ALLOC_SIZE in Hbig; lia|].
      apply Exists_cons in Hbig as [Hbig|Hbig];
        [unfold ARENA_MAX_ALLOC_SIZE in Hbig; lia|].
      by apply Exists_nil in Hbig.
    + revert Hfull. vm_compute. discriminate.
Defined.

Lemma Insert_keeps_other_keys_c :
  exists ys ys', forward demo_b = Some ys /\ forward demo_bc = Some ys'.
Proof.
  destruct (Insert_keeps_other_keys bytes_compare bytes_compare_total
              demo_b key_c (Some val_2) true demo_bc demo_b_reachable)
    as (ys & ys' & H1 & H2 & _).
  - apply len_ok_small. cbn. lia.
  - apply len_ok_small. cbn. lia.
  - vm_compute. reflexivity.
  - exists ys, ys'. split; [exact H1 | exact H2].
Defined.

Lemma Insert_nil_absent_key_c :
  holds_key (demo_insert demo_b key_c None) key_c /\
  forward (demo_insert demo_b key_c None) = forward demo_b.
Proof.
  destruct (Insert_nil_absent_key bytes_compare bytes_compare_total
              demo_b key_c (demo_insert demo_b key_c None) demo_b_reachable)
    as (H1 & H2 & _).
  - apply len_ok_small. cbn. lia.
  - exact demo_b_lacks_c.
  - vm_compute. reflexivity.
  - split; [exact H1 | exact H2].
Defined.

Lemma Insert_links_one_node_c :
  exists chain chain', linked demo_b = Some chain /\ linked demo_bc = Some chain'.
Proof.
  destruct (Insert_links_one_node bytes_compare bytes_compare_total
              demo_b key_c (Some val_2) true demo_bc demo_b_reachable)
    as (chain & chain' & H1 & H2 & _).
  - apply len_ok_small. cbn. lia.
  - apply len_ok_small. cbn. lia.
  - vm_compute. reflexivity.
  - exists chain, chain'. split; [exact H1 | exact H2].
Defined.

Lemma nodes_aligned_inside_buffer_bc :
  exists chain,
    linked demo_bc = Some chain /\
    len (buffer (arena demo_bc)) = size (arena demo_bc) /\
    cursor (arena demo_bc) mod 8 = 0.
Proof.
  destruct (nodes_aligned_inside_buffer bytes_compare bytes_compare_total demo_bc
              demo_bc_reachable)
    as (chain & H1 & H2 & H3 & _).
  exists chain. split; [exact H1|]. split; [exact H2 | exact H3].
Defined.

Lemma NewSkipList_empty_demo :
  NewSkipList demo_arena 42 = None <-> Remaining demo_arena < 120.
Proof.
  exact (proj1 (NewSkipList_empty bytes_compare bytes_compare_total demo_arena 42
                  demo_arena_reachable)).
Defined.

Lemma Iterator_Close_RefCount_bc :
  RefCount demo_bc = 1 /\ Close (Iterator demo_bc) = demo_bc.
Proof.
  destruct (Iterator_Close_RefCount bytes_compare demo_bc demo_bc_reachable
              bytes_compare_total)
    as (H1 & _ & _ & H2 & _).
  split; [exact H1 | exact H2].
Defined.

Lemma levels_nested_bc :
  exists chain li,
    linked demo_bc = Some chain /\ linked_at demo_bc 0 = Some chain /\
    linked_at demo_bc 1 = Some li /\ li `sublist_of` chain.
Proof.
  destruct (levels_nested bytes_compare bytes_compare_total demo_bc 1 demo_bc_reachable)
    as (chain & li & H1 & H2 & H3 & H4 & _); [lia|].
  exists chain, li. split; [exact H1|]. split; [exact H2|]. split; [exact H3 | exact H4].
Defined.

End more_instances.
